(** * Extremal packings: the variational analysis engine

    A shallow embedding of the analysis services of the repository
    (src/services/contactGraphs.ts, constraints.ts, perimeter.ts,
    hessian.ts, configurations.ts and the analysis hook) together with
    the properties its specification states and further properties of
    the code.

    Numbers.  A JavaScript [number] is an IEEE-754 binary64 value.  The
    services are written once, over an interface [Number] that lists the
    arithmetic they use; the instance [Float64] is the arithmetic the
    program runs on (Rocq's primitive binary64 floats) and the instance
    [Exact] is real arithmetic, used where the specification speaks of
    exact quantities (a unit vector, a rank-one point set).

    Libraries.  The dense decompositions of [ml-matrix]
    ([EigenvalueDecomposition], [SVD]) are not part of the repository;
    they are the fields of a record [LinAlg] that every service taking a
    decomposition receives as an argument. *)

From Stdlib Require Import List ZArith Lia Bool Arith.
From Stdlib Require Import String Ascii DecimalString DecimalZ.
From Stdlib Require Import Relations Permutation Sorted.
From Stdlib Require Import Reals Lra Floats.
Import ListNotations.

Set Implicit Arguments.
Set Warnings "-inexact-float".

(* ================================================================== *)
(** * 1. JavaScript values *)
(* ================================================================== *)

(** ** 1.1 The arithmetic interface *)

Class Number (num : Type) : Type := {
  zero : num;
  one : num;
  two : num;
  add : num -> num -> num;
  sub : num -> num -> num;
  mul : num -> num -> num;
  div : num -> num -> num;
  neg : num -> num;
  sqrt : num -> num;                 (* Math.sqrt *)
  absn : num -> num;                 (* Math.abs *)
  maxn : num -> num -> num;          (* Math.max of two arguments *)
  ltb : num -> num -> bool;          (* a < b *)
  truthy : num -> bool;              (* ToBoolean: neither 0 nor NaN *)
  isFinite : num -> bool;
  of_nat : nat -> num;               (* an array length used as a number *)
  PI : num;                          (* Math.PI *)
  undef : num;                       (* what arithmetic sees in an array hole *)
  neg_infinity : num;                (* Math.max() of no argument *)
  lit_1e15 : num;                    (* the literal 1e-15 *)
  lit_1e12 : num;                    (* the literal 1e-12 *)
  lit_1e10 : num;                    (* the literal 1e-10 *)
  lit_1e8 : num;                     (* the literal 1e-8 *)
  lit_1e6 : num                      (* the literal 1e-6 *)
}.

Declare Scope num_scope.
Delimit Scope num_scope with num.
Infix "+" := add : num_scope.
Infix "-" := sub : num_scope.
Infix "*" := mul : num_scope.
Infix "/" := div : num_scope.
Notation "- x" := (neg x) : num_scope.
Infix "<?" := ltb : num_scope.
Notation "a >? b" := (ltb b a) : num_scope.

(** ** 1.2 Strings of integers *)

(** [`${k}`] for an integer [k]: its decimal digits, with a leading
    minus sign when negative.  This is the text of every safe integer
    ([|k| < 2^53]); a larger number is printed rounded to 17 digits, or
    with an exponent from 1e21 on, which these strings do not follow. *)
Definition js_string_of_Z (z : Z) : string :=
  NilZero.string_of_int (Z.to_int z).

(** ** 1.3 Arrays *)

(** [Array.from({length: k}, (_, i) => i)]. *)
Definition range (k : nat) : list nat := seq 0 k.

(** [Array.from(new Set(l))] for a list of indices: each value once, in
    the order of its first occurrence. *)
Fixpoint dedupe (seen : list nat) (l : list nat) : list nat :=
  match l with
  | [] => []
  | x :: r =>
      if existsb (Nat.eqb x) seen then dedupe seen r
      else x :: dedupe (x :: seen) r
  end.

(* ================================================================== *)
(** * 2. The data model (src/types/index.ts) *)
(* ================================================================== *)

(** [type Contact = [number, number]], a pair of disk indices. *)
Abbreviation Contact := (Z * Z)%type (only parsing).

Record Configuration (num : Type) : Type := {
  n : nat;
  positions : list (num * num);
  radii : list num;
  contacts : list Contact;
  latticeContacts : list Contact;
  latticeShifts : list (num * num)
}.

Record GraphValidation : Type := {
  isValid : bool;
  expectedEdges : Z;
  actualEdges : Z;
  message : string
}.

(* ================================================================== *)
(** * 3. Graph validator (src/services/contactGraphs.ts) *)
(* ================================================================== *)

Module Graph.

Local Open Scope Z_scope.
Local Notation "a +++ b" := (String.append a%string b%string)
  (right associativity, at level 60).

(** A [Set<number>] in insertion order. *)
Definition zmem (x : Z) (s : list Z) : bool := existsb (Z.eqb x) s.
Definition zadd (x : Z) (s : list Z) : list Z :=
  if zmem x s then s else s ++ [x].

(** A [Map<number, Set<number>>] in insertion order of its keys. *)
Definition AdjMap : Type := list (Z * list Z).

Fixpoint adj_get (adj : AdjMap) (k : Z) : option (list Z) :=
  match adj with
  | [] => None
  | (k', s) :: rest => if k =? k' then Some s else adj_get rest k
  end.

(** [adj.get(u)?.add(v)]: nothing happens when [u] is not a key. *)
Fixpoint adj_add (adj : AdjMap) (u v : Z) : AdjMap :=
  match adj with
  | [] => []
  | (k, s) :: rest =>
      if u =? k then (k, zadd v s) :: rest else (k, s) :: adj_add rest u v
  end.

Definition buildAdjacencyList (n : nat) (contacts : list Contact) : AdjMap :=
  let adj0 := map (fun i => (Z.of_nat i, @nil Z)) (range n) in
  fold_left (fun adj '(u, v) => adj_add (adj_add adj u v) v u) contacts adj0.

(** The inner [for] of the traversal: the neighbours of the node just
    taken off the queue, in order. *)
Fixpoint visit (nbrs : list Z) (visited queue : list Z) : list Z * list Z :=
  match nbrs with
  | [] => (visited, queue)
  | nb :: rest =>
      if zmem nb visited then visit rest visited queue
      else visit rest (visited ++ [nb]) (queue ++ [nb])
  end.

(** The [while (queue.length > 0)] loop.  Every turn takes one node off
    the queue, and a node enters the queue once, when it enters
    [visited]; [fuel] bounds the number of turns. *)
Fixpoint bfs (fuel : nat) (adj : AdjMap) (visited queue : list Z) : list Z :=
  match fuel with
  | O => visited
  | S fuel' =>
      match queue with
      | [] => visited
      | node :: rest =>
          let nbrs := match adj_get adj node with Some s => s | None => [] end in
          let '(visited', queue') := visit nbrs visited rest in
          bfs fuel' adj visited' queue'
      end
  end.

(** One turn for the start node and one for each end of each contact is
    enough (lemma [bfs_fuel_enough] below). *)
Definition bfs_fuel (contacts : list Contact) : nat :=
  S (S (2 * List.length contacts)).

Definition isConnected (n : nat) (contacts : list Contact) : bool :=
  if (n =? 0)%nat then true
  else if (n =? 1)%nat then true
  else if (List.length contacts =? 0)%nat then (n <=? 1)%nat
  else
    let adj := buildAdjacencyList n contacts in
    let visited := bfs (bfs_fuel contacts) adj [0] [0] in
    (List.length visited =? n)%nat.

(** [degrees[u]++] on an array of [n] zeros.  The one caller has
    already returned when an index is outside [0, n); there the array
    is left as it is (JavaScript would store NaN in a new slot). *)
Fixpoint incr_at (k : nat) (l : list Z) : list Z :=
  match l, k with
  | [], _ => []
  | d :: r, O => (d + 1) :: r
  | d :: r, S k' => d :: incr_at k' r
  end.

Definition incr_degree (degrees : list Z) (u : Z) : list Z :=
  if u <? 0 then degrees else incr_at (Z.to_nat u) degrees.

Definition computeVertexDegrees (n : nat) (contacts : list Contact) : list Z :=
  fold_left (fun degrees '(u, v) => incr_degree (incr_degree degrees u) v)
            contacts (repeat 0 n).

Definition out_of_range (n : Z) (c : Contact) : bool :=
  let '(u, v) := c in (u <? 0) || (u >=? n) || (v <? 0) || (v >=? n).

Definition is_self_loop (c : Contact) : bool :=
  let '(u, v) := c in u =? v.

Definition edge_key (c : Contact) : string :=
  let '(u, v) := c in
  if u <? v then js_string_of_Z u +++ "-" +++ js_string_of_Z v
  else js_string_of_Z v +++ "-" +++ js_string_of_Z u.

(** The duplicate loop: the first contact whose key is already in
    [edgeSet]. *)
Fixpoint find_duplicate (edgeSet : list string) (cs : list Contact)
  : option Contact :=
  match cs with
  | [] => None
  | c :: rest =>
      let key := edge_key c in
      if existsb (String.eqb key) edgeSet then Some c
      else find_duplicate (edgeSet ++ [key]) rest
  end.

Definition invalid (actual : Z) (msg : string) : GraphValidation :=
  {| isValid := false; expectedEdges := 0; actualEdges := actual;
     message := msg |}.

Definition checkGraphValidity {num} (config : Configuration num)
  : GraphValidation :=
  let n := config.(n) in
  let allContacts := config.(contacts) ++ config.(latticeContacts) in
  let actualEdges := Z.of_nat (List.length allContacts) in
  match find (out_of_range (Z.of_nat n)) allContacts with
  | Some (u, v) =>
      invalid actualEdges
        ("Invalid index in contact (" +++ js_string_of_Z u +++ ", "
           +++ js_string_of_Z v +++ "): must be in [0, "
           +++ js_string_of_Z (Z.of_nat n - 1) +++ "]")
  | None =>
  match find is_self_loop allContacts with
  | Some (u, _) =>
      invalid actualEdges ("Self-loop detected at vertex " +++ js_string_of_Z u)
  | None =>
  match find_duplicate [] allContacts with
  | Some (u, v) =>
      invalid actualEdges
        ("Duplicate edge (" +++ js_string_of_Z u +++ ", "
           +++ js_string_of_Z v +++ ")")
  | None =>
  if negb (isConnected n allContacts) then
    invalid actualEdges "Graph is not connected"
  else
    let degrees := computeVertexDegrees n allContacts in
    match find (fun i => nth i degrees 0 >? 6) (range n) with
    | Some i =>
        invalid actualEdges
          ("Vertex " +++ js_string_of_Z (Z.of_nat i) +++ " has degree "
             +++ js_string_of_Z (nth i degrees 0)
             +++ " > 6 (kissing number violation)")
    | None =>
        let expectedEdges := 2 * Z.of_nat n + 1 in
        {| isValid := true;
           expectedEdges := expectedEdges;
           actualEdges := actualEdges;
           message :=
             if actualEdges =? expectedEdges
             then "Valid graph with expected edge count"
             else "Valid graph (" +++ js_string_of_Z actualEdges
                    +++ " edges, expected " +++ js_string_of_Z expectedEdges
                    +++ " for rigidity)" |}
    end
  end end end.

End Graph.

(* ================================================================== *)
(** * 4. Exceptions *)
(* ================================================================== *)

(** A [throw new Error(msg)] of the services, or the [TypeError] of the
    runtime when a property is read on [undefined]. *)
Inductive exn : Type :=
| Error (msg : string)
| TypeError.

Inductive result (A : Type) : Type :=
| Ok (a : A)
| Throw (e : exn).
Arguments Ok {A} a.
Arguments Throw {A} e.

Definition bind {A B} (c : result A) (k : A -> result B) : result B :=
  match c with
  | Ok a => k a
  | Throw e => Throw e
  end.

Notation "'let*' x ':=' c 'in' k" := (bind c (fun x => k))
  (at level 10, x pattern, c at level 100, k at level 200).

(* ================================================================== *)
(** * 5. Dense matrices (what the services use of ml-matrix) *)
(* ================================================================== *)

Definition Matrix (num : Type) : Type := list (list num).

(** [new EigenvalueDecomposition(M)]: [realEigenvalues] and
    [eigenvectorMatrix] (as its rows). *)
Record EigenResult (num : Type) : Type := {
  realEigenvalues : list num;
  eigenvectorMatrix : Matrix num
}.

(** [new SVD(M)]. *)
Record SVDResult (num : Type) : Type := {
  leftSingularVectors : Matrix num;
  diagonal : list num;
  rightSingularVectors : Matrix num
}.

(** The two decompositions are library code: the services are
    parametrised by them. *)
Record LinAlg (num : Type) : Type := {
  EigenvalueDecomposition : Matrix num -> EigenResult num;
  SVD : Matrix num -> SVDResult num
}.

Section Arrays.
Context {num : Type} {N : Number num}.
Local Open Scope num_scope.

(** [a[k]] read as a number. *)
Definition array_get (a : list num) (k : nat) : num := nth k a undef.

(** [a[k] = v]: in range the slot is replaced; past the end the array
    grows, the slots in between being holes. *)
Fixpoint array_set (a : list num) (k : nat) (v : num) : list num :=
  match a, k with
  | [], O => [v]
  | [], S k' => undef :: array_set [] k' v
  | _ :: r, O => v :: r
  | x :: r, S k' => x :: array_set r k' v
  end.

(** [positions[i]] for a contact index: [undefined] outside the array. *)
Definition point_at (positions : list (num * num)) (i : Z)
  : option (num * num) :=
  if (i <? 0)%Z then None else nth_error positions (Z.to_nat i).

(** [positions[h]] for a hull index, always inside the array. *)
Definition hull_point (positions : list (num * num)) (h : nat) : num * num :=
  nth h positions (undef, undef).

(** [M.get(i, j)]. *)
Definition mat_get (M : Matrix num) (i j : nat) : num :=
  array_get (nth i M []) j.

Definition column (M : Matrix num) (j : nat) : list num :=
  map (fun row => array_get row j) M.

Definition transpose (M : Matrix num) : Matrix num :=
  match M with
  | [] => []
  | row0 :: _ => map (column M) (range (List.length row0))
  end.

(** One entry of a product: [s = 0; for k: s += a[k] * b[k]]. *)
Fixpoint dot_from (s : num) (a b : list num) : num :=
  match a, b with
  | x :: a', y :: b' => dot_from (s + x * y) a' b'
  | _, _ => s
  end.

Definition mmul (A B : Matrix num) : Matrix num :=
  let Bt := transpose B in
  map (fun row => map (fun col => dot_from zero row col) Bt) A.

Definition columnVector (v : list num) : Matrix num :=
  map (fun x => [x]) v.

(** [Math.max(...l)]. *)
Definition max_list (l : list num) : num := fold_left maxn l neg_infinity.

(** [Array.prototype.sort(cmp)]: the order is stable, and [a] goes
    before [b] when [cmp(a, b) < 0] (a comparator that returns NaN
    counts as returning 0).  Every engine agrees with this insertion
    sort when the comparator is consistent. *)
Fixpoint sort_insert {A} (cmp : A -> A -> num) (x : A) (l : list A) : list A :=
  match l with
  | [] => [x]
  | y :: r => if cmp x y <? zero then x :: l else y :: sort_insert cmp x r
  end.

Definition js_sort {A} (cmp : A -> A -> num) (l : list A) : list A :=
  fold_left (fun acc x => sort_insert cmp x acc) l [].

(** All [(l[i], l[j])] with [i < j], in the order of the two nested
    loops [for i ... for j = i + 1 ...]. *)
Fixpoint pairs {A} (l : list A) : list (A * A) :=
  match l with
  | [] => []
  | a :: r => map (pair a) r ++ pairs r
  end.

(** All [(l[k], l[(k + 1) % l.length])], in the order of [k]. *)
Definition cyclic_edges {A} (l : list A) : list (A * A) :=
  match l with
  | [] => []
  | a :: r => combine l (r ++ [a])
  end.

End Arrays.

(* ================================================================== *)
(** * 6. Constraint builder (src/services/constraints.ts) *)
(* ================================================================== *)

Record ConstraintData (num : Type) : Type := {
  contactMatrix : Matrix num;
  rollingMatrix : Matrix num;
  dimension : nat
}.

Section Constraints.
Context {num : Type} {N : Number num}.
Local Open Scope num_scope.
Local Notation "a +++ b" := (String.append a%string b%string)
  (right associativity, at level 60).

(** The body of the loop of [buildContactMatrix] for one contact. *)
Definition contact_row (cols : nat) (positions : list (num * num))
  (c : Contact) : result (list num) :=
  let '(i, j) := c in
  let row := repeat zero cols in
  match point_at positions j, point_at positions i with
  | Some pj, Some pi =>
      let dx := fst pj - fst pi in
      let dy := snd pj - snd pi in
      let dist := sqrt (dx * dx + dy * dy) in
      if dist <? lit_1e15 then
        Throw (Error ("Disks " +++ js_string_of_Z i +++ " and "
                        +++ js_string_of_Z j +++ " have coincident centers"))
      else
        let ux := dx / dist in
        let uy := dy / dist in
        let row := array_set row (Z.to_nat (2 * i)) (- ux) in
        let row := array_set row (Z.to_nat (2 * i + 1)) (- uy) in
        let row := array_set row (Z.to_nat (2 * j)) ux in
        let row := array_set row (Z.to_nat (2 * j + 1)) uy in
        Ok row
  | _, _ => Throw TypeError
  end.

Fixpoint contact_rows (cols : nat) (positions : list (num * num))
  (cs : list Contact) : result (Matrix num) :=
  match cs with
  | [] => Ok []
  | c :: rest =>
      let* row := contact_row cols positions c in
      let* rows := contact_rows cols positions rest in
      Ok (row :: rows)
  end.

Definition buildContactMatrix (config : Configuration num)
  : result (Matrix num) :=
  let cols := (2 * config.(n))%nat in
  contact_rows cols config.(positions) config.(contacts).

(** [console.log] and the closing check of [A Z], which is only
    logged, are left out. *)
Definition rollingSpaceBasis (la : LinAlg num) (A : Matrix num)
  (tolerance : num) : Matrix num :=
  match A with
  | [] => []
  | row0 :: _ =>
      let cols := List.length row0 in
      let AtA := mmul (transpose A) A in
      let eig := la.(EigenvalueDecomposition) AtA in
      let eigenvalues := eig.(realEigenvalues) in
      let V := eig.(eigenvectorMatrix) in
      let nullIndices :=
        filter (fun i => absn (array_get eigenvalues i) <? tolerance)
               (range (List.length eigenvalues)) in
      match nullIndices with
      | [] => repeat [] cols
      | _ :: _ =>
          map (fun row => map (fun colIdx => array_get row colIdx) nullIndices) V
      end
  end.

Definition computeConstraints (la : LinAlg num) (config : Configuration num)
  : result (ConstraintData num) :=
  let* contactMatrix := buildContactMatrix config in
  let rollingMatrix := rollingSpaceBasis la contactMatrix lit_1e10 in
  let dimension :=
    match rollingMatrix with
    | [] => O
    | row0 :: _ => List.length row0
    end in
  Ok {| contactMatrix := contactMatrix;
        rollingMatrix := rollingMatrix;
        dimension := dimension |}.

End Constraints.

(* ================================================================== *)
(** * 7. Convex hull and perimeter (src/services/perimeter.ts) *)
(* ================================================================== *)

Record PerimeterResult (num : Type) : Type := {
  perimeter : num;
  gradient : list num
}.

Record IndexedPoint (num : Type) : Type := {
  px : num;
  py : num;
  pidx : nat
}.

Section Perimeter.
Context {num : Type} {N : Number num}.
Local Open Scope num_scope.

Definition indexed (points : list (num * num)) : list (IndexedPoint num) :=
  map (fun '(i, p) => {| px := fst p; py := snd p; pidx := i |})
      (combine (range (List.length points)) points).

(** [(a, b) => a.x - b.x || a.y - b.y]. *)
Definition by_x_then_y (a b : IndexedPoint num) : num :=
  let d := a.(px) - b.(px) in
  if truthy d then d else a.(py) - b.(py).

Definition cross (o a b : IndexedPoint num) : num :=
  (a.(px) - o.(px)) * (b.(py) - o.(py)) - (a.(py) - o.(py)) * (b.(px) - o.(px)).

Definition EPS : num := lit_1e12.

(** The [while] of one half hull; the stack is kept top first. *)
Fixpoint pop_right_turns (stack : list (IndexedPoint num))
  (p : IndexedPoint num) : list (IndexedPoint num) :=
  match stack with
  | top :: ((below :: _) as rest) =>
      if cross below top p <? - EPS then pop_right_turns rest p else stack
  | _ => stack
  end.

(** One half hull, top first: the last point pushed is its head. *)
Definition half_hull (pts : list (IndexedPoint num)) : list (IndexedPoint num) :=
  fold_left (fun stack p => p :: pop_right_turns stack p) pts [].

Definition convexHullIndices (points : list (num * num)) : list nat :=
  let n := List.length points in
  if (n <=? 1)%nat then range n
  else
    let sorted := js_sort by_x_then_y (indexed points) in
    let lower := half_hull sorted in
    let upper := half_hull (rev sorted) in
    (* [lower.pop(); upper.pop()] drop the heads *)
    let hull := rev (tl lower) ++ rev (tl upper) in
    dedupe [] (map (@pidx num) hull).

(** The data [isCollinear] hands to the SVD: the points minus their
    mean, one row per point. *)
Definition centered (points : list (num * num)) : Matrix num :=
  let n := List.length points in
  let meanX := fold_left (fun s p => s + fst p) points zero / of_nat n in
  let meanY := fold_left (fun s p => s + snd p) points zero / of_nat n in
  map (fun p => [fst p - meanX; snd p - meanY]) points.

Definition isCollinear (la : LinAlg num) (points : list (num * num)) : bool :=
  let n := List.length points in
  if (n <? 3)%nat then true
  else
    let s := (la.(SVD) (centered points)).(diagonal) in
    array_get s 1 <? lit_1e8.

(** [x ** 2]. *)
Definition pow2 (x : num) : num := x * x.

Definition dist2 (positions : list (num * num)) (hi hj : nat) : num :=
  let pi := hull_point positions hi in
  let pj := hull_point positions hj in
  pow2 (fst pj - fst pi) + pow2 (snd pj - snd pi).

(** The collinear branch of [perimeterOfCenters]: twice the largest
    distance between two hull points. *)
Definition stadium_perimeter (positions : list (num * num)) (hull : list nat)
  : num :=
  let maxDist :=
    fold_left (fun maxDist '(hi, hj) =>
                 maxn maxDist (sqrt (dist2 positions hi hj)))
              (pairs hull) zero in
  two * maxDist.

(** The other branch: the length of the closed polygon. *)
Definition polygon_perimeter (positions : list (num * num)) (hull : list nat)
  : num :=
  fold_left (fun perimeter '(hi, hj) =>
               perimeter + sqrt (dist2 positions hi hj))
            (cyclic_edges hull) zero.

Definition perimeterOfCenters (la : LinAlg num) (config : Configuration num)
  : num :=
  let hull := convexHullIndices config.(positions) in
  if (List.length hull <=? 1)%nat then zero
  else if isCollinear la config.(positions)
  then stadium_perimeter config.(positions) hull
  else polygon_perimeter config.(positions) hull.

Definition perimeterOfDisks (la : LinAlg num) (config : Configuration num)
  : num :=
  let r := array_get config.(radii) 0 in
  let centersPerim := perimeterOfCenters la config in
  centersPerim + two * PI * r.

(** The search of the collinear branch of [perimeterGradient]:
    [(maxDist, endA, endB)], on squared distances, a later pair
    replacing the current one only when strictly farther. *)
Definition farthest_pair_sq (positions : list (num * num)) (hull : list nat)
  : num * nat * nat :=
  fold_left (fun '(maxDist, endA, endB) '(hi, hj) =>
               let dSq := dist2 positions hi hj in
               if dSq >? maxDist then (dSq, hi, hj) else (maxDist, endA, endB))
            (pairs hull) (zero, O, O).

(** [grad[k] -= v] and [grad[k] += v]. *)
Definition array_sub_at (a : list num) (k : nat) (v : num) : list num :=
  array_set a k (array_get a k - v).
Definition array_add_at (a : list num) (k : nat) (v : num) : list num :=
  array_set a k (array_get a k + v).

(** The four updates an edge from [a] to [b] with direction [(ux, uy)]
    makes, scaled by [w]. *)
Definition push_apart (grad : list num) (a b : nat) (wux wuy : num)
  : list num :=
  let grad := array_sub_at grad (2 * a) wux in
  let grad := array_sub_at grad (2 * a + 1) wuy in
  let grad := array_add_at grad (2 * b) wux in
  let grad := array_add_at grad (2 * b + 1) wuy in
  grad.

Definition collinear_gradient (positions : list (num * num)) (hull : list nat)
  (grad : list num) : list num :=
  let '(maxDist, endA, endB) := farthest_pair_sq positions hull in
  let dist := sqrt maxDist in
  if dist <? lit_1e15 then grad
  else
    let pa := hull_point positions endA in
    let pb := hull_point positions endB in
    let dx := fst pb - fst pa in
    let dy := snd pb - snd pa in
    let ux := dx / dist in
    let uy := dy / dist in
    push_apart grad endA endB (two * ux) (two * uy).

Definition polygon_gradient (positions : list (num * num)) (hull : list nat)
  (grad : list num) : list num :=
  fold_left (fun grad '(i, j) =>
               let pi := hull_point positions i in
               let pj := hull_point positions j in
               let dx := fst pj - fst pi in
               let dy := snd pj - snd pi in
               let dist := sqrt (dx * dx + dy * dy) in
               if dist <? lit_1e15 then grad
               else
                 let ux := dx / dist in
                 let uy := dy / dist in
                 push_apart grad i j ux uy)
            (cyclic_edges hull) grad.

Definition perimeterGradient (la : LinAlg num) (config : Configuration num)
  : list num :=
  let grad := repeat zero (2 * config.(n)) in
  let hull := convexHullIndices config.(positions) in
  if (List.length hull <=? 1)%nat then grad
  else if isCollinear la config.(positions)
  then collinear_gradient config.(positions) hull grad
  else polygon_gradient config.(positions) hull grad.

Definition computePerimeter (la : LinAlg num) (config : Configuration num)
  : PerimeterResult num :=
  {| perimeter := perimeterOfDisks la config;
     gradient := perimeterGradient la config |}.

End Perimeter.

(* ================================================================== *)
(** * 8. Hessian engine (src/services/hessian.ts) *)
(* ================================================================== *)

Record HessianResult (num : Type) : Type := {
  hessian : Matrix num;
  eigenvalues : list num;
  eigenvectors : Matrix num;
  isLocalMinimum : bool;
  indexMorseCritical : nat
}.

Record Spectrum (num : Type) : Type := {
  spec_eigenvalues : list num;
  spec_eigenvectors : Matrix num
}.

Section Hessian.
Context {num : Type} {N : Number num}.
Local Open Scope num_scope.

Definition computeEdgeBlock (t : num * num) (dist : num) : Matrix num :=
  let tx := fst t in
  let ty := snd t in
  [ [ (one - tx * tx) / dist; (- tx * ty) / dist ];
    [ (- tx * ty) / dist; (one - ty * ty) / dist ] ].

(** [H[r][c] += v]: reading a row that does not exist throws. *)
Definition mat_add_at (H : Matrix num) (r c : nat) (v : num)
  : result (Matrix num) :=
  match nth_error H r with
  | None => Throw TypeError
  | Some row =>
      let row' := array_add_at row c v in
      Ok (firstn r H ++ row' :: skipn (S r) H)
  end.

Definition addBlock (H : Matrix num) (block : Matrix num) (row col : nat)
  (sign : num) : result (Matrix num) :=
  let* H := mat_add_at H (2 * row) (2 * col) (sign * mat_get block 0 0) in
  let* H := mat_add_at H (2 * row) (2 * col + 1) (sign * mat_get block 0 1) in
  let* H := mat_add_at H (2 * row + 1) (2 * col) (sign * mat_get block 1 0) in
  mat_add_at H (2 * row + 1) (2 * col + 1) (sign * mat_get block 1 1).

(** The four [addBlock] calls of an edge between [u] and [v]. *)
Definition add_edge_blocks (H : Matrix num) (block : Matrix num) (u v : nat)
  : result (Matrix num) :=
  let* H := addBlock H block u u one in
  let* H := addBlock H block v v one in
  let* H := addBlock H block u v (- one) in
  addBlock H block v u (- one).

Definition zeros (dim : nat) : Matrix num := repeat (repeat zero dim) dim.

(** The search of the collinear branch of [buildEuclideanHessian]:
    [(maxDist, endA, endB)], on distances.  [endA] and [endB] start as
    [hull[0]] and [hull[1]]; they are read only after a pair has
    replaced them. *)
Definition farthest_pair (positions : list (num * num)) (hull : list nat)
  : num * nat * nat :=
  fold_left (fun '(maxDist, endA, endB) '(hi, hj) =>
               let d := sqrt (dist2 positions hi hj) in
               if d >? maxDist then (d, hi, hj) else (maxDist, endA, endB))
            (pairs hull) (zero, nth 0 hull O, nth 1 hull O).

Definition collinear_hessian (positions : list (num * num)) (hull : list nat)
  (H : Matrix num) : result (Matrix num) :=
  let '(maxDist, endA, endB) := farthest_pair positions hull in
  if maxDist >? lit_1e15 then
    let pa := hull_point positions endA in
    let pb := hull_point positions endB in
    let dx := fst pb - fst pa in
    let dy := snd pb - snd pa in
    let t := (dx / maxDist, dy / maxDist) in
    let block := computeEdgeBlock t maxDist in
    let scaledBlock := map (fun r => map (fun v => two * v) r) block in
    add_edge_blocks H scaledBlock endA endB
  else Ok H.

Fixpoint polygon_hessian (positions : list (num * num))
  (edges : list (nat * nat)) (H : Matrix num) : result (Matrix num) :=
  match edges with
  | [] => Ok H
  | (u, v) :: rest =>
      let pu := hull_point positions u in
      let pv := hull_point positions v in
      let dx := fst pv - fst pu in
      let dy := snd pv - snd pu in
      let dist := sqrt (dx * dx + dy * dy) in
      if dist <? lit_1e15 then polygon_hessian positions rest H
      else
        let t := (dx / dist, dy / dist) in
        let block := computeEdgeBlock t dist in
        let* H := add_edge_blocks H block u v in
        polygon_hessian positions rest H
  end.

Definition buildEuclideanHessian (la : LinAlg num)
  (config : Configuration num) : result (Matrix num) :=
  let dim := (2 * config.(n))%nat in
  let H := zeros dim in
  let hull := convexHullIndices config.(positions) in
  if isCollinear la config.(positions)
  then collinear_hessian config.(positions) hull H
  else polygon_hessian config.(positions) (cyclic_edges hull) H.

(** [for (j < m) result[j] += V.get(j, i) * coeff]. *)
Definition add_scaled_column (result : list num) (V : Matrix num) (i : nat)
  (coeff : num) : list num :=
  map (fun '(j, r) => r + mat_get V j i * coeff)
      (combine (range (List.length result)) result).

Definition solveLagrangeMultipliers (la : LinAlg num) (A : Matrix num)
  (gradient : list num) : list num :=
  match A with
  | [] => []
  | _ :: _ =>
      let At := transpose A in
      let b := columnVector gradient in
      let svd := la.(SVD) At in
      let U := svd.(leftSingularVectors) in
      let S := svd.(diagonal) in
      let V := svd.(rightSingularVectors) in
      let Utb := mmul (transpose U) b in
      let tol := lit_1e10 * max_list S in
      let m := List.length A in
      fold_left (fun result i =>
                   if array_get S i >? tol then
                     let coeff := mat_get Utb i 0 / array_get S i in
                     add_scaled_column result V i coeff
                   else result)
                (range (Nat.min (List.length S) m))
                (repeat zero m)
  end.

(** The [forEach] of [buildGeometricHessian], from contact number
    [idx] on. *)
Fixpoint geometric_blocks (positions : list (num * num))
  (lambdas : list num) (idx : nat) (cs : list Contact) (H : Matrix num)
  : result (Matrix num) :=
  match cs with
  | [] => Ok H
  | (i, j) :: rest =>
      match point_at positions j, point_at positions i with
      | Some pj, Some pi =>
          let dx := fst pj - fst pi in
          let dy := snd pj - snd pi in
          let dist := sqrt (dx * dx + dy * dy) in
          if dist <? lit_1e15 then
            geometric_blocks positions lambdas (S idx) rest H
          else
            let ux := dx / dist in
            let uy := dy / dist in
            let lam := array_get lambdas idx in
            let factor := - lam / two in
            let block :=
              [ [ factor * (one - ux * ux); factor * (- ux * uy) ];
                [ factor * (- ux * uy); factor * (one - uy * uy) ] ] in
            let* H := add_edge_blocks H block (Z.to_nat i) (Z.to_nat j) in
            geometric_blocks positions lambdas (S idx) rest H
      | _, _ => Throw TypeError
      end
  end.

Definition buildGeometricHessian (config : Configuration num)
  (lambdas : list num) : result (Matrix num) :=
  let dim := (2 * config.(n))%nat in
  geometric_blocks config.(positions) lambdas 0 config.(contacts) (zeros dim).

Definition projectToRoll (HAmbient R : Matrix num) : Matrix num :=
  mmul (mmul (transpose R) HAmbient) R.

Definition symmetrize (H : Matrix num) : Matrix num :=
  let n := List.length H in
  map (fun i => map (fun j => (mat_get H i j + mat_get H j i) / two) (range n))
      (range n).

(** "Clean noise": the eigenvalues of magnitude below the tolerance
    are replaced by 0. *)
Definition cleaned (tolerance : num) (raw : list num) : list num :=
  map (fun v => if absn v <? tolerance then zero else v) raw.

Definition intrinsicSpectrum (la : LinAlg num) (H : Matrix num)
  (tolerance : num) : Spectrum num :=
  let sym := symmetrize H in
  let eig := la.(EigenvalueDecomposition) sym in
  let eigVecMatrix := eig.(eigenvectorMatrix) in
  let eigenvalues := cleaned tolerance eig.(realEigenvalues) in
  (* sort ascending *)
  let indices :=
    js_sort (fun a b => array_get eigenvalues a - array_get eigenvalues b)
            (range (List.length eigenvalues)) in
  let sortedValues := map (array_get eigenvalues) indices in
  (* eigenvectors as columns *)
  let sortedVectors := map (column eigVecMatrix) indices in
  {| spec_eigenvalues := sortedValues; spec_eigenvectors := sortedVectors |}.

Definition rollDim (R : Matrix num) : nat :=
  match R with
  | [] => O
  | row0 :: _ => List.length row0
  end.

Definition trivialHessian : HessianResult num :=
  {| hessian := []; eigenvalues := []; eigenvectors := [];
     isLocalMinimum := true; indexMorseCritical := 0 |}.

Definition computeHessian (la : LinAlg num) (config : Configuration num)
  (R : Matrix num) : result (HessianResult num) :=
  if (rollDim R =? 0)%nat then Ok trivialHessian
  else
    let* HEucl := buildEuclideanHessian la config in
    let* A := buildContactMatrix config in
    let grad := perimeterGradient la config in
    let lambdas := solveLagrangeMultipliers la A grad in
    let* HGeom := buildGeometricHessian config lambdas in
    let dim := (2 * config.(n))%nat in
    let HTotal :=
      map (fun i => map (fun j => mat_get HEucl i j + mat_get HGeom i j)
                        (range dim))
          (range dim) in
    let HRoll := projectToRoll HTotal R in
    (* non-finite entries are set to 0 *)
    let HRoll := map (map (fun v => if isFinite v then v else zero)) HRoll in
    let spectrum := intrinsicSpectrum la HRoll lit_1e10 in
    let eigenvalues := spectrum.(spec_eigenvalues) in
    let eigenvectors := spectrum.(spec_eigenvectors) in
    let negativeTolerance := lit_1e6 in
    let indexMorseCritical :=
      List.length (filter (fun v => v <? - negativeTolerance) eigenvalues) in
    let isLocalMinimum := (indexMorseCritical =? 0)%nat in
    Ok {| hessian := HRoll;
          eigenvalues := eigenvalues;
          eigenvectors := eigenvectors;
          isLocalMinimum := isLocalMinimum;
          indexMorseCritical := indexMorseCritical |}.

End Hessian.

(* ================================================================== *)
(** * 9. Orchestrator (src/services/index.ts) *)
(* ================================================================== *)

(** [AnalysisResult] without its [summary], a text that prints the
    other fields. *)
Record AnalysisResult (num : Type) : Type := {
  configuration : Configuration num;
  graphValidation : GraphValidation;
  constraints : ConstraintData num;
  perimeterResult : PerimeterResult num;
  hessianResult : HessianResult num
}.

Definition analyzeConfiguration {num} {N : Number num} (la : LinAlg num)
  (config : Configuration num) : result (AnalysisResult num) :=
  let graphValidation := Graph.checkGraphValidity config in
  let* constraints := computeConstraints la config in
  let perimeter := computePerimeter la config in
  let* hessian := computeHessian la config constraints.(rollingMatrix) in
  Ok {| configuration := config;
        graphValidation := graphValidation;
        constraints := constraints;
        perimeterResult := perimeter;
        hessianResult := hessian |}.

(* ================================================================== *)
(** * 10. Configurations (src/services/configurations.ts) *)
(* ================================================================== *)

(** [Math.round], which the geometry of the torus uses beside the
    arithmetic of [Number]. *)
Class Rounding (num : Type) : Type := {
  round : num -> num
}.

(** [x.toFixed(digits)], the text of a number in an error message. *)
Definition Printer (num : Type) : Type := num -> nat -> string.

Record ContactValidation : Type := {
  valid : bool;
  errors : list string
}.

(** An entry of the array [computeDegrees] fills: a count, NaN (what
    [undefined + 1] is), or the hole that an assignment past the end
    leaves before it. *)
Inductive DegreeSlot : Type :=
| Count (d : Z)
| NotANumber
| Hole.

Section Configurations.
Context {num : Type} {N : Number num} {Rd : Rounding num}.
Local Open Scope num_scope.
Local Notation "a +++ b" := (String.append a%string b%string)
  (right associativity, at level 60).

Definition wrapToFundamentalDomain (p : num * num) : num * num :=
  let wrap := fun x => x - round x in
  (wrap (fst p), wrap (snd p)).

Definition torusDistance (a b : num * num) : num :=
  let dx := fst a - fst b in
  let dy := snd a - snd b in
  let wx := dx - round dx in
  let wy := dy - round dy in
  sqrt (wx * wx + wy * wy).

Definition euclideanDistance (a b : num * num) : num :=
  let dx := fst a - fst b in
  let dy := snd a - snd b in
  sqrt (dx * dx + dy * dy).

(** The optional arguments ([radius = 1.0], no lattice contact, no
    shift) are passed by the caller. *)
Definition createConfiguration (positions : list (num * num))
  (contacts : list Contact) (radius : num)
  (latticeContacts : list Contact) (latticeShifts : list (num * num))
  : Configuration num :=
  let n := List.length positions in
  let radii := repeat radius n in
  {| n := n;
     positions := positions;
     radii := radii;
     contacts := contacts;
     latticeContacts := latticeContacts;
     latticeShifts := latticeShifts |}.

(** The body of the loop of [validateContacts] for one contact: the
    error it pushes, if any.  [distFn] reads [a[0]] and [b[0]], which
    throws when [positions] has no entry at an index. *)
Definition contact_error (toFixed : Printer num) (config : Configuration num)
  (tolerance : num) (useTorus : bool) (c : Contact) : result (option string) :=
  let distFn := if useTorus then torusDistance else euclideanDistance in
  let '(i, j) := c in
  let n := Z.of_nat config.(n) in
  if ((i <? 0) || (i >=? n) || (j <? 0) || (j >=? n))%Z then
    Ok (Some ("Contact (" +++ js_string_of_Z i +++ "," +++ js_string_of_Z j
                +++ "): index out of range [0, "
                +++ js_string_of_Z (n - 1) +++ "]"))
  else
    let expectedDist :=
      array_get config.(radii) (Z.to_nat i)
      + array_get config.(radii) (Z.to_nat j) in
    match point_at config.(positions) i, point_at config.(positions) j with
    | Some pi, Some pj =>
        let actualDist := distFn pi pj in
        if absn (actualDist - expectedDist) >? tolerance then
          Ok (Some ("Contact (" +++ js_string_of_Z i +++ ","
                      +++ js_string_of_Z j +++ "): expected dist "
                      +++ toFixed expectedDist 6%nat +++ ", got "
                      +++ toFixed actualDist 6%nat))
        else Ok None
    | _, _ => Throw TypeError
    end.

Fixpoint contact_errors (toFixed : Printer num) (config : Configuration num)
  (tolerance : num) (useTorus : bool) (cs : list Contact)
  (errors : list string) : result (list string) :=
  match cs with
  | [] => Ok errors
  | c :: rest =>
      let* e := contact_error toFixed config tolerance useTorus c in
      contact_errors toFixed config tolerance useTorus rest
        (match e with Some msg => errors ++ [msg] | None => errors end)
  end.

(** The optional arguments ([tolerance = 1e-6], [useTorus = false])
    are passed by the caller. *)
Definition validateContacts (toFixed : Printer num) (config : Configuration num)
  (tolerance : num) (useTorus : bool) : result ContactValidation :=
  let* errors :=
    contact_errors toFixed config tolerance useTorus config.(contacts) [] in
  Ok {| valid := (List.length errors =? 0)%nat; errors := errors |}.

(** [s++] on an entry of the array. *)
Definition increment (s : DegreeSlot) : DegreeSlot :=
  match s with
  | Count d => Count (d + 1)
  | NotANumber | Hole => NotANumber
  end.

(** [degrees[k]++]: past the end the array grows up to [k], where NaN
    is stored. *)
Fixpoint increment_at (k : nat) (degrees : list DegreeSlot) : list DegreeSlot :=
  match degrees, k with
  | [], O => [NotANumber]
  | [], S k' => Hole :: increment_at k' []
  | s :: r, O => increment s :: r
  | s :: r, S k' => s :: increment_at k' r
  end.

(** A negative index names a property beside the entries of the
    array, which stay as they are. *)
Definition increment_degree (degrees : list DegreeSlot) (i : Z)
  : list DegreeSlot :=
  if (i <? 0)%Z then degrees else increment_at (Z.to_nat i) degrees.

Definition computeDegrees (config : Configuration num) : list DegreeSlot :=
  let count := fold_left (fun degrees '(i, j) =>
                 increment_degree (increment_degree degrees i) j) in
  let degrees := repeat (Count 0) config.(n) in
  let degrees := count config.(contacts) degrees in
  count config.(latticeContacts) degrees.

Definition contactDirection (config : Configuration num) (i j : Z)
  (useTorus : bool) : result (num * num) :=
  match point_at config.(positions) j, point_at config.(positions) i with
  | Some pj, Some pi =>
      let dx := fst pj - fst pi in
      let dy := snd pj - snd pi in
      let dx := if useTorus then dx - round dx else dx in
      let dy := if useTorus then dy - round dy else dy in
      let dist := sqrt (dx * dx + dy * dy) in
      if dist <? lit_1e15 then Ok (zero, zero)
      else Ok (dx / dist, dy / dist)
  | _, _ => Throw TypeError
  end.

End Configurations.

(* ================================================================== *)
(** * 11. The analysis hook (src/hooks/useAnalysis.ts) *)
(* ================================================================== *)

(** What the effect of [useAnalysis] computes for a configuration once
    it is loaded, the value it hands to [setData]; an exception is
    what it hands to [setError].  The scheduling of the effect and its
    [loading] and [cancelled] flags are left out. *)
Module Hook.

Local Abbreviation outcome := result (only parsing).

Record ExtendedAnalysis (num : Type) : Type := {
  result : AnalysisResult num;
  perimeterCenters : num;
  contactMatrix : Matrix num;
  projectedGradient : list num;
  isCritical : bool
}.

Section Effect.
Context {num : Type} {N : Number num}.
Local Open Scope num_scope.

(** [projGrad[k]] after the inner loop: [R[i]] is read for every
    [i < grad.length]. *)
Fixpoint projected_entry (R : Matrix num) (grad : list num) (k : nat)
  (indices : list nat) (acc : num) : outcome num :=
  match indices with
  | [] => Ok acc
  | i :: rest =>
      match nth_error R i with
      | None => Throw TypeError
      | Some row =>
          projected_entry R grad k rest
            (acc + array_get row k * array_get grad i)
      end
  end.

Fixpoint projected_entries (R : Matrix num) (grad : list num)
  (columns : list nat) : outcome (list num) :=
  match columns with
  | [] => Ok []
  | k :: rest =>
      let* v := projected_entry R grad k (range (List.length grad)) zero in
      let* vs := projected_entries R grad rest in
      Ok (v :: vs)
  end.

Definition extendedAnalysis (la : LinAlg num) (config : Configuration num)
  : outcome (ExtendedAnalysis num) :=
  let* result := analyzeConfiguration la config in
  let perimCenters := perimeterOfCenters la config in
  let* contactMatrix := buildContactMatrix config in
  let R := result.(constraints).(rollingMatrix) in
  let grad := result.(perimeterResult).(gradient) in
  let d := match R with [] => O | row0 :: _ => List.length row0 end in
  let* projGrad := projected_entries R grad (range d) in
  let isCritical := forallb (fun v => absn v <? lit_1e8) projGrad in
  Ok {| result := result;
        perimeterCenters := perimCenters;
        contactMatrix := contactMatrix;
        projectedGradient := projGrad;
        isCritical := isCritical |}.

End Effect.
End Hook.

(* ================================================================== *)
(** * 12. The two arithmetics *)
(* ================================================================== *)

(** ** 12.1 IEEE-754 binary64, the arithmetic of the program *)

Module Float64.

Local Open Scope float_scope.

(** [Math.max(a, b)]: NaN when an argument is NaN, and [+0] above [-0]. *)
Definition max (a b : float) : float :=
  if PrimFloat.is_nan a || PrimFloat.is_nan b then nan
  else if a <? b then b
  else if b <? a then a
  else match PrimFloat.classify a with
       | NZero => b
       | _ => a
       end.

Definition to_boolean (v : float) : bool :=
  negb (PrimFloat.is_nan v) && negb (v =? 0).

Definition of_length (k : nat) : float :=
  PrimFloat.of_uint63 (Uint63.of_Z (Z.of_nat k)).

#[export] Instance number : Number float := {|
  zero := 0;
  one := 1;
  two := 2;
  add := PrimFloat.add;
  sub := PrimFloat.sub;
  mul := PrimFloat.mul;
  div := PrimFloat.div;
  neg := PrimFloat.opp;
  sqrt := PrimFloat.sqrt;
  absn := PrimFloat.abs;
  maxn := max;
  ltb := PrimFloat.ltb;
  truthy := to_boolean;
  isFinite := PrimFloat.is_finite;
  of_nat := of_length;
  PI := 0x1.921fb54442d18p+1;
  undef := nan;
  neg_infinity := PrimFloat.neg_infinity;
  lit_1e15 := 1e-15;
  lit_1e12 := 1e-12;
  lit_1e10 := 1e-10;
  lit_1e8 := 1e-8;
  lit_1e6 := 1e-6
|}.

End Float64.

(** ** 12.2 Real arithmetic *)

Module Exact.

Local Open Scope R_scope.

Definition Rltb (a b : R) : bool := if Rlt_dec a b then true else false.
Definition Rtruthy (v : R) : bool := if Req_dec_T v 0 then false else true.

(** There is no NaN and no infinity here: [undef] and [neg_infinity],
    which the services read in an array hole and in an empty maximum,
    are 0. *)
#[export] Instance number : Number R := {|
  zero := 0;
  one := 1;
  two := 2;
  add := Rplus;
  sub := Rminus;
  mul := Rmult;
  div := Rdiv;
  neg := Ropp;
  sqrt := R_sqrt.sqrt;
  absn := Rabs;
  maxn := Rmax;
  ltb := Rltb;
  truthy := Rtruthy;
  isFinite := fun _ => true;
  of_nat := INR;
  PI := Rtrigo1.PI;
  undef := 0;
  neg_infinity := 0;
  lit_1e15 := 1e-15;
  lit_1e12 := 1e-12;
  lit_1e10 := 1e-10;
  lit_1e8 := 1e-8;
  lit_1e6 := 1e-6
|}.

End Exact.

Import Float64 Exact.

(** ** 12.3 [Math.round] in the two arithmetics *)

Module Float64Round.

Local Open Scope float_scope.

Definition two52 : float := 0x1p52.

(** The integer nearest to [x], for [|x| < 2^52]: adding 2^52 rounds
    the fraction away. *)
Definition nearest_integer (x : float) : float :=
  if 0 <=? x then (x + two52) - two52 else (x - two52) + two52.

Definition floor (x : float) : float :=
  let t := nearest_integer x in
  if x <? t then t - 1 else t.

(** [Math.round(x)]: the integer nearest to [x], the one above it when
    two are as near; the sign of [x] is kept in a result that is 0.
    From 2^52 on every number is an integer. *)
Definition math_round (x : float) : float :=
  if PrimFloat.is_nan x then x
  else if two52 <=? PrimFloat.abs x then x
  else
    let f := floor x in
    let r := if 0.5 <=? x - f then f + 1 else f in
    if r =? 0 then (if PrimFloat.get_sign x then -0 else 0) else r.

#[export] Instance rounding : Rounding float := {| round := math_round |}.

End Float64Round.

Module ExactRound.

Local Open Scope R_scope.

Definition math_round (x : R) : R := IZR (Zfloor (x + / 2)).

#[export] Instance rounding : Rounding R := {| round := math_round |}.

End ExactRound.

Import Float64Round ExactRound.

(* ================================================================== *)
(** * 13. Concrete configurations (binary64) *)
(* ================================================================== *)

Module Scenario.

Local Open Scope float_scope.

(** A library stand-in that returns empty decompositions; it is used
    where the result does not depend on the library at all. *)
Definition no_library : LinAlg float :=
  {| EigenvalueDecomposition :=
       fun _ => {| realEigenvalues := []; eigenvectorMatrix := [] |};
     SVD :=
       fun _ => {| leftSingularVectors := []; diagonal := [];
                   rightSingularVectors := [] |} |}.

(** Two unit disks in contact, centres (-1, 0) and (1, 0). *)
Definition two_disks : Configuration float :=
  {| n := 2; positions := [(-1, 0); (1, 0)]; radii := [1; 1];
     contacts := [(0, 1)%Z]; latticeContacts := []; latticeShifts := [] |}.

(** Two unit disks that do not touch, and no contact. *)
Definition two_free_disks : Configuration float :=
  {| n := 2; positions := [(0, 0); (3, 0)]; radii := [1; 1];
     contacts := []; latticeContacts := []; latticeShifts := [] |}.

(** Two distinct centres closer than 1e-15. *)
Definition two_close_disks : Configuration float :=
  {| n := 2; positions := [(0, 0); (1e-16, 0)]; radii := [1; 1];
     contacts := []; latticeContacts := []; latticeShifts := [] |}.

(** Three unit disks in mutual contact: an equilateral triangle of
    side 2. *)
Definition triangle : Configuration float :=
  {| n := 3;
     positions := [(0, 0); (2, 0); (1, PrimFloat.sqrt 3)];
     radii := [1; 1; 1];
     contacts := [(0, 1)%Z; (1, 2)%Z; (0, 2)%Z];
     latticeContacts := []; latticeShifts := [] |}.

(** A self-loop at disk 1. *)
Definition with_self_loop : Configuration float :=
  {| n := 3; positions := []; radii := [];
     contacts := [(0, 1); (1, 1)]%Z;
     latticeContacts := []; latticeShifts := [] |}.

(** Two pairs of disks apart from each other. *)
Definition two_components : Configuration float :=
  {| n := 4; positions := []; radii := [];
     contacts := [(0, 1); (2, 3)]%Z;
     latticeContacts := []; latticeShifts := [] |}.

(** Three centres on the line y = 3 x, a thousand million away from
    the origin; their coordinates are integers, which binary64 holds
    exactly. *)
Definition far_line : Configuration float :=
  {| n := 3;
     positions := [(1000000000, 3000000000); (1000000001, 3000000003);
                   (1000000003, 3000000009)];
     radii := [1; 1; 1];
     contacts := []; latticeContacts := []; latticeShifts := [] |}.

(** An SVD that answers with the singular values of the centred data
    of [far_line], rounded. *)
Definition far_line_svd : LinAlg float :=
  {| EigenvalueDecomposition :=
       fun _ => {| realEigenvalues := []; eigenvectorMatrix := [] |};
     SVD :=
       fun _ => {| leftSingularVectors := [];
                   diagonal := [6.831300510639732; 6.5e-8];
                   rightSingularVectors := [] |} |}.

(** A solver for the matrices that are solved at sight: the
    eigenvalues of a diagonal matrix are its diagonal, with the unit
    vectors for eigenvectors, and a matrix of one column has one
    singular value, the length of the column. *)
Definition diagonal_solver : LinAlg float :=
  {| EigenvalueDecomposition := fun M =>
       let k := List.length M in
       {| realEigenvalues := map (fun i => mat_get M i i) (range k);
          eigenvectorMatrix :=
            map (fun i => map (fun j => if (i =? j)%nat then 1 else 0)
                              (range k))
                (range k) |};
     SVD := fun M =>
       let s := PrimFloat.sqrt
                  (fold_left (fun acc row =>
                                acc + array_get row 0 * array_get row 0)
                             M 0) in
       {| leftSingularVectors := map (fun row => [array_get row 0 / s]) M;
          diagonal := [s];
          rightSingularVectors := [[1]] |} |}.

(** A rolling matrix for two disks: the first moves along y, the
    second along x. *)
Definition two_axes : Matrix float := [[0; 0]; [1; 0]; [0; 1]; [0; 0]].

End Scenario.

(* ================================================================== *)
(** * 14. Concrete configurations (exact arithmetic) *)
(* ================================================================== *)

Module ExactScenario.

Local Open Scope R_scope.

(** One disk, free to move in the plane. *)
Definition one_disk : Configuration R :=
  {| n := 1; positions := [(0, 0)]; radii := [1];
     contacts := []; latticeContacts := []; latticeShifts := [] |}.

(** An eigen-solver that answers 3 and -1 whatever it is asked. *)
Definition sample_library : LinAlg R :=
  {| EigenvalueDecomposition :=
       fun _ => {| realEigenvalues := [3; -1];
                   eigenvectorMatrix := [[1; 0]; [0; 1]] |};
     SVD :=
       fun _ => {| leftSingularVectors := []; diagonal := [];
                   rightSingularVectors := [] |} |}.

Definition identity2 : Matrix R := [[1; 0]; [0; 1]].



End ExactScenario.

(* ================================================================== *)
(** * 15. Further configurations *)
(* ================================================================== *)

Module Cases.

Local Open Scope float_scope.


(** A lattice contact that repeats a contact the other way round. *)
Definition duplicate_sample : Configuration float :=
  {| n := 3; positions := []; radii := [];
     contacts := [(0, 1); (1, 2)]%Z; latticeContacts := [(1, 0)]%Z;
     latticeShifts := [] |}.

(** A disk in contact with seven others. *)
Definition seven_neighbours : Configuration float :=
  {| n := 8; positions := []; radii := [];
     contacts := [(0, 1); (0, 2); (0, 3); (0, 4); (0, 5); (0, 6); (0, 7)]%Z;
     latticeContacts := []; latticeShifts := [] |}.

(** The two disks in contact, with a second contact that names a disk
    that is not there. *)
Definition missing_disk : Configuration float :=
  {| n := 2; positions := [(-1, 0); (1, 0)]; radii := [1; 1];
     contacts := [(0, 1); (0, 7)]%Z; latticeContacts := [];
     latticeShifts := [] |}.

(** An eigen-solver that answers, whatever it is asked, with the
    spectrum of [At A] for the two disks in contact: 0 three times,
    and 2. *)
Definition two_disks_library : LinAlg float :=
  {| EigenvalueDecomposition :=
       fun _ => {| realEigenvalues := [0; 0; 0; 2];
                   eigenvectorMatrix :=
                     [[0.7071067811865476; 0; 0; 0.7071067811865476];
                      [0; 1; 0; 0];
                      [0.7071067811865476; 0; 0; -0.7071067811865476];
                      [0; 0; 1; 0]] |};
     SVD :=
       fun _ => {| leftSingularVectors := []; diagonal := [];
                   rightSingularVectors := [] |} |}.

(** One disk of radius 3. *)
Definition lone_disk : Configuration float :=
  {| n := 1; positions := [(5, 7)]; radii := [3];
     contacts := []; latticeContacts := []; latticeShifts := [] |}.

Definition lopsided : Matrix float := [[1; 2]; [4; 8]].

(** A rolling matrix of one column for two disks. *)
Definition one_column : Matrix float := [[1]; [0]; [1]; [0]].

End Cases.

Module ExactCases.

Local Open Scope R_scope.

(** Two unit disks in contact, in exact arithmetic. *)
Definition two_exact_disks : Configuration R :=
  {| n := 2; positions := [(-1, 0); (1, 0)]; radii := [1; 1];
     contacts := [(0, 1)%Z]; latticeContacts := []; latticeShifts := [] |}.

End ExactCases.

(* ================================================================== *)
(** * 16. Vocabulary of the specification *)
(* ================================================================== *)

Section Vocabulary.
Context {num : Type} {N : Number num}.
Local Open Scope num_scope.

(** Every contact index is in [0, n). *)
Definition in_range (n : nat) (cs : list Contact) : Prop :=
  Forall (fun c => (0 <= fst c < Z.of_nat n)%Z /\ (0 <= snd c < Z.of_nat n)%Z)
         cs.

(** The invariant of the data model that the constraint builder relies
    on: one centre per disk, and contact indices that name disks. *)
Definition well_formed (config : Configuration num) : Prop :=
  List.length config.(positions) = config.(n) /\
  in_range config.(n) config.(contacts).

Definition centre (positions : list (num * num)) (i : Z) : num * num :=
  hull_point positions (Z.to_nat i).

(** The distance between the two centres of a contact, as the builder
    computes it. *)
Definition centre_distance (positions : list (num * num)) (c : Contact) : num :=
  let pi := centre positions (fst c) in
  let pj := centre positions (snd c) in
  let dx := fst pj - fst pi in
  let dy := snd pj - snd pi in
  sqrt (dx * dx + dy * dy).

(** The direction from the first centre of a contact to the second:
    their difference divided by their distance. *)
Definition direction (positions : list (num * num)) (c : Contact) : num * num :=
  let pi := centre positions (fst c) in
  let pj := centre positions (snd c) in
  ((fst pj - fst pi) / centre_distance positions c,
   (snd pj - snd pi) / centre_distance positions c).

Definition coincident (positions : list (num * num)) (c : Contact) : Prop :=
  (centre_distance positions c <? lit_1e15) = true.

(** The row [buildContactMatrix] pushes for a contact [(i, j)] of
    direction [u]. *)
Definition contact_row_of (cols : nat) (i j : Z) (u : num * num) : list num :=
  let row := repeat zero cols in
  let row := array_set row (Z.to_nat (2 * i)) (- fst u) in
  let row := array_set row (Z.to_nat (2 * i + 1)) (- snd u) in
  let row := array_set row (Z.to_nat (2 * j)) (fst u) in
  array_set row (Z.to_nat (2 * j + 1)) (snd u).

End Vocabulary.

(** ** Order *)

Section OrderVocabulary.
Context {num : Type} {N : Number num}.
Local Open Scope num_scope.

(** The facts about [<] and [-] that sorting by [(a, b) => x[a] - x[b]]
    rests on, for the numbers that satisfy [ordinary] (in binary64 the
    numbers other than NaN; every real number). *)
Class OrderLaws (ordinary : num -> Prop) : Prop := {
  ordinary_zero : ordinary zero;
  ltb_asym : forall a b, ordinary a -> ordinary b ->
    (a <? b) = true -> (b <? a) = false;
  ltb_negtrans : forall a b c, ordinary a -> ordinary b -> ordinary c ->
    (a <? b) = false -> (b <? c) = false -> (a <? c) = false;
  sub_negative : forall a b, ordinary a -> ordinary b ->
    (a - b <? zero) = (a <? b)
}.

(** No element is smaller than an earlier one. *)
Definition ascending (l : list num) : Prop :=
  StronglySorted (fun a b => (b <? a) = false) l.

End OrderVocabulary.

(** ** Exact geometry *)

Section ExactVocabulary.
Local Open Scope R_scope.

(** All the points lie on one line [a x + b y = c]. *)
Definition on_a_line (points : list (R * R)) : Prop :=
  exists a b c, (a <> 0 \/ b <> 0) /\
    forall p, In p points -> a * fst p + b * snd p = c.

(** The entries of [Mt M] for a matrix [M] of two columns. *)
Definition gram (M : Matrix R) : R * R * R :=
  fold_left (fun '(g11, g12, g22) row =>
               let x := array_get row 0 in
               let y := array_get row 1 in
               (g11 + x * x, g12 + x * y, g22 + y * y))
            M (0, 0, 0).

(** What an SVD promises for a matrix of two columns: its two leading
    singular values are the square roots of the eigenvalues of [Mt M],
    the larger first. *)
Definition singular_values (M : Matrix R) (s : list R) : Prop :=
  match s with
  | s0 :: s1 :: _ =>
      let '(g11, g12, g22) := gram M in
      0 <= s1 <= s0 /\
      s0 * s0 + s1 * s1 = g11 + g22 /\
      (s0 * s0) * (s1 * s1) = g11 * g22 - g12 * g12
  | _ => False
  end.

(** The Euclidean distance between two points of the plane. *)
Definition distance (p q : R * R) : R :=
  dist_euc (fst p) (snd p) (fst q) (snd q).

(** The sum of products of a row with a vector. *)
Definition dot (a b : list R) : R := dot_from (0 : R) a b.

(** The real number a binary64 number stands for; 0 for the values
    that stand for none (NaN and the infinities). *)
Definition SF2R (x : spec_float) : R :=
  match x with
  | S754_finite s m e => IZR (cond_Zopp s (Zpos m)) * powerRZ 2 e
  | _ => 0
  end.

Definition F2R (x : float) : R := SF2R (Prim2SF x).

Definition exact_points (points : list (float * float)) : list (R * R) :=
  map (fun p => (F2R (fst p), F2R (snd p))) points.

Definition exact_matrix (M : Matrix float) : Matrix R := map (map F2R) M.

(** An SVD that, for a matrix of two columns, returns the second
    singular value within a factor of 2. *)
Definition second_singular_value_within_factor_two (la : LinAlg float)
  (M : Matrix float) : Prop :=
  exists s0 s1,
    singular_values (exact_matrix M) [s0; s1] /\
    s1 / 2 <= F2R (array_get (la.(SVD) M).(diagonal) 1) <= 2 * s1.

(** A velocity per disk, laid out as the columns of the contact
    matrix are: x then y, disk after disk. *)
Definition flatten (vs : list (R * R)) : list R :=
  flat_map (fun v => [fst v; snd v]) vs.

End ExactVocabulary.

(** ** The contact graph *)

(** The contacts the validator reads: [[...contacts, ...latticeContacts]]. *)
Definition all_contacts {num} (config : Configuration num) : list Contact :=
  config.(contacts) ++ config.(latticeContacts).

Definition adjacent (cs : list Contact) (u v : Z) : Prop :=
  In (u, v) cs \/ In (v, u) cs.

Definition reachable (cs : list Contact) : Z -> Z -> Prop :=
  clos_refl_trans Z (adjacent cs).

(** Every disk can be reached from disk 0. *)
Definition connected (n : nat) (cs : list Contact) : Prop :=
  forall v, (0 <= v < Z.of_nat n)%Z -> reachable cs 0%Z v.

Definition no_self_loops (cs : list Contact) : Prop :=
  Forall (fun c => fst c <> snd c) cs.

Definition undirected (c : Contact) : Contact :=
  (Z.min (fst c) (snd c), Z.max (fst c) (snd c)).

Definition no_duplicate_edges (cs : list Contact) : Prop :=
  NoDup (map undirected cs).

(** The number of contact ends at [v]. *)
Definition degree (cs : list Contact) (v : Z) : nat :=
  (List.length (filter (fun c => fst c =? v)%Z cs)
   + List.length (filter (fun c => snd c =? v)%Z cs))%nat.



(** ** Notions used in the proofs about the validator *)

(** A string without the separator of the edge keys. *)
Fixpoint no_dash (s : string) : Prop :=
  match s with
  | EmptyString => True
  | String c r => c <> "-"%char /\ no_dash r
  end.

(** The key of an ordered pair. *)
Definition pair_key (c : Contact) : string :=
  (js_string_of_Z (fst c) ++ "-" ++ js_string_of_Z (snd c))%string.

(** [adj.get(u) || []]. *)
Definition neighbours (adj : Graph.AdjMap) (u : Z) : list Z :=
  match Graph.adj_get adj u with Some s => s | None => [] end.

(** Disk 0 and the two ends of every contact. *)
Definition endpoints (cs : list Contact) : list Z := 0%Z :: map fst cs ++ map snd cs.

(** The disks 0, ..., n - 1. *)
Definition disks (n : nat) : list Z := map Z.of_nat (seq 0 n).

(** What holds at every turn of the traversal: the nodes visited are
    those already taken off the queue followed by the queue. *)
Record bfs_invariant (n : nat) (cs : list Contact)
  (done queue visited : list Z) : Prop := {
  inv_split : visited = done ++ queue;
  inv_nodup : NoDup visited;
  inv_start : In 0%Z visited;
  inv_closed : forall u, In u done -> forall v, adjacent cs u v -> In v visited;
  inv_sound : forall v, In v visited -> reachable cs 0%Z v;
  inv_range : forall v, In v visited -> (0 <= v < Z.of_nat n)%Z;
  inv_endpoints : incl visited (endpoints cs)
}.

(** ** Notions used in the proofs about binary64 *)

(** The integer a finite number stands for, in units of [2 ^ ez]. *)
Definition aligned (s : bool) (m : positive) (e ez : Z) : Z :=
  cond_Zopp s (Zpos m * 2 ^ (e - ez)).

(** A key that orders the numbers as [SFcompare] does. *)
Definition order_key (x : spec_float) : Z * Z * Z :=
  match x with
  | S754_zero _ => (0, 0, 0)
  | S754_infinity false => (2, 0, 0)
  | S754_infinity true => (-2, 0, 0)
  | S754_nan => (0, 0, 0)
  | S754_finite false m e => (1, e, Zpos m)
  | S754_finite true m e => (-1, - e, - Zpos m)
  end%Z.

Definition lex_lt (a b : Z * Z * Z) : Prop :=
  let '(a1, a2, a3) := a in
  let '(b1, b2, b3) := b in
  (a1 < b1 \/ (a1 = b1 /\ (a2 < b2 \/ (a2 = b2 /\ a3 < b3))))%Z.

(** ** Further notions *)

(** The sum of the entries of a degree array. *)
Definition total (degrees : list Z) : Z := fold_right Z.add 0%Z degrees.

Section ConfigurationVocabulary.
Context {num : Type} {N : Number num} {Rd : Rounding num}.
Local Open Scope num_scope.

(** What [validateContacts] accepts: a contact between two disks of the
    configuration whose centres are as far apart as twice the radius,
    up to the tolerance. *)
Definition touching (positions : list (num * num)) (radius tolerance : num)
  (useTorus : bool) (c : Contact) : bool :=
  let distFn := if useTorus then torusDistance else euclideanDistance in
  let n := Z.of_nat (List.length positions) in
  (0 <=? fst c)%Z && (fst c <? n)%Z && (0 <=? snd c)%Z && (snd c <? n)%Z &&
  negb (absn (distFn (centre positions (fst c)) (centre positions (snd c))
              - (radius + radius)) >? tolerance).

End ConfigurationVocabulary.

Section MotionVocabulary.
Local Open Scope R_scope.

(** A velocity for each centre that, to first order, keeps the
    distance between any two centres. *)
Definition rigid (positions vs : list (R * R)) : Prop :=
  List.length vs = List.length positions /\
  forall a b, (a < List.length vs)%nat -> (b < List.length vs)%nat ->
    let pa := hull_point positions a in
    let pb := hull_point positions b in
    let va := nth a vs (0, 0) in
    let vb := nth b vs (0, 0) in
    (fst pb - fst pa) * (fst vb - fst va) + (snd pb - snd pa) * (snd vb - snd va) = 0.

(** A vector of 2n entries that reads the same at every disk: a
    translation. *)
Definition uniform (n : nat) (t : list R) : Prop :=
  List.length t = (2 * n)%nat /\
  forall u v, (u < n)%nat -> (v < n)%nat ->
    array_get t (2 * u) = array_get t (2 * v) /\
    array_get t (2 * u + 1) = array_get t (2 * v + 1).

(** Row [k] of [H] applied to [t]. *)
Definition row_dot (H : Matrix R) (t : list R) (k : nat) : R := dot (nth k H []) t.

Definition rows_of_width (w : nat) (H : Matrix R) : Prop :=
  Forall (fun row => List.length row = w) H.

(** Every row has 2n entries and vanishes on [t]. *)
Definition balanced (n : nat) (t : list R) (H : Matrix R) : Prop :=
  rows_of_width (2 * n) H /\ forall k, row_dot H t k = 0.

(** [x - Math.round(x)]. *)
Definition wrap (x : R) : R := x - round x.

End MotionVocabulary.

(* ================================================================== *)
(** * 17. Properties of the graph validator *)
(* ================================================================== *)

Module GraphFacts.
Import Graph.
Local Open Scope Z_scope.

(** *** Decimal strings *)


Lemma no_dash_uint (d : Decimal.uint) : no_dash (NilEmpty.string_of_uint d).
Proof.
  induction d; simpl; auto; split; auto; discriminate.
Qed.

Lemma no_dash_nonneg (z : Z) : 0 <= z -> no_dash (js_string_of_Z z).
Proof.
  intros Hz. unfold js_string_of_Z.
  destruct z as [| p | p]; try lia; simpl.
  - split; [discriminate | exact I].
  - unfold NilZero.string_of_uint.
    destruct (Pos.to_uint p) eqn:E; try apply no_dash_uint.
    simpl. split; [discriminate | exact I].
Qed.

Lemma js_string_of_Z_inj (a b : Z) :
  js_string_of_Z a = js_string_of_Z b -> a = b.
Proof.
  unfold js_string_of_Z. intros H.
  assert (Hn : forall z, Z.to_int z <> Decimal.Pos Decimal.Nil /\
                         Z.to_int z <> Decimal.Neg Decimal.Nil).
  { intros [| p | p]; simpl; split; try discriminate;
      intros [= E]; apply (DecimalPos.Unsigned.to_uint_nonnil p); exact E. }
  assert (E : Some (Z.to_int a) = Some (Z.to_int b)).
  { rewrite <- (NilZero.isi (Z.to_int a) (proj1 (Hn a)) (proj2 (Hn a))).
    rewrite <- (NilZero.isi (Z.to_int b) (proj1 (Hn b)) (proj2 (Hn b))).
    now rewrite H. }
  injection E as E.
  rewrite <- (DecimalZ.of_to a), <- (DecimalZ.of_to b). now rewrite E.
Qed.

Lemma dash_split_unique (s1 s2 t1 t2 : string) :
  no_dash s1 -> no_dash s2 ->
  (s1 ++ "-" ++ t1)%string = (s2 ++ "-" ++ t2)%string ->
  s1 = s2 /\ t1 = t2.
Proof.
  revert s2. induction s1 as [| c s1 IH]; intros [| c2 s2] H1 H2 E; simpl in *.
  - injection E as E. auto.
  - injection E as Ec _. destruct H2 as [H2 _]. congruence.
  - injection E as Ec _. destruct H1 as [H1 _]. congruence.
  - injection E as Ec E. destruct H1 as [_ H1], H2 as [_ H2].
    destruct (IH s2 H1 H2 E) as [-> ->]. subst. auto.
Qed.


(** The key of a contact is the key of its undirected pair. *)
Lemma edge_key_undirected (c : Contact) : edge_key c = pair_key (undirected c).
Proof.
  destruct c as [u v]. unfold edge_key, pair_key, undirected. simpl.
  destruct (Z.ltb_spec u v).
  - rewrite Z.min_l, Z.max_r by lia. reflexivity.
  - rewrite Z.min_r, Z.max_l by lia. reflexivity.
Qed.

Lemma pair_key_inj (c d : Contact) :
  0 <= fst c -> 0 <= fst d -> pair_key c = pair_key d -> c = d.
Proof.
  destruct c as [a b], d as [a' b']. unfold pair_key. simpl. intros Ha Ha' E.
  apply dash_split_unique in E; try (apply no_dash_nonneg; assumption).
  destruct E as [E1 E2].
  apply js_string_of_Z_inj in E1. apply js_string_of_Z_inj in E2. congruence.
Qed.

Lemma existsb_string_In (k : string) (l : list string) :
  existsb (String.eqb k) l = true <-> In k l.
Proof.
  rewrite existsb_exists. split.
  - intros (x & Hin & E). apply String.eqb_eq in E. now subst.
  - intros H. exists k. split; auto. apply String.eqb_refl.
Qed.

Lemma find_duplicate_none (edgeSet : list string) (cs : list Contact) :
  find_duplicate edgeSet cs = None <-> 
  (NoDup (map edge_key cs) /\ forall c, In c cs -> ~ In (edge_key c) edgeSet).
Proof.
  revert edgeSet. induction cs as [| c cs IH]; intros edgeSet; simpl.
  - split; [intros _; split; [constructor | tauto] | reflexivity].
  - destruct (existsb (String.eqb (edge_key c)) edgeSet) eqn:E.
    + apply existsb_string_In in E. split; [discriminate |].
      intros [_ H]. exfalso. apply (H c); auto.
    + assert (Hc : ~ In (edge_key c) edgeSet).
      { rewrite <- existsb_string_In. congruence. }
      rewrite IH. split.
      * intros [Hnd Hdis]. split.
        -- constructor; auto. intros Hin. apply in_map_iff in Hin.
           destruct Hin as (d & Hd & Hin). apply (Hdis d Hin).
           rewrite Hd. apply in_or_app. right. left. reflexivity.
        -- intros d [<- | Hin]; auto. intros H. apply (Hdis d Hin).
           apply in_or_app. left. exact H.
      * intros [Hnd Hdis]. inversion Hnd as [| ? ? Hnotin Hnd']; subst. split; auto.
        intros d Hin H. apply in_app_or in H. destruct H as [H | [H | []]].
        -- apply (Hdis d); auto.
        -- apply Hnotin. rewrite H. apply in_map. exact Hin.
Qed.

Lemma NoDup_map_inj_on {A B} (f : A -> B) (l : list A) :
  (forall x y, In x l -> In y l -> f x = f y -> x = y) ->
  NoDup l -> NoDup (map f l).
Proof.
  induction l as [| a l IH]; intros Hinj Hnd; simpl; [constructor |].
  inversion Hnd as [| ? ? Hnotin Hnd']; subst. constructor.
  - intros Hin. apply in_map_iff in Hin. destruct Hin as (x & Hx & Hin).
    apply Hinj in Hx; [| right; auto | left; auto]. subst. contradiction.
  - apply IH; auto. intros x y Hx Hy. apply Hinj; right; auto.
Qed.

Lemma undirected_nonneg (n : nat) (cs : list Contact) (c : Contact) :
  in_range n cs -> In c cs -> 0 <= fst (undirected c).
Proof.
  intros Hr Hin. unfold in_range in Hr. rewrite Forall_forall in Hr.
  destruct (Hr c Hin) as [H1 H2]. unfold undirected. simpl. lia.
Qed.

Lemma find_duplicate_spec (n : nat) (cs : list Contact) :
  in_range n cs ->
  (find_duplicate [] cs = None <-> no_duplicate_edges cs).
Proof.
  intros Hr. rewrite find_duplicate_none. unfold no_duplicate_edges.
  assert (Hmap : map edge_key cs = map pair_key (map undirected cs)).
  { rewrite map_map. apply map_ext. intros c. apply edge_key_undirected. }
  rewrite Hmap. split.
  - intros [H _]. eapply NoDup_map_inv; eauto.
  - intros H. split; [| intros c _ []].
    apply NoDup_map_inj_on; auto.
    intros x y Hx Hy. apply in_map_iff in Hx, Hy.
    destruct Hx as (c & <- & Hc), Hy as (d & <- & Hd).
    apply pair_key_inj; eapply undirected_nonneg; eauto.
Qed.

Lemma find_out_of_range_none (n : nat) (cs : list Contact) :
  find (out_of_range (Z.of_nat n)) cs = None <-> in_range n cs.
Proof.
  unfold in_range. rewrite Forall_forall. split.
  - intros H c Hin. pose proof (find_none _ _ H c Hin) as E.
    destruct c as [u v]. unfold out_of_range in E. simpl. 
    repeat (apply orb_false_elim in E; destruct E as [E ?]). lia.
  - intros H. destruct (find _ cs) as [c |] eqn:E; auto.
    apply find_some in E. destruct E as [Hin E]. specialize (H c Hin).
    destruct c as [u v]. unfold out_of_range in E. simpl in H.
    repeat (apply orb_true_elim in E; destruct E as [E | E]); lia.
Qed.

Lemma find_self_loop_none (cs : list Contact) :
  find is_self_loop cs = None <-> no_self_loops cs.
Proof.
  unfold no_self_loops. rewrite Forall_forall. split.
  - intros H c Hin. pose proof (find_none _ _ H c Hin) as E.
    destruct c as [u v]. unfold is_self_loop in E. simpl. lia.
  - intros H. destruct (find _ cs) as [c |] eqn:E; auto.
    apply find_some in E. destruct E as [Hin E]. specialize (H c Hin).
    destruct c as [u v]. unfold is_self_loop in E. simpl in H. lia.
Qed.

(** *** The adjacency map *)

Lemma zmem_In (x : Z) (s : list Z) : zmem x s = true <-> In x s.
Proof.
  unfold zmem. rewrite existsb_exists. split.
  - intros (y & Hin & E). apply Z.eqb_eq in E. now subst.
  - intros H. exists x. split; auto. apply Z.eqb_refl.
Qed.

Lemma zadd_In (x v : Z) (s : list Z) : In x (zadd v s) <-> x = v \/ In x s.
Proof.
  unfold zadd. destruct (zmem v s) eqn:E.
  - apply zmem_In in E. split; [auto | intros [-> | H]; auto].
  - rewrite in_app_iff. simpl. intuition.
Qed.


Lemma adj_get_add (adj : AdjMap) (u v k : Z) :
  adj_get (adj_add adj u v) k =
  if k =? u then option_map (zadd v) (adj_get adj k) else adj_get adj k.
Proof.
  induction adj as [| [k' s] rest IH]; simpl.
  - destruct (k =? u); reflexivity.
  - destruct (Z.eqb_spec u k') as [-> | Hne]; simpl.
    + destruct (Z.eqb_spec k k'); reflexivity.
    + destruct (Z.eqb_spec k k') as [-> | Hne'].
      * destruct (Z.eqb_spec k' u); [congruence | reflexivity].
      * exact IH.
Qed.

Lemma adj_get_initial (n : nat) (k : Z) :
  adj_get (map (fun i => (Z.of_nat i, @nil Z)) (range n)) k =
  if (0 <=? k) && (k <? Z.of_nat n) then Some [] else None.
Proof.
  unfold range.
  assert (H : forall a, adj_get (map (fun i => (Z.of_nat i, @nil Z)) (seq a n)) k =
            if (Z.of_nat a <=? k) && (k <? Z.of_nat (a + n)) then Some [] else None).
  { induction n as [| n IH]; intros a; simpl.
    - destruct (Z.leb_spec (Z.of_nat a) k), (Z.ltb_spec k (Z.of_nat (a + 0))); simpl; auto; lia.
    - rewrite IH. destruct (Z.eqb_spec k (Z.of_nat a)).
      + destruct (Z.leb_spec (Z.of_nat a) k), (Z.ltb_spec k (Z.of_nat (a + S n))); simpl; auto; lia.
      + destruct (Z.leb_spec (Z.of_nat (S a)) k), (Z.leb_spec (Z.of_nat a) k),
          (Z.ltb_spec k (Z.of_nat (S a + n))), (Z.ltb_spec k (Z.of_nat (a + S n)));
          simpl; auto; lia. }
  apply (H O).
Qed.

(** In the map built from [cs], a disk of [0, n) has as neighbours the
    disks it shares a contact with, and no other number is a key. *)
Lemma buildAdjacencyList_spec (n : nat) (cs : list Contact) (u : Z) :
  (0 <= u < Z.of_nat n ->
   exists s, adj_get (buildAdjacencyList n cs) u = Some s /\
             forall v, In v s <-> adjacent cs u v) /\
  (~ (0 <= u < Z.of_nat n) -> adj_get (buildAdjacencyList n cs) u = None).
Proof.
  unfold buildAdjacencyList.
  set (adj0 := map (fun i => (Z.of_nat i, @nil Z)) (range n)).
  assert (H : forall adj (P : Z -> Prop),
    ((0 <= u < Z.of_nat n ->
      exists s, adj_get adj u = Some s /\ forall v, In v s <-> P v) /\
     (~ (0 <= u < Z.of_nat n) -> adj_get adj u = None)) ->
    ((0 <= u < Z.of_nat n ->
      exists s, adj_get (fold_left (fun adj '(u, v) => adj_add (adj_add adj u v) v u) cs adj) u = Some s /\
                forall v, In v s <-> P v \/ adjacent cs u v) /\
     (~ (0 <= u < Z.of_nat n) ->
      adj_get (fold_left (fun adj '(u, v) => adj_add (adj_add adj u v) v u) cs adj) u = None))).
  { induction cs as [| [a b] cs IH]; intros adj P Hadj; simpl.
    - destruct Hadj as [Hin Hout]. split; auto.
      intros Hu. destruct (Hin Hu) as (s & Hs & Hmem). exists s. split; auto.
      intros v. rewrite Hmem. unfold adjacent. simpl. tauto.
    - destruct Hadj as [Hin Hout].
      destruct (IH (adj_add (adj_add adj a b) b a)
                  (fun v => P v \/ adjacent [(a, b)] u v)) as [IH1 IH2].
      + split.
        * intros Hu. destruct (Hin Hu) as (s & Hs & Hmem).
          rewrite !adj_get_add, Hs.
          destruct (Z.eqb_spec u b) as [Eb | Hb], (Z.eqb_spec u a) as [Ea | Ha];
            simpl; eexists; (split; [reflexivity |]); intros v;
            rewrite ?zadd_In, Hmem; unfold adjacent; simpl;
            intuition (try congruence); subst; auto.
        * intros Hu. rewrite !adj_get_add, (Hout Hu).
          destruct (u =? b), (u =? a); reflexivity.
      + split; auto. intros Hu. destruct (IH1 Hu) as (s & Hs & Hmem).
        exists s. split; auto. intros v. rewrite Hmem. unfold adjacent. simpl.
        intuition. }
  specialize (H adj0 (fun _ => False)). destruct H as [H1 H2].
  - unfold adj0. split.
    + intros Hu. exists []. rewrite adj_get_initial.
      destruct (Z.leb_spec 0 u), (Z.ltb_spec u (Z.of_nat n)); try lia. simpl.
      split; auto. intros v. simpl. tauto.
    + intros Hu. rewrite adj_get_initial.
      destruct (Z.leb_spec 0 u), (Z.ltb_spec u (Z.of_nat n)); simpl; auto; lia.
  - split; auto. intros Hu. destruct (H1 Hu) as (s & Hs & Hmem).
    exists s. split; auto. intros v. rewrite Hmem. tauto.
Qed.

(** *** The traversal *)

Lemma visit_spec (nbrs visited queue : list Z) :
  exists new,
    visit nbrs visited queue = (visited ++ new, queue ++ new) /\
    (forall x, In x new -> In x nbrs /\ ~ In x visited) /\
    (forall x, In x nbrs -> In x visited \/ In x new) /\
    (NoDup visited -> NoDup (visited ++ new)).
Proof.
  revert visited queue. induction nbrs as [| nb rest IH]; intros visited queue; simpl.
  - exists []. rewrite !app_nil_r.
    split; [reflexivity | split; [intros x [] | split; [intros x [] | auto]]].
  - destruct (zmem nb visited) eqn:E.
    + apply zmem_In in E. destruct (IH visited queue) as (new & Hv & H1 & H2 & H3).
      exists new. split; [exact Hv | split; [| split; [| exact H3]]].
      * intros x Hx. destruct (H1 x Hx). auto.
      * intros x [<- | Hx]; auto.
    + assert (Hnb : ~ In nb visited) by (rewrite <- zmem_In; congruence).
      destruct (IH (visited ++ [nb]) (queue ++ [nb])) as (new & Hv & H1 & H2 & H3).
      exists (nb :: new). rewrite Hv, <- !app_assoc. simpl.
      split; [reflexivity | split; [| split]].
      * intros x [<- | Hx]; [auto |]. destruct (H1 x Hx) as [Ha Hb].
        split; [auto |]. intros Hin. apply Hb. apply in_or_app. auto.
      * intros x [<- | Hx]; [right; left; reflexivity |].
        destruct (H2 x Hx) as [Hin | Hin]; [| right; right; exact Hin].
        apply in_app_or in Hin. destruct Hin as [Hin | [<- | []]]; auto.
      * intros Hnd.
        replace (visited ++ nb :: new) with ((visited ++ [nb]) ++ new)
          by (rewrite <- app_assoc; reflexivity).
        apply H3. apply NoDup_app; [exact Hnd | repeat constructor; auto |].
        intros x Hx [<- | []]. contradiction.
Qed.

Section Traversal.
Variable n : nat.
Variable cs : list Contact.
Hypothesis n_pos : (0 < n)%nat.
Hypothesis cs_in_range : in_range n cs.

Let adj := buildAdjacencyList n cs.

Lemma neighbours_adjacent (u v : Z) :
  0 <= u < Z.of_nat n -> (In v (neighbours adj u) <-> adjacent cs u v).
Proof.
  intros Hu. unfold neighbours.
  destruct (proj1 (buildAdjacencyList_spec n cs u) Hu) as (s & Hs & Hmem).
  fold adj in Hs. rewrite Hs. apply Hmem.
Qed.

Lemma adjacent_in_range (u v : Z) :
  adjacent cs u v -> 0 <= u < Z.of_nat n /\ 0 <= v < Z.of_nat n.
Proof.
  unfold in_range in cs_in_range. rewrite Forall_forall in cs_in_range.
  intros [H | H]; apply cs_in_range in H; simpl in H; tauto.
Qed.


Lemma adjacent_endpoint (u v : Z) : adjacent cs u v -> In v (endpoints cs).
Proof.
  unfold endpoints. intros [H | H]; right; apply in_or_app.
  - right. apply in_map_iff. exists (u, v). auto.
  - left. apply in_map_iff. exists (v, u). auto.
Qed.


Lemma bfs_invariant_step (done rest visited : list Z) (node : Z) :
  bfs_invariant n cs done (node :: rest) visited ->
  let '(visited', queue') := visit (neighbours adj node) visited rest in
  bfs_invariant n cs (done ++ [node]) queue' visited'.
Proof.
  intros [Hs Hnd H0 Hcl Hso Hr He].
  destruct (visit_spec (neighbours adj node) visited rest)
    as (new & -> & H1 & H2 & H3).
  assert (Hnode : In node visited).
  { rewrite Hs. apply in_or_app. right. left. reflexivity. }
  assert (Hnode_r := Hr _ Hnode).
  split.
  - rewrite Hs, <- !app_assoc. reflexivity.
  - auto.
  - apply in_or_app. auto.
  - intros u Hu v Huv. apply in_app_or in Hu. destruct Hu as [Hu | [<- | []]].
    + apply in_or_app. left. eapply Hcl; eauto.
    + apply in_or_app. apply H2. apply neighbours_adjacent; auto.
  - intros v Hv. apply in_app_or in Hv. destruct Hv as [Hv | Hv]; auto.
    apply H1 in Hv. destruct Hv as [Hv _].
    apply neighbours_adjacent in Hv; auto.
    eapply rt_trans; [apply Hso; exact Hnode | apply rt_step; exact Hv].
  - intros v Hv. apply in_app_or in Hv. destruct Hv as [Hv | Hv]; auto.
    apply H1 in Hv. destruct Hv as [Hv _].
    apply neighbours_adjacent in Hv; auto.
    apply adjacent_in_range in Hv. tauto.
  - intros v Hv. apply in_app_or in Hv. destruct Hv as [Hv | Hv]; auto.
    apply H1 in Hv. destruct Hv as [Hv _].
    apply neighbours_adjacent in Hv; auto.
    eapply adjacent_endpoint; eauto.
Qed.

Lemma bfs_invariant_exhausted (done visited : list Z) :
  bfs_invariant n cs done [] visited ->
  NoDup visited /\ forall v, In v visited <-> reachable cs 0 v.
Proof.
  intros [Hs Hnd H0 Hcl Hso Hr He]. rewrite app_nil_r in Hs. subst done.
  split; auto. intros v. split; auto.
  intros Hv. apply clos_rt_rtn1 in Hv.
  induction Hv as [| y z Hyz _ IH]; auto.
  eapply Hcl; eauto.
Qed.

(** The loop ends before the fuel does: a turn moves one node from the
    queue to the nodes done, and these are distinct end points. *)
Lemma bfs_fuel_enough (fuel : nat) (done queue visited : list Z) :
  bfs_invariant n cs done queue visited ->
  (List.length (endpoints cs) - List.length done < fuel)%nat ->
  NoDup (bfs fuel adj visited queue) /\
  forall v, In v (bfs fuel adj visited queue) <-> reachable cs 0 v.
Proof.
  revert done queue visited.
  induction fuel as [| fuel IH]; intros done queue visited Hinv Hfuel; [lia |].
  destruct queue as [| node rest]; simpl.
  - eapply bfs_invariant_exhausted; eauto.
  - pose proof (bfs_invariant_step Hinv) as Hstep.
    fold (neighbours adj node).
    destruct (visit (neighbours adj node) visited rest) as [visited' queue'].
    apply (IH (done ++ [node])); auto.
    assert (Hle : (List.length visited <= List.length (endpoints cs))%nat).
    { apply NoDup_incl_length; [apply (inv_nodup Hinv) | apply (inv_endpoints Hinv)]. }
    rewrite (inv_split Hinv) in Hle.
    remember (List.length (endpoints cs)) as bound.
    rewrite length_app in Hle |- *. cbn [List.length] in Hle |- *. lia.
Qed.

Lemma bfs_reachable :
  let visited := bfs (bfs_fuel cs) adj [0] [0] in
  NoDup visited /\ forall v, In v visited <-> reachable cs 0 v.
Proof.
  apply (@bfs_fuel_enough (bfs_fuel cs) [] [0] [0]).
  - split.
    + reflexivity.
    + repeat constructor. intros [].
    + left. reflexivity.
    + intros u [].
    + intros v [<- | []]. apply rt_refl.
    + intros v [<- | []]. lia.
    + intros v [<- | []]. left. reflexivity.
  - unfold bfs_fuel, endpoints. cbn [List.length].
    rewrite length_app, !length_map. lia.
Qed.

End Traversal.

(** *** Connectivity *)

Lemma reachable_nil (u v : Z) : reachable [] u v -> u = v.
Proof.
  induction 1 as [x y [[] | []] | x | x y z _ IH1 _ IH2]; congruence.
Qed.

Lemma reachable_in_range (n : nat) (cs : list Contact) (v : Z) :
  (0 < n)%nat -> in_range n cs -> reachable cs 0 v -> 0 <= v < Z.of_nat n.
Proof.
  intros Hn Hr H. apply clos_rt_rtn1 in H.
  induction H as [| y z Hyz _ IH]; [lia |].
  apply (adjacent_in_range Hr) in Hyz. tauto.
Qed.


Lemma disks_In (n : nat) (v : Z) : In v (disks n) <-> 0 <= v < Z.of_nat n.
Proof.
  unfold disks. rewrite in_map_iff. split.
  - intros (i & <- & Hi). apply in_seq in Hi. lia.
  - intros H. exists (Z.to_nat v). split; [lia |]. apply in_seq. lia.
Qed.

Lemma disks_NoDup (n : nat) : NoDup (disks n).
Proof.
  unfold disks. apply NoDup_map_inj_on; [| apply seq_NoDup].
  intros x y _ _ E. lia.
Qed.

Lemma disks_length (n : nat) : List.length (disks n) = n.
Proof. unfold disks. rewrite length_map, length_seq. reflexivity. Qed.

Lemma isConnected_spec (n : nat) (cs : list Contact) :
  in_range n cs -> (isConnected n cs = true <-> connected n cs).
Proof.
  intros Hr. unfold isConnected.
  destruct (Nat.eqb_spec n 0) as [-> | Hn0].
  { split; auto. intros _ v Hv. simpl in Hv. lia. }
  destruct (Nat.eqb_spec n 1) as [-> | Hn1].
  { split; auto. intros _ v Hv. replace v with 0 by (simpl in Hv; lia). apply rt_refl. }
  destruct (Nat.eqb_spec (List.length cs) 0) as [Hcs | Hcs].
  { destruct cs; [| discriminate]. 
    destruct (Nat.leb_spec n 1); [lia |]. split; [discriminate |].
    intros Hc. assert (H1 : reachable [] 0 1) by (apply Hc; lia).
    apply reachable_nil in H1. discriminate. }
  assert (Hn : (0 < n)%nat) by lia.
  destruct (bfs_reachable Hn Hr) as [Hnd Hreach].
  set (visited := bfs (bfs_fuel cs) (buildAdjacencyList n cs) [0] [0]) in *.
  assert (Hincl : incl visited (disks n)).
  { intros v Hv. apply disks_In. apply (reachable_in_range Hn Hr).
    apply Hreach. exact Hv. }
  rewrite Nat.eqb_eq. split.
  - intros Hlen v Hv. apply Hreach.
    apply (NoDup_length_incl Hnd (l' := disks n)); auto.
    + rewrite disks_length. lia.
    + apply disks_In. exact Hv.
  - intros Hc.
    assert (Hincl' : incl (disks n) visited).
    { intros v Hv. apply Hreach. apply Hc. apply disks_In. exact Hv. }
    pose proof (NoDup_incl_length Hnd Hincl) as H1.
    pose proof (NoDup_incl_length (disks_NoDup n) Hincl') as H2.
    rewrite disks_length in *. lia.
Qed.

(** *** Degrees *)

Lemma incr_at_length (k : nat) (l : list Z) :
  List.length (incr_at k l) = List.length l.
Proof.
  revert k. induction l as [| d l IH]; intros [| k]; simpl; auto.
Qed.

Lemma incr_at_nth (k i : nat) (l : list Z) :
  (i < List.length l)%nat ->
  nth i (incr_at k l) 0 = nth i l 0 + (if (i =? k)%nat then 1 else 0).
Proof.
  revert k i. induction l as [| d l IH]; intros [| k] [| i] H; simpl in *; try lia.
  apply IH. lia.
Qed.

Lemma incr_degree_length (l : list Z) (u : Z) :
  List.length (incr_degree l u) = List.length l.
Proof.
  unfold incr_degree. destruct (u <? 0); auto using incr_at_length.
Qed.

Lemma incr_degree_nth (l : list Z) (u : Z) (i : nat) :
  (i < List.length l)%nat ->
  nth i (incr_degree l u) 0 = nth i l 0 + (if u =? Z.of_nat i then 1 else 0).
Proof.
  intros Hi. unfold incr_degree. destruct (Z.ltb_spec u 0).
  - destruct (Z.eqb_spec u (Z.of_nat i)); lia.
  - rewrite incr_at_nth by exact Hi.
    destruct (Nat.eqb_spec i (Z.to_nat u)), (Z.eqb_spec u (Z.of_nat i)); lia.
Qed.

Lemma computeVertexDegrees_nth (n : nat) (cs : list Contact) (i : nat) :
  (i < n)%nat ->
  nth i (computeVertexDegrees n cs) 0 = Z.of_nat (degree cs (Z.of_nat i)).
Proof.
  intros Hi. unfold computeVertexDegrees.
  assert (H : forall l, List.length l = n ->
            nth i (fold_left (fun degrees '(u, v) =>
                      incr_degree (incr_degree degrees u) v) cs l) 0
            = nth i l 0 + Z.of_nat (degree cs (Z.of_nat i))).
  { induction cs as [| [u v] cs IH]; intros l Hl; simpl.
    - unfold degree. simpl. lia.
    - rewrite IH by (rewrite !incr_degree_length; exact Hl).
      rewrite !incr_degree_nth by (rewrite ?incr_degree_length; lia).
      unfold degree. simpl.
      destruct (Z.eqb_spec u (Z.of_nat i)), (Z.eqb_spec v (Z.of_nat i));
        simpl; lia. }
  rewrite H by apply repeat_length.
  rewrite nth_repeat. lia.
Qed.

Lemma degree_check_none (n : nat) (cs : list Contact) :
  find (fun i => nth i (computeVertexDegrees n cs) 0 >? 6) (range n) = None <->
  (forall v, 0 <= v < Z.of_nat n -> (degree cs v <= 6)%nat).
Proof.
  split.
  - intros H v Hv.
    assert (Hin : In (Z.to_nat v) (range n)) by (apply in_seq; lia).
    pose proof (find_none _ _ H _ Hin) as E. simpl in E.
    rewrite computeVertexDegrees_nth in E by lia.
    rewrite Z2Nat.id in E by lia. lia.
  - intros H. destruct (find _ (range n)) as [i |] eqn:E; auto.
    apply find_some in E. destruct E as [Hin E]. apply in_seq in Hin.
    rewrite computeVertexDegrees_nth in E by lia.
    specialize (H (Z.of_nat i)). lia.
Qed.

(** *** The validator *)

Local Notation "a +++ b" := (String.append a%string b%string)
  (right associativity, at level 60).

(** C3.  When every index is in [0, n), no contact is a self-loop, no
    undirected pair occurs twice, every disk is reachable from disk 0
    and every degree is at most 6, the validator answers [isValid =
    true] with [expectedEdges = 2n + 1], whether or not the number of
    contacts is 2n + 1; its message says which of the two holds. *)
Theorem checkGraphValidity_valid {num} (config : Configuration num) :
  let cs := all_contacts config in
  let n := config.(n) in
  in_range n cs ->
  no_self_loops cs ->
  no_duplicate_edges cs ->
  connected n cs ->
  (forall v, 0 <= v < Z.of_nat n -> (degree cs v <= 6)%nat) ->
  let r := checkGraphValidity config in
  let matching := "Valid graph with expected edge count"%string in
  let other :=
    "Valid graph (" +++ js_string_of_Z (Z.of_nat (List.length cs))
      +++ " edges, expected " +++ js_string_of_Z (2 * Z.of_nat n + 1)
      +++ " for rigidity)" in
  r.(isValid) = true /\
  r.(expectedEdges) = 2 * Z.of_nat n + 1 /\
  r.(actualEdges) = Z.of_nat (List.length cs) /\
  (r.(actualEdges) = r.(expectedEdges) -> r.(message) = matching) /\
  (r.(actualEdges) <> r.(expectedEdges) -> r.(message) = other) /\
  matching <> other.
Proof.
  intros cs n Hr Hs Hd Hc Hdeg r matching other. unfold r, checkGraphValidity.
  fold cs n. unfold all_contacts in cs. fold cs.
  rewrite (proj2 (find_out_of_range_none n cs) Hr).
  rewrite (proj2 (find_self_loop_none cs) Hs).
  rewrite (proj2 (find_duplicate_spec Hr) Hd).
  rewrite (proj2 (isConnected_spec Hr) Hc). simpl negb. cbv iota.
  rewrite (proj2 (degree_check_none n cs) Hdeg). cbn [isValid expectedEdges actualEdges message].
  repeat split.
  - intros E. rewrite E, Z.eqb_refl. reflexivity.
  - intros E. apply Z.eqb_neq in E. rewrite E. reflexivity.
  - unfold matching, other. simpl. intros E. discriminate E.
Qed.

(** C9.  A self-loop makes the validator answer [isValid = false], and,
    the indices being in range, with the message naming the vertex of
    a self-loop (the first one); a contact graph in which some disk
    is not reachable from disk 0 makes it answer [isValid = false],
    and, the earlier checks passing, with the message "Graph is not
    connected". *)
Theorem checkGraphValidity_invalid {num} (config : Configuration num) :
  let cs := all_contacts config in
  let n := config.(n) in
  let r := checkGraphValidity config in
  (forall i, In (i, i) cs ->
     r.(isValid) = false /\
     (in_range n cs ->
      exists j, In (j, j) cs /\
        find is_self_loop cs = Some (j, j) /\
        r.(message) = "Self-loop detected at vertex " +++ js_string_of_Z j)) /\
  (~ connected n cs ->
     r.(isValid) = false /\
     (in_range n cs -> no_self_loops cs -> no_duplicate_edges cs ->
      r.(message) = "Graph is not connected"%string)).
Proof.
  intros cs n r. unfold r, checkGraphValidity. fold cs n.
  unfold all_contacts in cs. fold cs.
  split.
  - intros i Hi.
    assert (Hloop : exists j, find is_self_loop cs = Some (j, j) /\ In (j, j) cs).
    { destruct (find is_self_loop cs) as [[u v] |] eqn:E.
      - apply find_some in E. destruct E as [Hin E]. unfold is_self_loop in E.
        apply Z.eqb_eq in E. subst v. eauto.
      - pose proof (find_none _ _ E _ Hi) as E'. unfold is_self_loop in E'.
        rewrite Z.eqb_refl in E'. discriminate. }
    destruct Hloop as (j & Hj & Hin).
    split.
    + destruct (find (out_of_range (Z.of_nat n)) cs) as [[u v] |]; [reflexivity |].
      rewrite Hj. reflexivity.
    + intros Hr. rewrite (proj2 (find_out_of_range_none n cs) Hr), Hj.
      exists j. auto.
  - intros Hnc. split.
    + destruct (find (out_of_range (Z.of_nat n)) cs) as [[u v] |] eqn:E1; [reflexivity |].
      destruct (find is_self_loop cs) as [[u v] |]; [reflexivity |].
      destruct (find_duplicate [] cs) as [[u v] |]; [reflexivity |].
      apply find_out_of_range_none in E1.
      destruct (isConnected n cs) eqn:E; [| reflexivity].
      apply (isConnected_spec E1) in E. contradiction.
    + intros Hr Hs Hd.
      rewrite (proj2 (find_out_of_range_none n cs) Hr).
      rewrite (proj2 (find_self_loop_none cs) Hs).
      rewrite (proj2 (find_duplicate_spec Hr) Hd).
      destruct (isConnected n cs) eqn:E; [| reflexivity].
      apply (isConnected_spec Hr) in E. contradiction.
Qed.

End GraphFacts.

Lemma triangle_in_range :
  in_range Scenario.triangle.(n) (all_contacts Scenario.triangle).
Proof. repeat constructor; simpl; lia. Qed.

Lemma checkGraphValidity_valid_witness :
  let r := Graph.checkGraphValidity Scenario.triangle in
  in_range 3 (all_contacts Scenario.triangle) /\
  no_self_loops (all_contacts Scenario.triangle) /\
  no_duplicate_edges (all_contacts Scenario.triangle) /\
  connected 3 (all_contacts Scenario.triangle) /\
  (forall v, (0 <= v < 3)%Z ->
     (degree (all_contacts Scenario.triangle) v <= 6)%nat) /\
  r.(isValid) = true /\ r.(expectedEdges) = 7%Z /\ r.(actualEdges) = 3%Z.
Proof.
  assert (Hr := triangle_in_range).
  assert (Hs : no_self_loops (all_contacts Scenario.triangle))
    by (repeat constructor; discriminate).
  assert (Hd : no_duplicate_edges (all_contacts Scenario.triangle))
    by (apply (GraphFacts.find_duplicate_spec Hr); reflexivity).
  assert (Hc : connected 3 (all_contacts Scenario.triangle))
    by (apply (GraphFacts.isConnected_spec Hr); reflexivity).
  assert (Hg : forall v, (0 <= v < 3)%Z ->
                 (degree (all_contacts Scenario.triangle) v <= 6)%nat)
    by (apply (GraphFacts.degree_check_none 3); reflexivity).
  destruct (GraphFacts.checkGraphValidity_valid Scenario.triangle
              Hr Hs Hd Hc Hg) as (H1 & H2 & H3 & _).
  repeat split; assumption.
Defined.

(** Seven disks, a hexagon around a centre with three chords: fifteen
    contacts, the expected number, and the other message. *)
Example checkGraphValidity_expected_count :
  Graph.checkGraphValidity
    {| n := 7; positions := @nil (float * float); radii := [];
       contacts := [(0, 1); (0, 2); (0, 3); (0, 4); (0, 5); (0, 6);
                    (1, 2); (2, 3); (3, 4); (4, 5); (5, 6); (1, 6);
                    (1, 3); (3, 5); (1, 5)]%Z;
       latticeContacts := []; latticeShifts := [] |}
  = {| isValid := true; expectedEdges := 15; actualEdges := 15;
       message := "Valid graph with expected edge count" |}.
Proof. reflexivity. Qed.

Lemma two_components_not_connected :
  ~ connected 4 (all_contacts Scenario.two_components).
Proof.
  assert (Hr : in_range 4 (all_contacts Scenario.two_components))
    by (repeat constructor; simpl; lia).
  intros Hc. apply (GraphFacts.isConnected_spec Hr) in Hc. discriminate Hc.
Qed.

Lemma checkGraphValidity_invalid_witness :
  In (1, 1)%Z (all_contacts Scenario.with_self_loop) /\
  (Graph.checkGraphValidity Scenario.with_self_loop).(isValid) = false /\
  ~ connected 4 (all_contacts Scenario.two_components) /\
  (Graph.checkGraphValidity Scenario.two_components).(isValid) = false.
Proof.
  assert (H1 : In (1, 1)%Z (all_contacts Scenario.with_self_loop))
    by (right; left; reflexivity).
  split; [exact H1 |].
  split; [exact (proj1 (proj1 (GraphFacts.checkGraphValidity_invalid
                                 Scenario.with_self_loop) 1%Z H1)) |].
  split; [exact two_components_not_connected |].
  exact (proj1 (proj2 (GraphFacts.checkGraphValidity_invalid Scenario.two_components)
                  two_components_not_connected)).
Defined.

Example checkGraphValidity_self_loop :
  (Graph.checkGraphValidity Scenario.with_self_loop).(message)
  = "Self-loop detected at vertex 1"%string.
Proof. reflexivity. Qed.

Example checkGraphValidity_two_components :
  (Graph.checkGraphValidity Scenario.two_components).(message)
  = "Graph is not connected"%string.
Proof. reflexivity. Qed.

(* ================================================================== *)
(** * 18. Properties of the constraint builder *)
(* ================================================================== *)

(** ** Arrays *)

Section ArrayFacts.
Context {num : Type} {N : Number num}.
Local Open Scope num_scope.

Lemma array_set_length (a : list num) (k : nat) (v : num) :
  (k < List.length a)%nat -> List.length (array_set a k v) = List.length a.
Proof.
  revert k. induction a as [| x a IH]; intros [| k] H; simpl in *; try lia.
  rewrite IH; lia.
Qed.

Lemma array_get_set_same (a : list num) (k : nat) (v : num) :
  array_get (array_set a k v) k = v.
Proof.
  unfold array_get. revert a. induction k as [| k IH]; intros [| x a]; simpl; auto.
Qed.

Lemma array_get_set_other (a : list num) (k k' : nat) (v : num) :
  k <> k' -> array_get (array_set a k v) k' = array_get a k'.
Proof.
  unfold array_get. revert a k'.
  induction k as [| k IH]; intros [| x a] [| k'] H; simpl; auto; try lia.
  - destruct k'; reflexivity.
  - rewrite IH by lia. destruct k'; reflexivity.
Qed.

Lemma array_get_repeat (v : num) (c k : nat) :
  (k < c)%nat -> array_get (repeat v c) k = v.
Proof.
  unfold array_get. revert k. induction c as [| c IH]; intros [| k] H; simpl; try lia; auto.
  apply IH. lia.
Qed.

End ArrayFacts.

(** ** The contact matrix and the rolling space *)

Section ConstraintFacts.
Context {num : Type} {N : Number num}.
Local Open Scope num_scope.

Lemma rollingSpaceBasis_empty (la : LinAlg num) (tolerance : num) :
  rollingSpaceBasis la [] tolerance = [].
Proof. reflexivity. Qed.

(** C1 (as the code has it).  A configuration without contacts has the
    empty contact matrix; [rollingSpaceBasis] returns the empty matrix
    for it, and [computeConstraints] reports rolling dimension 0. *)
Theorem no_contacts_dimension_zero
  (la : LinAlg num) (config : Configuration num) :
  config.(contacts) = [] ->
  buildContactMatrix config = Ok [] /\
  rollingSpaceBasis la [] lit_1e10 = [] /\
  computeConstraints la config =
    Ok {| contactMatrix := []; rollingMatrix := []; dimension := 0 |}.
Proof.
  intros Hc.
  assert (HA : buildContactMatrix config = Ok []).
  { unfold buildContactMatrix. rewrite Hc. reflexivity. }
  repeat split; auto.
  unfold computeConstraints. rewrite HA. reflexivity.
Qed.

Lemma point_at_in_range (positions : list (num * num)) (i : Z) :
  (0 <= i < Z.of_nat (List.length positions))%Z ->
  point_at positions i = Some (centre positions i).
Proof.
  intros H. unfold point_at, centre, hull_point.
  destruct (Z.ltb_spec i 0); [lia |].
  apply nth_error_nth'. lia.
Qed.

Lemma contact_row_in_range (cols : nat) (positions : list (num * num)) (c : Contact) :
  (0 <= fst c < Z.of_nat (List.length positions))%Z ->
  (0 <= snd c < Z.of_nat (List.length positions))%Z ->
  (coincident positions c /\ exists msg, contact_row cols positions c = Throw (Error msg)) \/
  (~ coincident positions c /\
   contact_row cols positions c =
     Ok (contact_row_of cols (fst c) (snd c) (direction positions c))).
Proof.
  destruct c as [i j]. simpl. intros Hi Hj.
  unfold contact_row, coincident.
  rewrite (point_at_in_range _ Hi), (point_at_in_range _ Hj).
  unfold centre_distance, direction, contact_row_of. simpl.
  destruct (_ <? _) eqn:E.
  - left. split; [reflexivity | eauto].
  - right. split; [discriminate | reflexivity].
Qed.

Lemma contact_row_of_entries (cols : nat) (i j : Z) (u : num * num) :
  (0 <= i)%Z -> (0 <= j)%Z -> i <> j ->
  (2 * i + 1 < Z.of_nat cols)%Z -> (2 * j + 1 < Z.of_nat cols)%Z ->
  let row := contact_row_of cols i j u in
  List.length row = cols /\
  array_get row (Z.to_nat (2 * i)) = - fst u /\
  array_get row (Z.to_nat (2 * i + 1)) = - snd u /\
  array_get row (Z.to_nat (2 * j)) = fst u /\
  array_get row (Z.to_nat (2 * j + 1)) = snd u /\
  (forall k, (k < cols)%nat ->
     k <> Z.to_nat (2 * i) -> k <> Z.to_nat (2 * i + 1) ->
     k <> Z.to_nat (2 * j) -> k <> Z.to_nat (2 * j + 1) ->
     array_get row k = zero).
Proof.
  intros Hi Hj Hij Hci Hcj row. unfold row, contact_row_of.
  repeat split.
  - assert (L : forall a k v, List.length a = cols -> (k < cols)%nat ->
                 List.length (array_set a k v) = cols).
    { intros a k v Ha Hk. rewrite array_set_length; lia. }
    repeat (apply L; [| lia]). apply repeat_length.
  - rewrite !array_get_set_other by lia. apply array_get_set_same.
  - rewrite !array_get_set_other by lia. apply array_get_set_same.
  - rewrite !array_get_set_other by lia. apply array_get_set_same.
  - apply array_get_set_same.
  - intros k Hk H1 H2 H3 H4.
    rewrite !array_get_set_other by lia. apply array_get_repeat. lia.
Qed.

Lemma contact_rows_in_range (cols : nat) (positions : list (num * num))
  (cs : list Contact) :
  in_range (List.length positions) cs ->
  (Exists (coincident positions) cs /\
   exists msg, contact_rows cols positions cs = Throw (Error msg)) \/
  (Forall (fun c => ~ coincident positions c) cs /\
   contact_rows cols positions cs =
     Ok (map (fun c => contact_row_of cols (fst c) (snd c)
                         (direction positions c)) cs)).
Proof.
  induction 1 as [| c cs [Hi Hj] Hcs IH]; simpl.
  - right. split; [constructor | reflexivity].
  - destruct (contact_row_in_range cols positions c Hi Hj)
      as [(Hc & msg & ->) | (Hc & ->)]; simpl.
    + left. split; [left; exact Hc | eauto].
    + destruct IH as [(Hex & msg & ->) | (Hall & ->)]; simpl.
      * left. split; [right; exact Hex | eauto].
      * right. split; [constructor; assumption | reflexivity].
Qed.

(** C6.  For a well-formed configuration [buildContactMatrix] throws
    its error exactly when some contact has its two centres closer than
    1e-15, and returns a matrix exactly when none has; the matrix has
    one row per contact, of length 2n, and the row of a contact (i, j)
    holds -u at columns 2i, 2i+1, +u at columns 2j, 2j+1, and 0
    elsewhere, u being the direction from centre i to centre j. *)
Theorem buildContactMatrix_spec (config : Configuration num) :
  well_formed config ->
  let positions := config.(positions) in
  let contacts := config.(contacts) in
  ((exists msg, buildContactMatrix config = Throw (Error msg)) <->
   Exists (coincident positions) contacts) /\
  ((exists A, buildContactMatrix config = Ok A) <->
   ~ Exists (coincident positions) contacts) /\
  (forall A, buildContactMatrix config = Ok A ->
     List.length A = List.length contacts /\
     forall k i j, nth_error contacts k = Some (i, j) -> i <> j ->
       let row := nth k A [] in
       let u := direction positions (i, j) in
       List.length row = (2 * config.(n))%nat /\
       array_get row (Z.to_nat (2 * i)) = - fst u /\
       array_get row (Z.to_nat (2 * i + 1)) = - snd u /\
       array_get row (Z.to_nat (2 * j)) = fst u /\
       array_get row (Z.to_nat (2 * j + 1)) = snd u /\
       forall c, (c < 2 * config.(n))%nat ->
         c <> Z.to_nat (2 * i) -> c <> Z.to_nat (2 * i + 1) ->
         c <> Z.to_nat (2 * j) -> c <> Z.to_nat (2 * j + 1) ->
         array_get row c = zero).
Proof.
  intros [Hlen Hrange] positions contacts.
  unfold buildContactMatrix. fold positions contacts.
  assert (Hr : in_range (List.length positions) contacts)
    by (unfold positions; rewrite Hlen; exact Hrange).
  destruct (contact_rows_in_range (2 * config.(n)) positions Hr)
    as [(Hex & msg & E) | (Hall & E)]; rewrite E.
  - split; [| split].
    + split; eauto.
    + split; [intros (A & HA); discriminate | intros H; contradiction].
    + intros A HA. discriminate.
  - assert (Hno : ~ Exists (coincident positions) contacts).
    { rewrite Exists_exists. intros (c & Hin & Hc).
      rewrite Forall_forall in Hall. exact (Hall c Hin Hc). }
    split; [| split].
    + split; [intros (msg & Hm); discriminate | intros H; contradiction].
    + split; eauto.
    + intros A HA. assert (HA' := f_equal (fun r => match r with Ok a => a | Throw _ => [] end) HA).
      simpl in HA'. clear HA. subst A.
      split; [apply length_map |].
      intros k i j Hk Hij.
      assert (Hin : In (i, j) contacts) by (eapply nth_error_In; eauto).
      unfold in_range in Hrange. rewrite Forall_forall in Hrange.
      destruct (Hrange _ Hin) as [Hi Hj]. simpl in Hi, Hj.
      match goal with
      | |- context [nth k ?M []] =>
          assert (Hrow : nth k M [] = contact_row_of (2 * config.(n)) i j
                                        (direction positions (i, j)))
      end.
      { apply nth_error_nth.
        exact (map_nth_error (fun c => contact_row_of (2 * config.(n))
                 (fst c) (snd c) (direction positions c)) k contacts Hk). }
      rewrite Hrow.
      apply contact_row_of_entries; lia.
Qed.

End ConstraintFacts.

Lemma no_contacts_dimension_zero_witness :
  Scenario.two_free_disks.(contacts) = [] /\
  computeConstraints Scenario.no_library Scenario.two_free_disks =
    Ok {| contactMatrix := []; rollingMatrix := []; dimension := 0 |}.
Proof.
  split; [reflexivity |].
  apply (no_contacts_dimension_zero Scenario.no_library
           Scenario.two_free_disks eq_refl).
Defined.

Lemma two_disks_well_formed : well_formed Scenario.two_disks.
Proof.
  split; [reflexivity |]. repeat constructor; simpl; lia.
Qed.

Lemma buildContactMatrix_spec_witness :
  well_formed Scenario.two_disks /\
  ((exists A, buildContactMatrix Scenario.two_disks = Ok A) <->
   ~ Exists (coincident Scenario.two_disks.(positions))
       Scenario.two_disks.(contacts)).
Proof.
  split; [exact two_disks_well_formed |].
  exact (proj1 (proj2 (buildContactMatrix_spec two_disks_well_formed))).
Defined.

(** What the builder returns for the two disks in contact. *)
Example buildContactMatrix_two_disks :
  buildContactMatrix Scenario.two_disks = Ok [[-1; -0; 1; 0]]%float.
Proof. reflexivity. Qed.

(** C1 as stated fails: for two disks without contact no library makes
    [computeConstraints] report rolling dimension 2n = 4. *)
Lemma no_contacts_dimension_not_2n :
  ~ (exists (la : LinAlg float) (cd : ConstraintData float),
        computeConstraints la Scenario.two_free_disks = Ok cd /\
        cd.(dimension) = (2 * Scenario.two_free_disks.(n))%nat).
Proof.
  intros (la & cd & Hcd & Hdim).
  assert (H : computeConstraints la Scenario.two_free_disks =
              Ok {| contactMatrix := []; rollingMatrix := []; dimension := 0 |})
    by reflexivity.
  rewrite H in Hcd. inversion Hcd; subst cd. discriminate Hdim.
Qed.

(* ================================================================== *)
(** * 19. Properties of the Hessian engine *)
(* ================================================================== *)

Section HessianFacts.
Context {num : Type} {N : Number num}.
Local Open Scope num_scope.

(** C4.  When the rolling matrix has no column ([R] is empty, or its
    first row is), [computeHessian] assembles nothing and returns the
    trivial result. *)
Theorem computeHessian_rigid
  (la : LinAlg num) (config : Configuration num) (R : Matrix num) :
  rollDim R = O ->
  exists res,
    computeHessian la config R = Ok res /\
    res.(hessian) = [] /\
    res.(eigenvalues) = [] /\
    res.(eigenvectors) = [] /\
    res.(isLocalMinimum) = true /\
    res.(indexMorseCritical) = O.
Proof.
  intros Hd. exists trivialHessian.
  unfold computeHessian. rewrite Hd. simpl. repeat split.
Qed.

End HessianFacts.

Lemma computeHessian_rigid_witness :
  rollDim (repeat (@nil float) 6) = O /\
  exists res,
    computeHessian Scenario.no_library Scenario.triangle (repeat [] 6)
      = Ok res /\
    res.(hessian) = [] /\ res.(eigenvalues) = [] /\
    res.(eigenvectors) = [] /\ res.(isLocalMinimum) = true /\
    res.(indexMorseCritical) = O.
Proof.
  split; [reflexivity |].
  apply (computeHessian_rigid Scenario.no_library Scenario.triangle
           (repeat [] 6) eq_refl).
Defined.

(** ** Sorting *)

Section SortFacts.
Context {num : Type} {N : Number num}.
Local Open Scope num_scope.
Variable A : Type.
Variable cmp : A -> A -> num.

Lemma sort_insert_perm (x : A) (l : list A) :
  Permutation (sort_insert cmp x l) (x :: l).
Proof.
  induction l as [| y r IH]; simpl; [reflexivity |].
  destruct (_ <? _); [reflexivity |].
  rewrite IH. apply perm_swap.
Qed.

Lemma js_sort_perm (l : list A) : Permutation (js_sort cmp l) l.
Proof.
  unfold js_sort.
  assert (H : forall acc, Permutation (fold_left (fun acc x => sort_insert cmp x acc) l acc)
                                      (acc ++ l)).
  { induction l as [| x r IH]; intros acc; simpl.
    - rewrite app_nil_r. reflexivity.
    - rewrite IH, sort_insert_perm. apply Permutation_middle. }
  apply (H []).
Qed.

(** [x] goes before [y]. *)
Let before (x y : A) : Prop := (cmp x y <? zero) = true.
(** [y] does not go before [x]. *)
Let in_order (x y : A) : Prop := (cmp y x <? zero) = false.

Variable P : A -> Prop.
Hypothesis before_asym : forall x y, P x -> P y -> before x y -> in_order x y.
Hypothesis in_order_trans : forall x y z, P x -> P y -> P z ->
  in_order x y -> in_order y z -> in_order x z.

Lemma sort_insert_sorted (x : A) (l : list A) :
  P x -> Forall P l ->
  StronglySorted in_order l -> StronglySorted in_order (sort_insert cmp x l).
Proof.
  intros Px Pl Hs. induction Hs as [| y r Hr IH Hy]; simpl.
  - constructor; constructor.
  - inversion Pl as [| ? ? Py Pr]; subst.
    destruct (cmp x y <? zero) eqn:E.
    + constructor; [constructor; assumption |].
      assert (Hxy : in_order x y) by (apply before_asym; assumption).
      constructor; [exact Hxy |].
      rewrite Forall_forall in *. intros z Hz.
      apply (@in_order_trans x y z); auto.
    + constructor; [apply IH; assumption |].
      rewrite Forall_forall in *. intros z Hz.
      apply (Permutation_in _ (sort_insert_perm x r)) in Hz.
      destruct Hz as [<- | Hz]; [exact E | auto].
Qed.

Lemma js_sort_sorted (l : list A) :
  Forall P l -> StronglySorted in_order (js_sort cmp l).
Proof.
  unfold js_sort. intros Pl.
  assert (H : forall acc, Forall P acc -> StronglySorted in_order acc ->
            StronglySorted in_order (fold_left (fun acc x => sort_insert cmp x acc) l acc)).
  { induction Pl as [| x r Px Pr IH]; intros acc Pacc Hacc; simpl; auto.
    apply IH.
    - apply (Permutation_Forall (Permutation_sym (sort_insert_perm x acc))).
      constructor; assumption.
    - apply sort_insert_sorted; assumption. }
  apply H; constructor.
Qed.

End SortFacts.

Lemma StronglySorted_map_on {A B} (R : A -> A -> Prop) (S : B -> B -> Prop)
  (P : A -> Prop) (f : A -> B) (l : list A) :
  (forall x y, P x -> P y -> R x y -> S (f x) (f y)) ->
  Forall P l -> StronglySorted R l -> StronglySorted S (map f l).
Proof.
  intros HRS Pl Hs. induction Hs as [| x r Hr IH Hx]; simpl; constructor.
  - inversion Pl; subst. apply IH; assumption.
  - inversion Pl as [| ? ? Px Pr]; subst.
    rewrite Forall_forall in *. intros b Hb. apply in_map_iff in Hb.
    destruct Hb as (y & <- & Hy). apply HRS; auto.
Qed.

(** ** The spectrum *)

Section SpectrumFacts.
Context {num : Type} {N : Number num}.
Local Open Scope num_scope.
Variable ordinary : num -> Prop.
Context {laws : OrderLaws ordinary}.

Lemma cleaned_ordinary (tolerance : num) (raw : list num) :
  Forall ordinary raw -> Forall ordinary (cleaned tolerance raw).
Proof.
  unfold cleaned. induction 1; simpl; constructor; auto.
  destruct (_ <? _); [apply ordinary_zero | assumption].
Qed.

Lemma array_get_ordinary (l : list num) (i : nat) :
  Forall ordinary l -> (i < List.length l)%nat -> ordinary (array_get l i).
Proof.
  intros Hl Hi. rewrite Forall_forall in Hl. apply Hl.
  unfold array_get. apply nth_In. exact Hi.
Qed.

Lemma intrinsicSpectrum_sorted (la : LinAlg num) (H : Matrix num)
  (tolerance : num) :
  let eig := la.(EigenvalueDecomposition) (symmetrize H) in
  let values := cleaned tolerance eig.(realEigenvalues) in
  let s := intrinsicSpectrum la H tolerance in
  Forall ordinary eig.(realEigenvalues) ->
  exists indices,
    Permutation indices (range (List.length values)) /\
    s.(spec_eigenvalues) = map (array_get values) indices /\
    s.(spec_eigenvectors) = map (column eig.(eigenvectorMatrix)) indices /\
    ascending s.(spec_eigenvalues).
Proof.
  intros eig values s Hord.
  set (cmp := fun a b : nat => array_get values a - array_get values b).
  exists (js_sort cmp (range (List.length values))).
  assert (Hv : Forall ordinary values) by (apply cleaned_ordinary; exact Hord).
  split; [apply js_sort_perm |].
  split; [reflexivity |]. split; [reflexivity |].
  unfold s, intrinsicSpectrum, ascending. cbn [spec_eigenvalues].
  fold eig. fold (cleaned tolerance (realEigenvalues eig)). fold values. fold cmp.
  set (P := fun i : nat => (i < List.length values)%nat).
  assert (HP : Forall P (range (List.length values))).
  { apply Forall_forall. intros i Hi. apply in_seq in Hi. unfold P. lia. }
  assert (Hcmp : forall a b, P a -> P b ->
            (cmp a b <? zero) = (array_get values a <? array_get values b)).
  { intros a b Pa Pb. unfold cmp. apply sub_negative; apply array_get_ordinary; auto. }
  apply (@StronglySorted_map_on _ _
           (fun x y : nat => (cmp y x <? zero) = false) _ P).
  - intros x y Px Py Hxy. rewrite <- Hcmp; auto.
  - apply (Permutation_Forall (Permutation_sym (js_sort_perm cmp _))). exact HP.
  - apply (@js_sort_sorted _ _ _ cmp P); auto.
    + intros x y Px Py Hxy. rewrite Hcmp in * by auto.
      apply ltb_asym; auto; apply array_get_ordinary; auto.
    + intros x y z Px Py Pz Hxy Hyz. rewrite Hcmp in * by auto.
      apply (@ltb_negtrans _ _ _ _ (array_get values z) (array_get values y)
               (array_get values x)); auto; apply array_get_ordinary; auto.
Qed.

(** The sorted spectrum, place by place. *)
Lemma intrinsicSpectrum_places (la : LinAlg num) (H : Matrix num)
  (tolerance : num) :
  let eig := la.(EigenvalueDecomposition) (symmetrize H) in
  let V := eig.(eigenvectorMatrix) in
  let values :=
    map (fun v => if absn v <? tolerance then zero else v)
        eig.(realEigenvalues) in
  let s := intrinsicSpectrum la H tolerance in
  Forall ordinary eig.(realEigenvalues) ->
  exists indices,
    Permutation indices (seq 0 (List.length values)) /\
    List.length s.(spec_eigenvalues) = List.length values /\
    List.length s.(spec_eigenvectors) = List.length values /\
    (forall k, (k < List.length values)%nat ->
       let i := nth k indices O in
       nth k s.(spec_eigenvalues) undef = nth i values undef /\
       List.length (nth k s.(spec_eigenvectors) []) = List.length V /\
       forall r, (r < List.length V)%nat ->
         nth r (nth k s.(spec_eigenvectors) []) undef
         = nth i (nth r V []) undef) /\
    ascending s.(spec_eigenvalues).
Proof.
  intros eig V values s Hord.
  destruct (intrinsicSpectrum_sorted la H tolerance Hord)
    as (indices & Hperm & Hvals & Hvecs & Hsorted).
  fold eig in Hperm, Hvals, Hvecs. fold s in Hvals, Hvecs, Hsorted.
  change (cleaned tolerance (realEigenvalues eig)) with values in Hperm, Hvals.
  exists indices. unfold range in Hperm.
  pose proof (Permutation_length Hperm) as Hlen. rewrite length_seq in Hlen.
  split; [exact Hperm |].
  split; [rewrite Hvals, length_map; exact Hlen |].
  split; [rewrite Hvecs, length_map; exact Hlen |].
  split; [| exact Hsorted].
  intros k Hk i. rewrite <- Hlen in Hk.
  rewrite Hvals, Hvecs.
  rewrite (nth_indep _ undef (array_get values O))
    by (rewrite length_map; exact Hk).
  rewrite (nth_indep _ [] (column (eigenvectorMatrix eig) O))
    by (rewrite length_map; exact Hk).
  rewrite !map_nth. fold i.
  split; [reflexivity |]. unfold column.
  split; [apply length_map |].
  intros r Hr. fold V.
  rewrite (nth_indep _ undef (array_get [] i)) by (rewrite length_map; exact Hr).
  rewrite (map_nth (fun row => array_get row i)). reflexivity.
Qed.

(** C5.  A result of [computeHessian] for a rolling matrix with at
    least one column lists the eigenvalues of the symmetrised projected
    Hessian, those of magnitude below 1e-10 replaced by 0, in ascending
    order: the eigenvalue at place [k] is the one the solver returned
    at place [i], for a permutation [k -> i] of the places, and the
    eigenvector at place [k] is column [i] of the solver's matrix.  The
    Morse index is the number of eigenvalues below -1e-6 and
    [isLocalMinimum] says that this number is 0. *)
Theorem computeHessian_spectrum
  (la : LinAlg num) (config : Configuration num) (R : Matrix num)
  (res : HessianResult num) :
  rollDim R <> O ->
  computeHessian la config R = Ok res ->
  let eig := la.(EigenvalueDecomposition) (symmetrize res.(hessian)) in
  let V := eig.(eigenvectorMatrix) in
  let values :=
    map (fun v => if absn v <? lit_1e10 then zero else v)
        eig.(realEigenvalues) in
  Forall ordinary eig.(realEigenvalues) ->
  (exists indices,
     Permutation indices (seq 0 (List.length values)) /\
     List.length res.(eigenvalues) = List.length values /\
     List.length res.(eigenvectors) = List.length values /\
     forall k, (k < List.length values)%nat ->
       let i := nth k indices O in
       nth k res.(eigenvalues) undef = nth i values undef /\
       List.length (nth k res.(eigenvectors) []) = List.length V /\
       forall r, (r < List.length V)%nat ->
         nth r (nth k res.(eigenvectors) []) undef
         = nth i (nth r V []) undef) /\
  ascending res.(eigenvalues) /\
  res.(indexMorseCritical) =
    List.length (filter (fun v => v <? - lit_1e6) res.(eigenvalues)) /\
  (res.(isLocalMinimum) = true <-> res.(indexMorseCritical) = O).
Proof.
  intros Hd Hres. unfold computeHessian in Hres.
  destruct (Nat.eqb_spec (rollDim R) 0) as [E | _]; [contradiction |].
  destruct (buildEuclideanHessian la config) as [HEucl | e]; [| discriminate].
  destruct (buildContactMatrix config) as [A | e]; [| discriminate].
  cbn [bind] in Hres.
  destruct (buildGeometricHessian config
              (solveLagrangeMultipliers la A (perimeterGradient la config)))
    as [HGeom | e]; [| discriminate].
  cbn [bind] in Hres.
  injection Hres as <-. cbv zeta.
  cbn [hessian eigenvalues eigenvectors isLocalMinimum indexMorseCritical].
  intros Hord.
  destruct (intrinsicSpectrum_places la _ lit_1e10 Hord)
    as (indices & P1 & P2 & P3 & P4 & Hsorted).
  split; [| split; [exact Hsorted | split; [reflexivity | apply Nat.eqb_eq]]].
  exists indices.
  split; [exact P1 |]. split; [exact P2 |]. split; [exact P3 | exact P4].
Qed.

End SpectrumFacts.

(* ================================================================== *)
(** * 20. Properties of the hull and the perimeter *)
(* ================================================================== *)

Section PerimeterFacts.
Context {num : Type} {N : Number num}.
Local Open Scope num_scope.

Lemma isCollinear_small (la : LinAlg num) (points : list (num * num)) :
  (List.length points < 3)%nat -> isCollinear la points = true.
Proof.
  intros H. unfold isCollinear.
  destruct (Nat.ltb_spec (List.length points) 3) as [_ | Hge]; [reflexivity | lia].
Qed.

(** The hull of two points is the two of them, whatever their
    coordinates: no turn test is made, and the two halves end on
    different points. *)
Lemma convexHullIndices_two (p q : num * num) :
  convexHullIndices [p; q] = [O; 1%nat] \/
  convexHullIndices [p; q] = [1%nat; O].
Proof.
  unfold convexHullIndices, js_sort, indexed. simpl.
  destruct (_ <? _); simpl; auto.
Qed.

Lemma convexHullIndices_two_length (points : list (num * num)) :
  List.length points = 2%nat ->
  List.length (convexHullIndices points) = 2%nat.
Proof.
  destruct points as [| p [| q [| ? ?]]]; try discriminate. intros _.
  destruct (convexHullIndices_two p q) as [-> | ->]; reflexivity.
Qed.

(** C10.  With fewer than three points [isCollinear] answers [true]
    whatever the library is, so that no singular value is consulted;
    [buildEuclideanHessian] then takes its collinear branch, and for
    exactly two points (the hull being the two of them) so do
    [perimeterOfCenters] and [perimeterGradient]. *)
Theorem isCollinear_below_three_points
  (la : LinAlg num) (config : Configuration num) :
  (List.length config.(positions) < 3)%nat ->
  let hull := convexHullIndices config.(positions) in
  isCollinear la config.(positions) = true /\
  buildEuclideanHessian la config =
    collinear_hessian config.(positions) hull (zeros (2 * config.(n))) /\
  (List.length config.(positions) = 2%nat ->
   perimeterOfCenters la config = stadium_perimeter config.(positions) hull /\
   perimeterGradient la config =
     collinear_gradient config.(positions) hull
       (repeat zero (2 * config.(n)))).
Proof.
  intros Hlen hull.
  pose proof (isCollinear_small la _ Hlen) as Hcol.
  split; [exact Hcol |]. split.
  - unfold buildEuclideanHessian. rewrite Hcol. reflexivity.
  - intros H2. pose proof (convexHullIndices_two_length _ H2) as Hh.
    unfold perimeterOfCenters, perimeterGradient. fold hull.
    unfold hull. rewrite Hh, Hcol. simpl. split; reflexivity.
Qed.

End PerimeterFacts.

Lemma isCollinear_below_three_points_witness :
  (List.length Scenario.two_disks.(positions) < 3)%nat /\
  isCollinear Scenario.no_library Scenario.two_disks.(positions) = true /\
  perimeterOfCenters Scenario.no_library Scenario.two_disks =
    stadium_perimeter Scenario.two_disks.(positions) [O; 1%nat].
Proof.
  assert (H : (List.length Scenario.two_disks.(positions) < 3)%nat)
    by (simpl; lia).
  split; [exact H |].
  destruct (isCollinear_below_three_points Scenario.no_library
              Scenario.two_disks H) as (Hc & _ & Hp).
  split; [exact Hc |].
  exact (proj1 (Hp eq_refl)).
Defined.

(** ** The hull *)

Section HullFacts.
Context {num : Type} {N : Number num}.
Local Open Scope num_scope.

Lemma dedupe_spec (seen l : list nat) :
  NoDup (dedupe seen l) /\
  forall x, In x (dedupe seen l) <-> In x l /\ ~ In x seen.
Proof.
  revert seen. induction l as [| x r IH]; intros seen; simpl.
  - split; [constructor | intros x; tauto].
  - assert (Hmem : existsb (Nat.eqb x) seen = true <-> In x seen).
    { rewrite existsb_exists. split.
      - intros (y & Hy & E). apply Nat.eqb_eq in E. now subst.
      - intros H. exists x. split; auto. apply Nat.eqb_refl. }
    destruct (existsb (Nat.eqb x) seen) eqn:E.
    + destruct (IH seen) as [Hnd Hin]. split; auto.
      intros y. rewrite Hin. split; [tauto |].
      intros [[<- | Hy] Hs]; [| tauto]. exfalso. apply Hs, Hmem. reflexivity.
    + assert (Hx : ~ In x seen) by (rewrite <- Hmem; discriminate).
      destruct (IH (x :: seen)) as [Hnd Hin]. split.
      * constructor; auto. rewrite Hin. simpl. tauto.
      * intros y. simpl. rewrite Hin. simpl.
        destruct (Nat.eq_dec x y) as [-> | Hne]; tauto.
Qed.

Lemma pop_right_turns_incl (stack : list (IndexedPoint num)) (p : IndexedPoint num) :
  incl (pop_right_turns stack p) stack.
Proof.
  induction stack as [| top rest IH]; simpl; [apply incl_refl |].
  destruct rest as [| below rest']; [apply incl_refl |].
  destruct (_ <? _); [| apply incl_refl].
  apply incl_tl. exact IH.
Qed.

Lemma half_hull_incl (pts : list (IndexedPoint num)) :
  incl (half_hull pts) pts.
Proof.
  unfold half_hull.
  assert (H : forall stack, incl (fold_left (fun stack p => p :: pop_right_turns stack p) pts stack)
                                 (stack ++ pts)).
  { induction pts as [| p r IH]; intros stack; simpl.
    - rewrite app_nil_r. apply incl_refl.
    - eapply incl_tran; [apply IH |].
      intros x Hx. apply in_app_or in Hx. destruct Hx as [[<- | Hx] | Hx].
      + apply in_or_app. right. left. reflexivity.
      + apply in_or_app. left. eapply pop_right_turns_incl; eauto.
      + apply in_or_app. right. right. exact Hx. }
  apply (H []).
Qed.

Lemma indexed_pidx (points : list (num * num)) (ip : IndexedPoint num) :
  In ip (indexed points) -> (ip.(pidx) < List.length points)%nat.
Proof.
  unfold indexed. intros H. apply in_map_iff in H.
  destruct H as ([i p] & <- & Hin). apply in_combine_l in Hin.
  apply in_seq in Hin. simpl. lia.
Qed.

Lemma incl_tl_list {A} (l : list A) : incl (tl l) l.
Proof. destruct l; [apply incl_refl | apply incl_tl, incl_refl]. Qed.

(** The hull lists indices of the points, each at most once. *)
Lemma convexHullIndices_spec (points : list (num * num)) :
  NoDup (convexHullIndices points) /\
  forall i, In i (convexHullIndices points) -> (i < List.length points)%nat.
Proof.
  unfold convexHullIndices.
  destruct (Nat.leb_spec (List.length points) 1).
  - split; [apply seq_NoDup |]. intros i Hi. apply in_seq in Hi. lia.
  - split; [apply dedupe_spec |]. intros i Hi.
    apply dedupe_spec in Hi. destruct Hi as [Hi _].
    apply in_map_iff in Hi. destruct Hi as (ip & <- & Hip).
    apply indexed_pidx.
    set (sorted := js_sort by_x_then_y (indexed points)) in *.
    assert (Hs : incl sorted (indexed points)).
    { intros x Hx. eapply Permutation_in; [apply js_sort_perm | exact Hx]. }
    apply Hs. apply in_app_or in Hip.
    destruct Hip as [Hip | Hip]; apply in_rev in Hip; apply incl_tl_list in Hip;
      apply half_hull_incl in Hip; auto.
    apply in_rev. exact Hip.
Qed.

End HullFacts.

Section HullSize.
Context {num : Type} {N : Number num}.
Local Open Scope num_scope.

Lemma pop_right_turns_bottom (stack : list (IndexedPoint num))
  (p d : IndexedPoint num) :
  stack <> [] ->
  pop_right_turns stack p <> [] /\
  last (pop_right_turns stack p) d = last stack d.
Proof.
  induction stack as [| top rest IH]; [congruence |]. intros _.
  cbn [pop_right_turns]. destruct rest as [| below rest'].
  - split; [discriminate | reflexivity].
  - destruct (_ <? _).
    + destruct IH as [H1 H2]; [discriminate |]. split; [exact H1 |].
      rewrite H2. reflexivity.
    + split; [discriminate | reflexivity].
Qed.

(** A half hull keeps its first point at the bottom, and has two
    points at least when it is given two. *)
Lemma half_hull_bottom (f : IndexedPoint num) (rest : list (IndexedPoint num)) :
  last (half_hull (f :: rest)) f = f /\
  (rest <> [] -> (2 <= List.length (half_hull (f :: rest)))%nat).
Proof.
  unfold half_hull. cbn [fold_left pop_right_turns].
  assert (H : forall pts stack,
    stack <> [] -> last stack f = f ->
    let r := fold_left (fun stack p => p :: pop_right_turns stack p) pts stack in
    last r f = f /\ (pts <> [] -> (2 <= List.length r)%nat)).
  { induction pts as [| p pts IH]; intros stack Hne Hlast; cbn [fold_left].
    - split; [exact Hlast | congruence].
    - destruct (pop_right_turns_bottom p f Hne) as [Hne' Hlast'].
      destruct (IH (p :: pop_right_turns stack p)) as [H1 H2].
      + discriminate.
      + destruct (pop_right_turns stack p) as [| q s] eqn:E; [congruence |].
        cbn [last] in *. rewrite Hlast'. exact Hlast.
      + split; [exact H1 |]. intros _.
        destruct pts as [| p' pts'].
        * cbn [fold_left]. destruct (pop_right_turns stack p); [congruence |].
          simpl. lia.
        * apply H2. discriminate. }
  apply H; [discriminate | reflexivity].
Qed.

Lemma rev_tl_head {A} (l : list A) (d : A) :
  (2 <= List.length l)%nat -> In (last l d) (rev (tl l)).
Proof.
  intros H. apply -> in_rev.
  destruct l as [| x [| y r]]; simpl in H; try lia.
  cbn [tl]. change (last (x :: y :: r) d) with (last (y :: r) d).
  generalize (y :: r) (@nil_cons _ y r). clear.
  induction l as [| z l IH]; [congruence |]. intros _.
  destruct l as [| w l']; [left; reflexivity |].
  right. apply IH. discriminate.
Qed.

Lemma indexed_pidx_range (points : list (num * num)) :
  map (@pidx num) (indexed points) = range (List.length points).
Proof.
  unfold indexed, range. rewrite map_map.
  generalize 0%nat. induction points as [| p r IH]; intros k; simpl; [reflexivity |].
  f_equal. apply IH.
Qed.

Lemma first_last_distinct {A B} (f : A -> B) (x : A) (l : list A) :
  l <> [] -> NoDup (map f (x :: l)) -> f x <> f (last (x :: l) x).
Proof.
  intros Hne Hnd. inversion Hnd as [| ? ? Hnotin _]; subst.
  intros E. apply Hnotin. rewrite E. apply in_map.
  destruct l as [| y r]; [congruence |].
  change (last (x :: y :: r) x) with (last (y :: r) x).
  generalize (y :: r) (@nil_cons _ y r). clear.
  induction l as [| z l IH]; [congruence |]. intros _.
  destruct l as [| w l']; [left; reflexivity |].
  right. apply IH. discriminate.
Qed.

Lemma last_rev_head {A} (x : A) (l : list A) (d : A) :
  exists g rest, rev (x :: l) = g :: rest /\ g = last (x :: l) d /\
                 last (g :: rest) d = x.
Proof.
  destruct (rev (x :: l)) as [| g rest] eqn:E.
  - apply (f_equal (@List.length A)) in E. rewrite length_rev in E. discriminate.
  - exists g, rest. split; [reflexivity |].
    assert (E' : x :: l = rev (g :: rest)) by (rewrite <- E, rev_involutive; reflexivity).
    split.
    + rewrite E'. cbn [rev]. rewrite last_last. reflexivity.
    + assert (E2 : g :: rest = rev l ++ [x]) by (rewrite <- E; reflexivity).
      rewrite E2. apply last_last.
Qed.

(** Two points or more give a hull of two indices or more. *)
Lemma convexHullIndices_at_least_two (points : list (num * num)) :
  (2 <= List.length points)%nat ->
  (2 <= List.length (convexHullIndices points))%nat.
Proof.
  intros Hlen. pose proof (convexHullIndices_spec points) as [Hnd _].
  unfold convexHullIndices in *.
  destruct (Nat.leb_spec (List.length points) 1); [lia |].
  set (sorted := js_sort by_x_then_y (indexed points)) in *.
  assert (Hperm : Permutation sorted (indexed points)) by apply js_sort_perm.
  assert (Hslen : List.length sorted = List.length points).
  { rewrite (Permutation_length Hperm). unfold indexed.
    rewrite length_map, length_combine. unfold range. rewrite length_seq. lia. }
  assert (Hsnd : NoDup (map (@pidx num) sorted)).
  { eapply Permutation_NoDup; [apply Permutation_map, Permutation_sym, Hperm |].
    rewrite indexed_pidx_range. apply seq_NoDup. }
  destruct sorted as [| f rest] eqn:Es; [simpl in Hslen; lia |].
  assert (Hrest : rest <> []) by (destruct rest; [simpl in Hslen; lia | discriminate]).
  destruct (last_rev_head f rest f) as (g & rest' & Erev & Eg & Elast).
  assert (Hrest' : rest' <> []).
  { intros ->. apply (f_equal (@List.length _)) in Erev. rewrite length_rev in Erev.
    destruct rest; [congruence | discriminate]. }
  destruct (half_hull_bottom f rest) as [Hlf Hl2]. specialize (Hl2 Hrest).
  rewrite Erev in *.
  destruct (half_hull_bottom g rest') as [Hug Hu2]. specialize (Hu2 Hrest').
  set (lower := half_hull (f :: rest)) in *.
  set (upper := half_hull (g :: rest')) in *.
  set (hull := dedupe [] (map (@pidx num) (rev (tl lower) ++ rev (tl upper)))) in *.
  assert (Hf : In (pidx f) hull).
  { apply dedupe_spec. split; [| intros []]. apply in_map. apply in_or_app. left.
    rewrite <- Hlf at 1. apply rev_tl_head. exact Hl2. }
  assert (Hg : In (pidx g) hull).
  { apply dedupe_spec. split; [| intros []]. apply in_map. apply in_or_app. right.
    rewrite <- Hug at 1. apply rev_tl_head. exact Hu2. }
  assert (Hfg : pidx f <> pidx g).
  { rewrite Eg. apply first_last_distinct; assumption. }
  destruct hull as [| a [| b r]]; simpl in *; try tauto; try lia.
Qed.

End HullSize.

(** ** The gradient on a line *)

Section GradientFacts.
Context {num : Type} {N : Number num}.
Local Open Scope num_scope.

Lemma pairs_In {A} (l : list A) (a b : A) :
  In (a, b) (pairs l) -> In a l /\ In b l.
Proof.
  induction l as [| x r IH]; simpl; [tauto |].
  intros H. apply in_app_or in H. destruct H as [H | H].
  - apply in_map_iff in H. destruct H as (y & E & Hy). inversion E; subst. auto.
  - destruct (IH H). auto.
Qed.

Lemma pairs_distinct {A} (l : list A) (a b : A) :
  NoDup l -> In (a, b) (pairs l) -> a <> b.
Proof.
  induction 1 as [| x r Hx Hr IH]; simpl; [tauto |].
  intros H. apply in_app_or in H. destruct H as [H | H]; auto.
  apply in_map_iff in H. destruct H as (y & E & Hy). inversion E; subst.
  intros ->. contradiction.
Qed.

(** The search returns its initial value or a pair of hull points with
    their squared distance. *)
Lemma farthest_pair_sq_from_pairs (positions : list (num * num)) (hull : list nat) :
  let '(m, a, b) := farthest_pair_sq positions hull in
  (m, a, b) = (zero, O, O) \/
  (In (a, b) (pairs hull) /\ m = dist2 positions a b).
Proof.
  unfold farthest_pair_sq.
  assert (H : forall l init,
    (let '(m, a, b) := init in
       (m, a, b) = (zero, O, O) \/ (In (a, b) (pairs hull) /\ m = dist2 positions a b)) ->
    incl l (pairs hull) ->
    let '(m, a, b) :=
      fold_left (fun '(maxDist, endA, endB) '(hi, hj) =>
                   let dSq := dist2 positions hi hj in
                   if dSq >? maxDist then (dSq, hi, hj) else (maxDist, endA, endB))
                l init in
    (m, a, b) = (zero, O, O) \/ (In (a, b) (pairs hull) /\ m = dist2 positions a b)).
  { induction l as [| [hi hj] r IH]; intros [[m a] b] Hinit Hincl; simpl; auto.
    apply IH; [| intros x Hx; apply Hincl; right; exact Hx].
    destruct (_ <? _); auto.
    right. split; [apply Hincl; left |]; reflexivity. }
  apply (H (pairs hull) (zero, O, O)); [left; reflexivity | apply incl_refl].
Qed.

Lemma push_apart_entries (m : nat) (a b : nat) (wx wy : num) :
  a <> b -> (2 * a + 1 < m)%nat -> (2 * b + 1 < m)%nat ->
  let g := push_apart (repeat zero m) a b wx wy in
  List.length g = m /\
  array_get g (2 * a) = zero - wx /\
  array_get g (2 * a + 1) = zero - wy /\
  array_get g (2 * b) = zero + wx /\
  array_get g (2 * b + 1) = zero + wy /\
  forall k, (k < m)%nat ->
    k <> (2 * a)%nat -> k <> (2 * a + 1)%nat ->
    k <> (2 * b)%nat -> k <> (2 * b + 1)%nat ->
    array_get g k = zero.
Proof.
  intros Hab Ha Hb g. unfold g, push_apart, array_sub_at, array_add_at.
  assert (L : forall a k v, List.length a = m -> (k < m)%nat ->
                List.length (array_set a k v) = m).
  { intros l k v Hl Hk. rewrite array_set_length; lia. }
  split; [repeat (apply L; [| lia]); apply repeat_length |].
  repeat split.
  - rewrite !array_get_set_other by lia. rewrite array_get_set_same.
    rewrite array_get_repeat by lia. reflexivity.
  - rewrite !array_get_set_other by lia. rewrite array_get_set_same.
    rewrite !array_get_set_other by lia. rewrite array_get_repeat by lia. reflexivity.
  - rewrite !array_get_set_other by lia. rewrite array_get_set_same.
    rewrite !array_get_set_other by lia. rewrite array_get_repeat by lia. reflexivity.
  - rewrite array_get_set_same.
    rewrite !array_get_set_other by lia. rewrite array_get_repeat by lia. reflexivity.
  - intros k Hk H1 H2 H3 H4.
    rewrite !array_get_set_other by lia. apply array_get_repeat. lia.
Qed.

End GradientFacts.

Section GradientTheorem.
Context {num : Type} {N : Number num}.
Local Open Scope num_scope.

Lemma perimeterGradient_collinear_generic
  (la : LinAlg num) (config : Configuration num) (m : num) (a b : nat) :
  List.length config.(positions) = config.(n) ->
  isCollinear la config.(positions) = true ->
  (sqrt zero <? lit_1e15) = true ->
  farthest_pair_sq config.(positions) (convexHullIndices config.(positions))
    = (m, a, b) ->
  (sqrt m <? lit_1e15) = false ->
  let hull := convexHullIndices config.(positions) in
  let pa := hull_point config.(positions) a in
  let pb := hull_point config.(positions) b in
  let ux := (fst pb - fst pa) / sqrt m in
  let uy := (snd pb - snd pa) / sqrt m in
  let g := perimeterGradient la config in
  In (a, b) (pairs hull) /\ a <> b /\ m = dist2 config.(positions) a b /\
  List.length g = (2 * config.(n))%nat /\
  array_get g (2 * a) = zero - two * ux /\
  array_get g (2 * a + 1) = zero - two * uy /\
  array_get g (2 * b) = zero + two * ux /\
  array_get g (2 * b + 1) = zero + two * uy /\
  forall k, (k < 2 * config.(n))%nat ->
    k <> (2 * a)%nat -> k <> (2 * a + 1)%nat ->
    k <> (2 * b)%nat -> k <> (2 * b + 1)%nat ->
    array_get g k = zero.
Proof.
  intros Hlen Hcol Hzero Hfar Hdist hull pa pb ux uy g.
  destruct (convexHullIndices_spec config.(positions)) as [Hnd Hidx].
  fold hull in Hfar, Hnd, Hidx.
  pose proof (farthest_pair_sq_from_pairs config.(positions) hull) as Hfrom.
  rewrite Hfar in Hfrom.
  assert (Hpair : In (a, b) (pairs hull) /\ m = dist2 config.(positions) a b).
  { destruct Hfrom as [E | H]; [| exact H].
    injection E as -> -> ->. congruence. }
  destruct Hpair as [Hin Hm].
  destruct (pairs_In _ _ _ Hin) as [Ha Hb].
  assert (Hab : a <> b) by (eapply pairs_distinct; eauto).
  apply Hidx in Ha, Hb. rewrite Hlen in Ha, Hb.
  assert (Hhull : (List.length hull <=? 1)%nat = false).
  { apply Nat.leb_gt. destruct hull as [| x [| y r]]; simpl in *; try tauto; lia. }
  assert (Hg : g = push_apart (repeat zero (2 * config.(n))) a b (two * ux) (two * uy)).
  { unfold g, perimeterGradient. fold hull. rewrite Hhull, Hcol.
    unfold collinear_gradient. rewrite Hfar, Hdist. reflexivity. }
  split; [exact Hin |]. split; [exact Hab |]. split; [exact Hm |].
  rewrite Hg. apply push_apart_entries; lia.
Qed.

End GradientTheorem.

(* ================================================================== *)
(** * 21. The Hessian engine returns *)
(* ================================================================== *)

Section Totality.
Context {num : Type} {N : Number num}.
Local Open Scope num_scope.

Lemma mat_add_at_ok (H : Matrix num) (r c : nat) (v : num) :
  (r < List.length H)%nat ->
  exists H', mat_add_at H r c v = Ok H' /\ List.length H' = List.length H.
Proof.
  intros Hr. unfold mat_add_at.
  destruct (nth_error H r) as [row |] eqn:E.
  - eexists. split; [reflexivity |].
    rewrite length_app. cbn [List.length]. rewrite length_firstn, length_skipn. lia.
  - apply nth_error_None in E. lia.
Qed.

Lemma addBlock_ok (H block : Matrix num) (row col : nat) (sign : num) :
  (2 * row + 1 < List.length H)%nat ->
  exists H', addBlock H block row col sign = Ok H' /\
             List.length H' = List.length H.
Proof.
  intros Hr. unfold addBlock.
  destruct (@mat_add_at_ok H (2 * row) (2 * col) (sign * mat_get block 0 0))
    as (H1 & -> & L1); [lia |]. cbn [bind].
  destruct (@mat_add_at_ok H1 (2 * row) (2 * col + 1) (sign * mat_get block 0 1))
    as (H2 & -> & L2); [lia |]. cbn [bind].
  destruct (@mat_add_at_ok H2 (2 * row + 1) (2 * col) (sign * mat_get block 1 0))
    as (H3 & -> & L3); [lia |]. cbn [bind].
  destruct (@mat_add_at_ok H3 (2 * row + 1) (2 * col + 1) (sign * mat_get block 1 1))
    as (H4 & -> & L4); [lia |].
  exists H4. split; [reflexivity | lia].
Qed.

Lemma add_edge_blocks_ok (H block : Matrix num) (u v : nat) :
  (2 * u + 1 < List.length H)%nat -> (2 * v + 1 < List.length H)%nat ->
  exists H', add_edge_blocks H block u v = Ok H' /\
             List.length H' = List.length H.
Proof.
  intros Hu Hv. unfold add_edge_blocks.
  destruct (@addBlock_ok H block u u one) as (H1 & -> & L1); [lia |]. cbn [bind].
  destruct (@addBlock_ok H1 block v v one) as (H2 & -> & L2); [lia |]. cbn [bind].
  destruct (@addBlock_ok H2 block u v (- one)) as (H3 & -> & L3); [lia |]. cbn [bind].
  destruct (@addBlock_ok H3 block v u (- one)) as (H4 & -> & L4); [lia |].
  exists H4. split; [reflexivity | lia].
Qed.

Lemma zeros_length (dim : nat) : List.length (zeros dim) = dim.
Proof. apply repeat_length. Qed.

Lemma farthest_pair_ends (positions : list (num * num)) (hull : list nat) (n : nat) :
  (0 < n)%nat -> (forall i, In i hull -> (i < n)%nat) ->
  let '(_, a, b) := farthest_pair positions hull in (a < n)%nat /\ (b < n)%nat.
Proof.
  intros Hn Hhull. unfold farthest_pair.
  assert (Hnth : forall k, (nth k hull O < n)%nat).
  { intros k. destruct (nth_in_or_default k hull O) as [Hin | ->]; auto. }
  assert (H : forall l init,
    (let '(_, a, b) := init in (a < n)%nat /\ (b < n)%nat) ->
    incl l (pairs hull) ->
    let '(_, a, b) :=
      fold_left (fun '(maxDist, endA, endB) '(hi, hj) =>
                   let d := sqrt (dist2 positions hi hj) in
                   if d >? maxDist then (d, hi, hj) else (maxDist, endA, endB))
                l init in
    (a < n)%nat /\ (b < n)%nat).
  { induction l as [| [hi hj] r IH]; intros [[m a] b] Hinit Hincl; cbn [fold_left]; auto.
    apply IH; [| intros x Hx; apply Hincl; right; exact Hx].
    destruct (_ <? _); auto.
    destruct (pairs_In hull hi hj (Hincl _ (or_introl eq_refl))). auto. }
  apply H; [auto | apply incl_refl].
Qed.

Lemma collinear_hessian_ok (positions : list (num * num)) (hull : list nat)
  (H : Matrix num) (n : nat) :
  (0 < n)%nat -> (forall i, In i hull -> (i < n)%nat) ->
  List.length H = (2 * n)%nat ->
  exists H', collinear_hessian positions hull H = Ok H' /\
             List.length H' = (2 * n)%nat.
Proof.
  intros Hn Hhull HL. unfold collinear_hessian.
  pose proof (farthest_pair_ends positions hull Hn Hhull) as Hends.
  destruct (farthest_pair positions hull) as [[m a] b]. destruct Hends as [Ha Hb].
  destruct (_ <? _); [| exists H; auto].
  match goal with
  | |- context [add_edge_blocks H ?blk a b] =>
      destruct (@add_edge_blocks_ok H blk a b) as (H' & E & L); [lia | lia |]
  end.
  exists H'. split; [exact E | lia].
Qed.

Lemma polygon_hessian_ok (positions : list (num * num))
  (edges : list (nat * nat)) (H : Matrix num) (n : nat) :
  (forall u v, In (u, v) edges -> (u < n)%nat /\ (v < n)%nat) ->
  List.length H = (2 * n)%nat ->
  exists H', polygon_hessian positions edges H = Ok H' /\
             List.length H' = (2 * n)%nat.
Proof.
  revert H. induction edges as [| [u v] rest IH]; intros H Hedges HL; cbn [polygon_hessian].
  - exists H. auto.
  - destruct (Hedges u v (or_introl eq_refl)) as [Hu Hv].
    assert (Hrest : forall x y, In (x, y) rest -> (x < n)%nat /\ (y < n)%nat)
      by (intros x y Hxy; apply Hedges; right; exact Hxy).
    destruct (_ <? _); [apply IH; assumption |].
    match goal with
    | |- context [add_edge_blocks H ?blk u v] =>
        destruct (@add_edge_blocks_ok H blk u v) as (H' & -> & L); [lia | lia |]
    end.
    cbn [bind]. apply IH; [assumption | lia].
Qed.

Lemma cyclic_edges_In {A} (l : list A) (a b : A) :
  In (a, b) (cyclic_edges l) -> In a l /\ In b l.
Proof.
  unfold cyclic_edges. destruct l as [| x r]; [intros [] |].
  intros H. split; [eapply in_combine_l; eauto |].
  apply in_combine_r in H. apply in_app_or in H.
  destruct H as [H | [<- | []]]; [right; exact H | left; reflexivity].
Qed.

(** For one centre per disk and at least one disk the ambient
    Euclidean Hessian is assembled without exception. *)
Lemma buildEuclideanHessian_ok (la : LinAlg num) (config : Configuration num) :
  List.length config.(positions) = config.(n) -> (0 < config.(n))%nat ->
  exists H, buildEuclideanHessian la config = Ok H /\
            List.length H = (2 * config.(n))%nat.
Proof.
  intros Hlen Hn. unfold buildEuclideanHessian.
  destruct (convexHullIndices_spec config.(positions)) as [_ Hidx].
  rewrite Hlen in Hidx.
  destruct (isCollinear la config.(positions)).
  - apply collinear_hessian_ok; auto using zeros_length.
  - apply polygon_hessian_ok; auto using zeros_length.
    intros u v Huv. apply cyclic_edges_In in Huv. destruct Huv. auto.
Qed.

Lemma geometric_blocks_ok (positions : list (num * num)) (lambdas : list num)
  (idx : nat) (cs : list Contact) (H : Matrix num) :
  in_range (List.length positions) cs ->
  List.length H = (2 * List.length positions)%nat ->
  exists H', geometric_blocks positions lambdas idx cs H = Ok H' /\
             List.length H' = (2 * List.length positions)%nat.
Proof.
  intros Hr. revert idx H.
  induction Hr as [| [i j] cs [Hi Hj] Hcs IH]; intros idx H HL; cbn [geometric_blocks].
  - exists H. auto.
  - cbn [fst snd] in Hi, Hj.
    rewrite (point_at_in_range _ Hj), (point_at_in_range _ Hi).
    destruct (_ <? _); [apply IH; assumption |].
    match goal with
    | |- context [add_edge_blocks H ?blk ?u ?v] =>
        destruct (@add_edge_blocks_ok H blk u v) as (H' & -> & L); [lia | lia |]
    end.
    cbn [bind]. apply IH. lia.
Qed.

(** The Hessian engine returns a result whenever the contact matrix
    can be built. *)
Theorem computeHessian_total (la : LinAlg num) (config : Configuration num)
  (R : Matrix num) :
  well_formed config -> (0 < config.(n))%nat ->
  (exists A, buildContactMatrix config = Ok A) ->
  exists res, computeHessian la config R = Ok res.
Proof.
  intros [Hlen Hrange] Hn (A & HA). unfold computeHessian.
  destruct (rollDim R =? 0)%nat; [eauto |].
  destruct (buildEuclideanHessian_ok la config Hlen Hn) as (HE & -> & LE).
  cbn [bind]. rewrite HA. cbn [bind].
  unfold buildGeometricHessian.
  destruct (@geometric_blocks_ok config.(positions)
              (solveLagrangeMultipliers la A (perimeterGradient la config)) 0
              config.(contacts) (zeros (2 * config.(n)))) as (HG & -> & LG).
  - rewrite Hlen. exact Hrange.
  - rewrite zeros_length, Hlen. reflexivity.
  - cbn [bind]. eauto.
Qed.

End Totality.

(* ================================================================== *)
(** * 22. Properties in exact arithmetic *)
(* ================================================================== *)

Section ExactFacts.
Local Open Scope R_scope.

(** ** Comparisons *)

Lemma Rltb_true (a b : R) : a < b -> Rltb a b = true.
Proof. intros H. unfold Rltb. destruct (Rlt_dec a b); [reflexivity | contradiction]. Qed.
Lemma Rltb_false (a b : R) : ~ a < b -> Rltb a b = false.
Proof. intros H. unfold Rltb. destruct (Rlt_dec a b); [contradiction | reflexivity]. Qed.
Lemma Rltb_lt (a b : R) : Rltb a b = true <-> a < b.
Proof. unfold Rltb. destruct (Rlt_dec a b); split; auto; discriminate. Qed.
Lemma Rltb_ge (a b : R) : Rltb a b = false <-> b <= a.
Proof. unfold Rltb. destruct (Rlt_dec a b); split; auto; try discriminate; lra. Qed.



#[local] Instance order_laws : OrderLaws (fun _ : R => True).
Proof.
  split; auto; simpl.
  - intros a b _ _ H. apply Rltb_lt in H. apply Rltb_ge. lra.
  - intros a b c _ _ _ H1 H2. apply Rltb_ge in H1, H2. apply Rltb_ge. lra.
  - intros a b _ _. unfold Rltb. destruct (Rlt_dec (a - b) 0), (Rlt_dec a b); auto; lra.
Qed.

(** ** The spectrum of a free disk *)

Lemma one_disk_hessian :
  exists res, computeHessian ExactScenario.sample_library ExactScenario.one_disk ExactScenario.identity2 = Ok res.
Proof.
  unfold computeHessian. simpl rollDim. cbv iota beta.
  assert (E : buildEuclideanHessian ExactScenario.sample_library ExactScenario.one_disk = Ok (zeros 2)).
  { unfold buildEuclideanHessian, collinear_hessian. simpl.
    rewrite Rltb_false by lra. reflexivity. }
  rewrite E. cbn [bind]. 
  change (buildContactMatrix ExactScenario.one_disk) with (@Ok (Matrix R) []). cbn [bind].
  change (solveLagrangeMultipliers ExactScenario.sample_library [] (perimeterGradient ExactScenario.sample_library ExactScenario.one_disk)) with (@nil R).
  change (buildGeometricHessian ExactScenario.one_disk []) with (Ok (zeros (N:=number) 2)). cbn [bind].
  eexists. reflexivity.
Qed.

(** ** The gradient on a line *)

Lemma dist2_nonneg (positions : list (R * R)) (a b : nat) :
  0 <= dist2 positions a b.
Proof.
  unfold dist2, pow2.
  set (x := (_ - _)%num). set (y := (_ - _)%num).
  change (0 <= x * x + y * y). nra.
Qed.

Lemma fold_farthest (f : nat -> nat -> R) (l : list (nat * nat))
  (init : R * nat * nat) (m : R) (a b : nat) :
  (forall x y, 0 <= f x y) ->
  0 <= fst (fst init) ->
  fold_left (fun '(maxDist, endA, endB) '(hi, hj) =>
               let dSq := f hi hj in
               if Rltb maxDist dSq then (dSq, hi, hj) else (maxDist, endA, endB))
            l init = (m, a, b) ->
  fst (fst init) <= m /\
  forall hi hj, In (hi, hj) l -> f hi hj <= m.
Proof.
  intros Hf. revert init.
  induction l as [| [hi hj] r IH]; intros [[m0 a0] b0] H0 E;
    cbn [fold_left fst] in *.
  - injection E as <- _ _. split; [lra | intros ? ? []].
  - pose proof (Hf hi hj) as Hd.
    destruct (Rltb m0 (f hi hj)) eqn:Hlt.
    + apply Rltb_lt in Hlt. apply IH in E; [| exact Hd].
      cbn [fst] in E. destruct E as [E1 E2]. split; [lra |].
      intros x y [Hxy | Hxy]; [inversion Hxy; subst; lra | auto].
    + apply Rltb_ge in Hlt. apply IH in E; [| exact H0].
      cbn [fst] in E. destruct E as [E1 E2]. split; [lra |].
      intros x y [Hxy | Hxy]; [inversion Hxy; subst; lra | auto].
Qed.

(** In exact arithmetic the search returns a largest squared distance. *)
Lemma farthest_pair_sq_max (positions : list (R * R)) (hull : list nat)
  (m : R) (a b : nat) :
  farthest_pair_sq positions hull = (m, a, b) ->
  0 <= m /\
  forall hi hj, In (hi, hj) (pairs hull) -> dist2 positions hi hj <= m.
Proof.
  intros E.
  apply (fold_farthest (dist2 positions) (pairs hull) (0, O, O)) in E.
  - exact E.
  - apply dist2_nonneg.
  - cbn [fst]. lra.
Qed.

(** A vector divided by its length has length 1. *)
Lemma direction_unit (dx dy m : R) :
  m = dx * dx + dy * dy ->
  Rltb (R_sqrt.sqrt m) 1e-15 = false ->
  (dx / R_sqrt.sqrt m) * (dx / R_sqrt.sqrt m)
  + (dy / R_sqrt.sqrt m) * (dy / R_sqrt.sqrt m) = 1.
Proof.
  intros Hm Hd. apply Rltb_ge in Hd.
  assert (Hs : 0 < R_sqrt.sqrt m) by lra.
  assert (Hm0 : 0 <= m) by (rewrite Hm; nra).
  assert (Hsq : R_sqrt.sqrt m * R_sqrt.sqrt m = m) by (apply sqrt_sqrt; exact Hm0).
  set (s := R_sqrt.sqrt m) in *.
  replace (dx / s * (dx / s) + dy / s * (dy / s))
    with ((dx * dx + dy * dy) * (/ s * / s)) by (unfold Rdiv; ring).
  rewrite <- Hm, <- Hsq. field. lra.
Qed.

Lemma perimeterGradient_collinear_exact
  (la : LinAlg R) (config : Configuration R) (m : R) (a b : nat) :
  farthest_pair_sq config.(positions) (convexHullIndices config.(positions))
    = (m, a, b) ->
  ((sqrt m <? lit_1e15)%num = false) ->
  let hull := convexHullIndices config.(positions) in
  let pa := hull_point config.(positions) a in
  let pb := hull_point config.(positions) b in
  let ux := (fst pb - fst pa) / R_sqrt.sqrt m in
  let uy := (snd pb - snd pa) / R_sqrt.sqrt m in
  (forall hi hj, In (hi, hj) (pairs hull) ->
     dist2 config.(positions) hi hj <= dist2 config.(positions) a b) /\
  ux * ux + uy * uy = 1 /\
  R_sqrt.sqrt ((2 * ux) * (2 * ux) + (2 * uy) * (2 * uy)) = 2 /\
  (0 - 2 * ux = - (0 + 2 * ux)) /\ (0 - 2 * uy = - (0 + 2 * uy)).
Proof.
  intros Hfar Hdist hull pa pb ux uy.
  pose proof (farthest_pair_sq_max _ _ Hfar) as [Hm0 Hmax].
  pose proof (farthest_pair_sq_from_pairs config.(positions) hull) as Hfrom.
  fold hull in Hfar. rewrite Hfar in Hfrom.
  assert (Hm : m = dist2 config.(positions) a b).
  { destruct Hfrom as [E | [_ H]]; [| exact H].
    injection E as -> -> ->. simpl in Hdist. rewrite sqrt_0 in Hdist.
    apply Rltb_ge in Hdist. lra. }
  assert (Hu : ux * ux + uy * uy = 1).
  { apply direction_unit; [| exact Hdist]. rewrite Hm. reflexivity. }
  split; [intros hi hj Hin; rewrite <- Hm; apply Hmax; exact Hin |].
  split; [exact Hu |].
  split; [| split; lra].
  replace (2 * ux * (2 * ux) + 2 * uy * (2 * uy)) with (2 * 2) by nra.
  apply sqrt_square. lra.
Qed.


(** ** Centres on a line *)


Lemma sums_on_a_line (a b c : R) (points : list (R * R)) (sx sy : R) :
  (forall p, In p points -> a * fst p + b * snd p = c) ->
  a * fold_left (fun s p => s + fst p) points sx
  + b * fold_left (fun s p => s + snd p) points sy
  = a * sx + b * sy + INR (List.length points) * c.
Proof.
  revert sx sy. induction points as [| p r IH]; intros sx sy H.
  - simpl. lra.
  - cbn [fold_left]. rewrite IH by (intros q Hq; apply H; right; exact Hq).
    change (List.length (p :: r)) with (S (List.length r)). rewrite S_INR.
    pose proof (H p (or_introl eq_refl)). lra.
Qed.

Lemma centered_rows (a b c : R) (points : list (R * R)) :
  (forall p, In p points -> a * fst p + b * snd p = c) ->
  forall row, In row (centered points) ->
    exists x y, row = [x; y] /\ a * x + b * y = 0.
Proof.
  intros H row Hrow. unfold centered in Hrow.
  apply in_map_iff in Hrow. destruct Hrow as (p & <- & Hp).
  eexists. eexists. split; [reflexivity |].
  pose proof (@sums_on_a_line a b c points 0 0 H) as Hs.
  assert (Hn : INR (List.length points) <> 0).
  { apply not_0_INR. destruct points; [contradiction | discriminate]. }
  specialize (H p Hp).
  cbv [zero add sub div of_nat Exact.number] in *.
  set (SX := fold_left (fun s q => s + fst q) points 0) in *.
  set (SY := fold_left (fun s q => s + snd q) points 0) in *.
  set (n := INR (List.length points)) in *.
  assert (Hmean : a * (SX / n) + b * (SY / n) = c).
  { replace (a * (SX / n) + b * (SY / n)) with ((a * SX + b * SY) / n)
      by (field; exact Hn).
    rewrite Hs. field. exact Hn. }
  lra.
Qed.

Lemma gram_orthogonal (a b : R) (M : Matrix R) :
  (forall row, In row M -> exists x y, row = [x; y] /\ a * x + b * y = 0) ->
  let '(g11, g12, g22) := gram M in
  a * g11 + b * g12 = 0 /\ a * g12 + b * g22 = 0.
Proof.
  unfold gram.
  assert (H : forall init,
    (let '(g11, g12, g22) := init in a * g11 + b * g12 = 0 /\ a * g12 + b * g22 = 0) ->
    (forall row, In row M -> exists x y, row = [x; y] /\ a * x + b * y = 0) ->
    let '(g11, g12, g22) :=
      fold_left (fun '(g11, g12, g22) row =>
                   let x := array_get row 0 in
                   let y := array_get row 1 in
                   (g11 + x * x, g12 + x * y, g22 + y * y)) M init in
    a * g11 + b * g12 = 0 /\ a * g12 + b * g22 = 0).
  { induction M as [| row r IH]; intros [[g11 g12] g22] Hinit Hrows; cbn [fold_left].
    - exact Hinit.
    - apply IH; [| intros q Hq; apply Hrows; right; exact Hq].
      destruct (Hrows row (or_introl eq_refl)) as (x & y & -> & Hxy).
      unfold array_get. cbn [nth]. destruct Hinit as [H1 H2].
      assert (Hx : x * (a * x + b * y) = 0) by (rewrite Hxy; ring).
      assert (Hy : y * (a * x + b * y) = 0) by (rewrite Hxy; ring).
      split; lra. }
  intros Hrows. apply H; [split; lra | exact Hrows].
Qed.

(** The second singular value of the centred data of points on a line
    is 0. *)
Lemma second_singular_value_zero (points : list (R * R)) (s : list R) :
  on_a_line points ->
  singular_values (centered points) s ->
  array_get s 1 = 0.
Proof.
  intros (a & b & c & Hab & Hline) Hs.
  pose proof (@gram_orthogonal a b (centered points) (@centered_rows a b c points Hline)) as Hg.
  unfold singular_values in Hs.
  destruct s as [| s0 [| s1 s']]; try contradiction.
  destruct (gram (centered points)) as [[g11 g12] g22].
  destruct Hs as (Hord & _ & Hdet). destruct Hg as [H1 H2].
  unfold array_get. cbn [nth].
  assert (Hd : g11 * g22 - g12 * g12 = 0).
  { destruct Hab as [Ha | Hb].
    - apply (Rmult_eq_reg_l a); [| exact Ha].
      replace (a * (g11 * g22 - g12 * g12))
        with ((a * g11 + b * g12) * g22 - g12 * (a * g12 + b * g22)) by ring.
      rewrite H1, H2. ring.
    - apply (Rmult_eq_reg_l b); [| exact Hb].
      replace (b * (g11 * g22 - g12 * g12))
        with (g11 * (a * g12 + b * g22) - g12 * (a * g11 + b * g12)) by ring.
      rewrite H1, H2. ring. }
  rewrite Hd in Hdet.
  assert (H0 : s0 * s1 = 0) by nra.
  apply Rmult_integral in H0. destruct H0 as [H0 | H0]; lra.
Qed.

Lemma isCollinear_on_a_line (la : LinAlg R) (points : list (R * R)) :
  on_a_line points ->
  ((3 <= List.length points)%nat ->
   singular_values (centered points) (la.(SVD) (centered points)).(diagonal)) ->
  isCollinear la points = true.
Proof.
  intros Hline Hsvd. unfold isCollinear.
  destruct (Nat.ltb_spec (List.length points) 3) as [| Hge]; [reflexivity |].
  rewrite (@second_singular_value_zero points _ Hline (Hsvd Hge)).
  apply Rltb_true. cbv [zero lit_1e8 Exact.number]. lra.
Qed.



(** The distance of the vocabulary is the one the services compute
    between two hull points. *)
Lemma sqrt_dist2_distance (positions : list (R * R)) (a b : nat) :
  R_sqrt.sqrt (dist2 positions a b)
  = distance (hull_point positions a) (hull_point positions b).
Proof.
  unfold distance, dist_euc, dist2, pow2, Rsqr. f_equal.
  cbv [add sub mul Exact.number]. ring.
Qed.




Lemma pairs_complete {A} (l : list A) (a b : A) :
  In a l -> In b l -> a = b \/ In (a, b) (pairs l) \/ In (b, a) (pairs l).
Proof.
  induction l as [| x r IH]; cbn [pairs]; [intros [] |].
  intros [<- | Ha] [<- | Hb].
  - left. reflexivity.
  - right. left. apply in_or_app. left. apply in_map. exact Hb.
  - right. right. apply in_or_app. left. apply in_map. exact Ha.
  - destruct (IH Ha Hb) as [E | [H | H]]; auto;
      right; [left | right]; apply in_or_app; right; exact H.
Qed.




(** ** Rigid motions *)

(** In exact arithmetic the direction of a contact whose centres do
    not coincide is a unit vector. *)
Lemma direction_exact_unit (positions : list (R * R)) (c : Contact) :
  ~ coincident positions c ->
  let u := direction positions c in
  fst u * fst u + snd u * snd u = 1.
Proof.
  intros Hc u. unfold u, direction. cbn [fst snd].
  unfold coincident in Hc. apply not_true_is_false in Hc.
  unfold centre_distance in *.
  set (dx := (fst (centre positions (snd c)) - fst (centre positions (fst c)))%num) in *.
  set (dy := (snd (centre positions (snd c)) - snd (centre positions (fst c)))%num) in *.
  apply (@direction_unit dx dy (dx * dx + dy * dy) eq_refl). exact Hc.
Qed.


Lemma dot_from_shift (s : R) (a b : list R) :
  dot_from s a b = s + dot_from (0 : R) a b.
Proof.
  revert s b. induction a as [| x a IH]; intros s [| y b]; cbn [dot_from]; try lra.
  rewrite (IH (s + x * y)%num), (IH (0 + x * y)%num).
  cbv [add mul zero Exact.number]. lra.
Qed.

Lemma dot_repeat_zero (m : nat) (z : list R) : dot (repeat (0 : R) m) z = 0.
Proof.
  unfold dot. revert z. induction m as [| m IH]; intros [| y z]; cbn [repeat dot_from]; try reflexivity.
  rewrite dot_from_shift, IH. cbv [add mul zero Exact.number]. lra.
Qed.

Lemma dot_array_set (a z : list R) (k : nat) (v : R) :
  (k < List.length a)%nat -> List.length z = List.length a ->
  dot (array_set a k v) z = dot a z + (v - array_get a k) * array_get z k.
Proof.
  unfold dot, array_get. revert z k.
  induction a as [| x a IH]; intros [| y z] k Hk Hz; cbn [List.length] in *; try lia.
  destruct k as [| k]; cbn [array_set dot_from nth].
  - rewrite (dot_from_shift (0 + v * y)%num), (dot_from_shift (0 + x * y)%num).
    cbv [add mul zero Exact.number]. lra.
  - rewrite (dot_from_shift (0 + x * y)%num a z).
    rewrite (dot_from_shift (0 + x * y)%num (array_set a k v) z).
    rewrite IH by lia. cbv [add mul zero Exact.number]. lra.
Qed.


Lemma flatten_length (vs : list (R * R)) :
  List.length (flatten vs) = (2 * List.length vs)%nat.
Proof.
  unfold flatten. induction vs as [| v vs IH]; cbn [flat_map List.length app]; lia.
Qed.

Lemma flatten_get (vs : list (R * R)) (i : nat) :
  array_get (flatten vs) (2 * i) = fst (nth i vs (0, 0)) /\
  array_get (flatten vs) (2 * i + 1) = snd (nth i vs (0, 0)).
Proof.
  unfold array_get, flatten. revert i.
  induction vs as [| v vs IH]; intros i.
  - cbn [flat_map].
    assert (H0 : forall k, nth k (@nil R) 0 = 0) by (intros [| ?]; reflexivity).
    rewrite !H0. destruct i; auto.
  - destruct i as [| i]; [simpl; auto |].
    replace (2 * S i)%nat with (S (S (2 * i))) by lia.
    replace (S (S (2 * i)) + 1)%nat with (S (S (2 * i + 1))) by lia.
    cbn [flat_map app nth]. apply IH.
Qed.

(** A row of the contact matrix applied to velocities: the rate at
    which the two centres of its contact move apart along [u]. *)
Lemma contact_row_dot (n : nat) (i j : Z) (u : R * R) (vs : list (R * R)) :
  (0 <= i < Z.of_nat n)%Z -> (0 <= j < Z.of_nat n)%Z -> i <> j ->
  List.length vs = n ->
  let vi := nth (Z.to_nat i) vs (0, 0) in
  let vj := nth (Z.to_nat j) vs (0, 0) in
  dot (contact_row_of (2 * n) i j u) (flatten vs)
  = fst u * (fst vj - fst vi) + snd u * (snd vj - snd vi).
Proof.
  intros Hi Hj Hij Hvs vi vj. unfold contact_row_of.
  assert (Hz : List.length (flatten vs) = (2 * n)%nat)
    by (rewrite flatten_length; lia).
  assert (L : forall a k v, List.length a = (2 * n)%nat -> (k < 2 * n)%nat ->
                List.length (array_set a k v) = (2 * n)%nat).
  { intros a k v Ha Hk. rewrite array_set_length; lia. }
  assert (L0 : List.length (repeat (zero : R) (2 * n)) = (2 * n)%nat) by apply repeat_length.
  replace (Z.to_nat (2 * i)) with (2 * Z.to_nat i)%nat by lia.
  replace (Z.to_nat (2 * i + 1)) with (2 * Z.to_nat i + 1)%nat by lia.
  replace (Z.to_nat (2 * j)) with (2 * Z.to_nat j)%nat by lia.
  replace (Z.to_nat (2 * j + 1)) with (2 * Z.to_nat j + 1)%nat by lia.
  set (a := Z.to_nat i). set (b := Z.to_nat j).
  assert (Hab : a <> b) by (unfold a, b; lia).
  assert (Ha : (a < n)%nat) by (unfold a; lia).
  assert (Hb : (b < n)%nat) by (unfold b; lia).
  destruct (flatten_get vs a) as [Ea0 Ea1]. destruct (flatten_get vs b) as [Eb0 Eb1].
  fold vi in Ea0, Ea1. fold vj in Eb0, Eb1.
  set (r0 := repeat (zero : R) (2 * n)) in *.
  set (r1 := array_set r0 (2 * a) (- fst u)%num).
  set (r2 := array_set r1 (2 * a + 1) (- snd u)%num).
  set (r3 := array_set r2 (2 * b) (fst u)).
  assert (L1 : List.length r1 = (2 * n)%nat) by (apply L; [exact L0 | lia]).
  assert (L2 : List.length r2 = (2 * n)%nat) by (apply L; [exact L1 | lia]).
  assert (L3 : List.length r3 = (2 * n)%nat) by (apply L; [exact L2 | lia]).
  rewrite (@dot_array_set r3) by (rewrite ?L3, ?Hz; lia). unfold r3 at 1.
  rewrite (@dot_array_set r2) by (rewrite ?L2, ?Hz; lia). unfold r2 at 1.
  rewrite (@dot_array_set r1) by (rewrite ?L1, ?Hz; lia). unfold r1 at 1.
  rewrite (@dot_array_set r0) by (rewrite ?L0, ?Hz; lia).
  unfold r3, r2, r1.
  rewrite !array_get_set_other by lia.
  unfold r0. rewrite !array_get_repeat by lia.
  rewrite dot_repeat_zero, Ea0, Ea1, Eb0, Eb1.
  cbv [neg zero Exact.number]. unfold vi, vj, a, b. ring.
Qed.

Lemma nth_map_in_range {A B} (f : A -> B) (l : list A) (k : nat) (d : A) (e : B) :
  (k < List.length l)%nat -> nth k (map f l) e = f (nth k l d).
Proof.
  intros Hk. rewrite (nth_indep _ e (f d)) by (rewrite length_map; exact Hk).
  apply map_nth.
Qed.

(** The two translations and the infinitesimal rotation of the plane
    are in the kernel of the contact matrix: the rolling space of a
    configuration always contains the rigid motions. *)
Theorem rigid_motions_in_kernel (config : Configuration R) (A : Matrix R) :
  well_formed config ->
  no_self_loops config.(contacts) ->
  buildContactMatrix config = Ok A ->
  forall row, In row A ->
    dot row (flatten (map (fun _ => (1, 0)) config.(positions))) = 0 /\
    dot row (flatten (map (fun _ => (0, 1)) config.(positions))) = 0 /\
    dot row (flatten (map (fun p => (- snd p, fst p)) config.(positions))) = 0.
Proof.
  intros [Hlen Hrange] Hloops HA row Hrow.
  assert (Hr : in_range (List.length config.(positions)) config.(contacts))
    by (rewrite Hlen; exact Hrange).
  unfold buildContactMatrix in HA.
  destruct (contact_rows_in_range (2 * config.(n)) config.(positions) Hr)
    as [(_ & msg & E) | (_ & E)]; rewrite E in HA; [discriminate |].
  assert (HA' := f_equal (fun r => match r with Ok a => a | Throw _ => [] end) HA).
  cbv beta iota in HA'. clear HA. subst A. apply in_map_iff in Hrow.
  destruct Hrow as ([i j] & <- & Hin). cbn [fst snd].
  unfold in_range in Hrange. rewrite Forall_forall in Hrange.
  destruct (Hrange _ Hin) as [Hi Hj]. cbn [fst snd] in Hi, Hj.
  unfold no_self_loops in Hloops. rewrite Forall_forall in Hloops.
  pose proof (Hloops _ Hin) as Hij. cbn [fst snd] in Hij.
  assert (Ha : (Z.to_nat i < List.length config.(positions))%nat) by lia.
  assert (Hb : (Z.to_nat j < List.length config.(positions))%nat) by lia.
  repeat split.
  - rewrite contact_row_dot by (rewrite ?length_map; auto).
    rewrite !(nth_map_in_range _ _ (0, 0) (0, 0)) by assumption.
    cbn [fst snd]. ring.
  - rewrite contact_row_dot by (rewrite ?length_map; auto).
    rewrite !(nth_map_in_range _ _ (0, 0) (0, 0)) by assumption.
    cbn [fst snd]. ring.
  - rewrite contact_row_dot by (rewrite ?length_map; auto).
    rewrite !(nth_map_in_range _ _ (0, 0) (0, 0)) by assumption.
    unfold direction, centre, hull_point. cbn [fst snd].
    cbv [undef sub div Exact.number]. unfold Rdiv. ring.
Qed.

End ExactFacts.

(* ================================================================== *)
(** * 23. Properties of binary64 *)
(* ================================================================== *)

(** The specification of binary64 that comes with the primitive
    numbers ([SpecFloat], [FloatAxioms]) gives the comparison and the
    subtraction as functions on mantissas and exponents.  What follows
    derives from it the facts the services rely on: [<] is a strict
    weak order on the numbers other than NaN, the sign of [a - b] is
    that of the comparison of [a] with [b], and [<] agrees with the
    order of the real numbers. *)

Section Binary64Order.
Local Open Scope Z_scope.

(** ** Mantissas *)

Lemma digits2_pos_bounds (m : positive) :
  2 ^ (Zpos (digits2_pos m) - 1) <= Zpos m < 2 ^ Zpos (digits2_pos m).
Proof.
  induction m as [p IH | p IH |]; cbn [digits2_pos].
  - rewrite Pos2Z.inj_succ, (Pos2Z.inj_xI p).
    replace (Z.succ (Zpos (digits2_pos p)) - 1)
      with (Z.succ (Zpos (digits2_pos p) - 1)) by lia.
    rewrite !Z.pow_succ_r by lia.
    generalize dependent (2 ^ (Zpos (digits2_pos p) - 1)).
    generalize (2 ^ Zpos (digits2_pos p)). intros; lia.
  - rewrite Pos2Z.inj_succ, (Pos2Z.inj_xO p).
    replace (Z.succ (Zpos (digits2_pos p)) - 1)
      with (Z.succ (Zpos (digits2_pos p) - 1)) by lia.
    rewrite !Z.pow_succ_r by lia.
    generalize dependent (2 ^ (Zpos (digits2_pos p) - 1)).
    generalize (2 ^ Zpos (digits2_pos p)). intros; lia.
  - simpl. lia.
Qed.

Lemma shr_1_mantissa (mrs : shr_record) :
  0 <= shr_m mrs -> shr_m (shr_1 mrs) = shr_m mrs / 2.
Proof.
  destruct mrs as [m r s]. cbn [shr_m]. intros Hm.
  destruct m as [| [p | p |] | p]; cbn [shr_1 shr_m].
  - reflexivity.
  - rewrite (Pos2Z.inj_xI p). apply Z.div_unique with (r := 1); lia.
  - rewrite (Pos2Z.inj_xO p). apply Z.div_unique with (r := 0); lia.
  - reflexivity.
  - lia.
Qed.

Lemma iter_shr_1_mantissa (p : positive) (mrs : shr_record) :
  0 <= shr_m mrs ->
  shr_m (iter_pos shr_1 p mrs) = shr_m mrs / 2 ^ Zpos p.
Proof.
  revert mrs. induction p as [p IH | p IH |]; intros mrs Hm; cbn [iter_pos].
  - assert (H1 : 0 <= shr_m (shr_1 mrs))
      by (rewrite shr_1_mantissa by exact Hm; apply Z.div_pos; lia).
    assert (H2 : 0 <= shr_m (iter_pos shr_1 p (shr_1 mrs)))
      by (rewrite IH by exact H1; apply Z.div_pos; [exact H1 | lia]).
    rewrite IH by exact H2. rewrite IH by exact H1.
    rewrite shr_1_mantissa by exact Hm.
    rewrite !Z.div_div by lia. f_equal.
    rewrite (Pos2Z.inj_xI p).
    replace (2 * Zpos p + 1) with (1 + Zpos p + Zpos p) by lia.
    rewrite !Z.pow_add_r by lia. lia.
  - assert (H2 : 0 <= shr_m (iter_pos shr_1 p mrs))
      by (rewrite IH by exact Hm; apply Z.div_pos; [exact Hm | lia]).
    rewrite IH by exact H2. rewrite IH by exact Hm.
    rewrite !Z.div_div by lia. f_equal.
    rewrite (Pos2Z.inj_xO p).
    replace (2 * Zpos p) with (Zpos p + Zpos p) by lia.
    rewrite !Z.pow_add_r by lia. lia.
  - rewrite shr_1_mantissa by exact Hm. reflexivity.
Qed.

Lemma iter_xO_value (d m : positive) :
  Zpos (Pos.iter xO m d) = Zpos m * 2 ^ Zpos d.
Proof.
  induction d as [| d IH] using Pos.peano_ind.
  - simpl. lia.
  - rewrite Pos.iter_succ, (Pos2Z.inj_xO (Pos.iter xO m d)), IH, Pos2Z.inj_succ, Z.pow_succ_r by lia.
    lia.
Qed.

(** [shl_align] keeps the value and reaches the lower exponent. *)
Lemma shl_align_value (m : positive) (e e' : Z) :
  let r := shl_align m e e' in
  snd r = Z.min e e' /\ Zpos (fst r) = Zpos m * 2 ^ (e - snd r).
Proof.
  unfold shl_align. destruct (e' - e) as [| d | d] eqn:E; cbn [fst snd].
  - split; [lia |]. replace (e - e) with 0 by lia. lia.
  - split; [lia |]. replace (e - e) with 0 by lia. lia.
  - split; [lia |]. rewrite iter_xO_value. f_equal. f_equal. lia.
Qed.

(** ** Comparison *)

(** What [valid_binary] says of a finite number. *)
Lemma valid_finite (s : bool) (m : positive) (e : Z) :
  valid_binary (S754_finite s m e) = true ->
  emin <= e /\ Zpos (digits2_pos m) <= prec /\
  (emin < e -> Zpos (digits2_pos m) = prec).
Proof.
  unfold SpecFloat.valid_binary, bounded, canonical_mantissa, fexp, SpecFloat.emin.
  intros H. apply andb_prop in H. destruct H as [H _].
  apply Z.eqb_eq in H. unfold prec, emax in *. lia.
Qed.

Lemma aligned_below (mx my : positive) (ex ey : Z) :
  valid_binary (S754_finite false mx ex) = true ->
  valid_binary (S754_finite false my ey) = true ->
  ex < ey ->
  Zpos mx < Zpos my * 2 ^ (ey - ex).
Proof.
  intros Vx Vy Hlt.
  destruct (@valid_finite _ _ _ Vx) as (Ex & Dx & _).
  destruct (@valid_finite _ _ _ Vy) as (Ey & _ & Dy).
  specialize (Dy ltac:(lia)).
  pose proof (digits2_pos_bounds mx) as [_ Bx].
  pose proof (digits2_pos_bounds my) as [By _].
  rewrite Dy in By.
  assert (Hx : Zpos mx < 2 ^ prec).
  { eapply Z.lt_le_trans; [exact Bx |]. apply Z.pow_le_mono_r; lia. }
  assert (Hp : 2 ^ 1 <= 2 ^ (ey - ex)) by (apply Z.pow_le_mono_r; lia).
  assert (Hq : 2 ^ prec = 2 ^ (prec - 1) * 2 ^ 1) by reflexivity.
  assert (0 < 2 ^ (prec - 1)) by (apply Z.pow_pos_nonneg; unfold prec; lia).
  nia.
Qed.

Lemma compare_finite (sx : bool) (mx : positive) (ex : Z)
  (sy : bool) (my : positive) (ey : Z) :
  valid_binary (S754_finite sx mx ex) = true ->
  valid_binary (S754_finite sy my ey) = true ->
  let ez := Z.min ex ey in
  SFcompare (S754_finite sx mx ex) (S754_finite sy my ey)
  = Some (aligned sx mx ex ez ?= aligned sy my ey ez).
Proof.
  intros Vx Vy ez.
  assert (Vx' : valid_binary (S754_finite false mx ex) = true) by exact Vx.
  assert (Vy' : valid_binary (S754_finite false my ey) = true) by exact Vy.
  assert (Px : 0 < Zpos mx * 2 ^ (ex - ez))
    by (apply Z.mul_pos_pos; [lia | apply Z.pow_pos_nonneg; lia]).
  assert (Py : 0 < Zpos my * 2 ^ (ey - ez))
    by (apply Z.mul_pos_pos; [lia | apply Z.pow_pos_nonneg; lia]).
  assert (Hcmp : (match ex ?= ey with
                  | Eq => Pos.compare_cont Eq mx my
                  | Lt => Lt
                  | Gt => Gt
                  end) = (Zpos mx * 2 ^ (ex - ez) ?= Zpos my * 2 ^ (ey - ez))).
  { destruct (Z.compare_spec ex ey) as [E | L | G].
    - subst ey. unfold ez. rewrite Z.min_id, Z.sub_diag. cbn [Z.pow].
      rewrite !Z.mul_1_r. reflexivity.
    - unfold ez. rewrite Z.min_l by lia. rewrite Z.sub_diag. cbn [Z.pow].
      rewrite Z.mul_1_r. symmetry. apply Z.compare_lt_iff.
      apply aligned_below; assumption.
    - unfold ez. rewrite Z.min_r by lia. rewrite Z.sub_diag. cbn [Z.pow].
      rewrite Z.mul_1_r. symmetry. apply Z.compare_gt_iff.
      apply aligned_below; assumption. }
  unfold aligned. destruct sx, sy; cbn [SFcompare cond_Zopp]; f_equal.
  - rewrite Z.compare_opp.
    rewrite (Z.compare_antisym (Zpos mx * 2 ^ (ex - ez))), <- Hcmp.
    destruct (ex ?= ey); reflexivity.
  - symmetry. apply Z.compare_lt_iff. lia.
  - symmetry. apply Z.compare_gt_iff. lia.
  - exact Hcmp.
Qed.

(** ** Rounding keeps the sign *)

Lemma shr_record_of_loc_m (m : Z) (l : location) :
  shr_m (shr_record_of_loc m l) = m.
Proof. destruct l as [| []]; reflexivity. Qed.

Lemma shr_fexp_positive (m : positive) (e : Z) (l : location) :
  emin <= e ->
  0 < shr_m (fst (shr_fexp prec emax (Zpos m) e l)) /\
  emin <= snd (shr_fexp prec emax (Zpos m) e l).
Proof.
  intros He. unfold shr_fexp, shr. cbn [Zdigits2].
  destruct (fexp prec emax (Zpos (digits2_pos m) + e) - e) as [| p | p] eqn:E;
    cbn [fst snd]; rewrite ?shr_record_of_loc_m; try (split; lia).
  rewrite iter_shr_1_mantissa by (rewrite shr_record_of_loc_m; lia).
  rewrite shr_record_of_loc_m.
  unfold fexp, SpecFloat.emin, prec, emax in *.
  assert (Hp : Zpos p = Zpos (digits2_pos m) - 53) by lia.
  split; [| lia].
  apply Z.div_str_pos. split; [apply Z.pow_pos_nonneg; lia |].
  pose proof (digits2_pos_bounds m) as [B _].
  eapply Z.le_trans; [| exact B]. apply Z.pow_le_mono_r; lia.
Qed.

Lemma round_nearest_even_positive (m : Z) (l : location) :
  0 < m -> 0 < round_nearest_even m l.
Proof.
  intros Hm. destruct l as [| []]; cbn [round_nearest_even];
    try destruct (Z.even m); lia.
Qed.

Lemma binary_round_aux_sign (s : bool) (m : positive) (e : Z) (l : location) :
  emin <= e ->
  let r := binary_round_aux prec emax s (Zpos m) e l in
  r = S754_infinity s \/ exists m' e', r = S754_finite s m' e'.
Proof.
  intros He r. unfold r, binary_round_aux.
  destruct (@shr_fexp_positive m e l He) as [H1 H2].
  destruct (shr_fexp prec emax (Zpos m) e l) as [mrs' e'].
  cbn [fst snd] in H1, H2.
  pose proof (@round_nearest_even_positive _ (loc_of_shr_record mrs') H1) as H3.
  destruct (round_nearest_even (shr_m mrs') (loc_of_shr_record mrs'))
    as [| q | q] eqn:E; try lia.
  destruct (@shr_fexp_positive q e' loc_Exact H2) as [H4 _].
  destruct (shr_fexp prec emax (Zpos q) e' loc_Exact) as [mrs'' e''].
  cbn [fst] in H4.
  destruct (shr_m mrs'') as [| q' | q']; try lia.
  destruct (e'' <=? emax - prec); [right; eauto | left; reflexivity].
Qed.

Lemma binary_round_sign (s : bool) (m : positive) (e : Z) :
  emin <= e ->
  let r := binary_round prec emax s m e in
  r = S754_infinity s \/ exists m' e', r = S754_finite s m' e'.
Proof.
  intros He. unfold binary_round.
  pose proof (shl_align_value m e (fexp prec emax (Zpos (digits2_pos m) + e)))
    as [Hs _].
  destruct (shl_align m e (fexp prec emax (Zpos (digits2_pos m) + e)))
    as [mz ez]. cbn [snd] in Hs.
  apply binary_round_aux_sign.
  unfold fexp in Hs. lia.
Qed.

(** The sign of a difference is that of the comparison. *)
Lemma SFsub_negative (x y : spec_float) :
  valid_binary x = true -> valid_binary y = true ->
  x <> S754_nan -> y <> S754_nan ->
  SFltb (SFsub prec emax x y) (S754_zero false) = SFltb x y.
Proof.
  intros Vx Vy Nx Ny.
  destruct x as [sx | sx | | sx mx ex]; [| | congruence |];
  destruct y as [sy | sy | | sy my ey]; try congruence;
    try (destruct sx, sy; reflexivity);
    try (destruct sx; reflexivity);
    try (destruct sy; reflexivity).
  unfold SFltb at 2. rewrite (@compare_finite _ _ _ _ _ _ Vx Vy).
  cbn [SFsub].
  pose proof (shl_align_value mx ex (Z.min ex ey)) as [Sx Ax].
  pose proof (shl_align_value my ey (Z.min ex ey)) as [Sy Ay].
  replace (Z.min ex (Z.min ex ey)) with (Z.min ex ey) in Sx by lia.
  replace (Z.min ey (Z.min ex ey)) with (Z.min ex ey) in Sy by lia.
  rewrite Sx in Ax. rewrite Sy in Ay. rewrite Ax, Ay.
  fold (aligned sx mx ex (Z.min ex ey)). fold (aligned sy my ey (Z.min ex ey)).
  set (ix := aligned sx mx ex (Z.min ex ey)).
  set (iy := aligned sy my ey (Z.min ex ey)).
  assert (Hez : emin <= Z.min ex ey).
  { destruct (@valid_finite _ _ _ Vx) as (Ex & _).
    destruct (@valid_finite _ _ _ Vy) as (Ey & _). lia. }
  unfold binary_normalize.
  destruct (Z.compare_spec ix iy) as [E | L | G].
  - replace (ix - iy) with 0 by lia. reflexivity.
  - destruct (ix - iy) as [| d | d] eqn:D; try lia.
    destruct (@binary_round_sign true d _ Hez) as [-> | (m' & e' & ->)];
      reflexivity.
  - destruct (ix - iy) as [| d | d] eqn:D; try lia.
    destruct (@binary_round_sign false d _ Hez) as [-> | (m' & e' & ->)];
      reflexivity.
Qed.

(** ** The comparison is a total preorder *)

Lemma SFltb_key (x y : spec_float) :
  x <> S754_nan -> y <> S754_nan ->
  (SFltb x y = true <-> lex_lt (order_key x) (order_key y)).
Proof.
  intros Nx Ny. unfold SFltb.
  destruct x as [sx | sx | | sx mx ex]; [| | congruence |];
  destruct y as [sy | sy | | sy my ey]; try congruence;
    cbn [SFcompare order_key lex_lt];
    try (destruct sx; try destruct sy; cbn [lex_lt]; split;
         [discriminate || lia | lia || reflexivity || (intros; lia)]).
  all: destruct sx, sy; cbn [lex_lt].
  all: try (split; [intros _; lia | reflexivity]).
  all: try (split; [discriminate | lia]).
  - destruct (Z.compare_spec ex ey) as [E | L | G].
    + rewrite Pos.compare_cont_spec. cbn [Pos.switch_Eq].
      destruct (Pos.compare_spec mx my); cbn [CompOpp];
        (split; [discriminate || (intros _; lia) | lia || reflexivity]).
    + split; [discriminate | lia].
    + split; [intros _; lia | reflexivity].
  - destruct (Z.compare_spec ex ey) as [E | L | G].
    + rewrite Pos.compare_cont_spec. cbn [Pos.switch_Eq].
      destruct (Pos.compare_spec mx my);
        (split; [discriminate || (intros _; lia) | lia || reflexivity]).
    + split; [intros _; lia | reflexivity].
    + split; [discriminate | lia].
Qed.

Lemma SFltb_asym (x y : spec_float) :
  x <> S754_nan -> y <> S754_nan ->
  SFltb x y = true -> SFltb y x = false.
Proof.
  intros Nx Ny H. apply (@SFltb_key _ _ Nx Ny) in H.
  apply not_true_is_false. intros H'. apply (@SFltb_key _ _ Ny Nx) in H'.
  destruct (order_key x) as [[a1 a2] a3], (order_key y) as [[b1 b2] b3].
  unfold lex_lt in *. lia.
Qed.

Lemma SFltb_negtrans (x y z : spec_float) :
  x <> S754_nan -> y <> S754_nan -> z <> S754_nan ->
  SFltb x y = false -> SFltb y z = false -> SFltb x z = false.
Proof.
  intros Nx Ny Nz H1 H2.
  apply not_true_is_false. intros H3. apply (@SFltb_key _ _ Nx Nz) in H3.
  assert (K1 : ~ lex_lt (order_key x) (order_key y))
    by (intros K; apply (@SFltb_key _ _ Nx Ny) in K; congruence).
  assert (K2 : ~ lex_lt (order_key y) (order_key z))
    by (intros K; apply (@SFltb_key _ _ Ny Nz) in K; congruence).
  destruct (order_key x) as [[a1 a2] a3], (order_key y) as [[b1 b2] b3],
           (order_key z) as [[c1 c2] c3].
  unfold lex_lt in *. lia.
Qed.

End Binary64Order.

Section Binary64Laws.
Local Open Scope float_scope.

Lemma not_nan (x : float) : PrimFloat.is_nan x = false -> Prim2SF x <> S754_nan.
Proof.
  unfold PrimFloat.is_nan. rewrite eqb_spec. intros H E. rewrite E in H.
  discriminate H.
Qed.

Lemma float_ltb_asym (a b : float) :
  PrimFloat.is_nan a = false -> PrimFloat.is_nan b = false ->
  (a <? b) = true -> (b <? a) = false.
Proof.
  intros Na Nb. rewrite !ltb_spec.
  apply SFltb_asym; apply not_nan; assumption.
Qed.

Lemma float_ltb_negtrans (a b c : float) :
  PrimFloat.is_nan a = false -> PrimFloat.is_nan b = false ->
  PrimFloat.is_nan c = false ->
  (a <? b) = false -> (b <? c) = false -> (a <? c) = false.
Proof.
  intros Na Nb Nc. rewrite !ltb_spec.
  apply SFltb_negtrans; apply not_nan; assumption.
Qed.

Lemma float_sub_negative (a b : float) :
  PrimFloat.is_nan a = false -> PrimFloat.is_nan b = false ->
  (a - b <? 0) = (a <? b).
Proof.
  intros Na Nb. rewrite !ltb_spec, sub_spec.
  change (Prim2SF 0) with (S754_zero false).
  apply SFsub_negative; try apply Prim2SF_valid; apply not_nan; assumption.
Qed.

#[local] Instance float_order_laws :
  OrderLaws (fun x : float => PrimFloat.is_nan x = false).
Proof.
  split.
  - reflexivity.
  - exact float_ltb_asym.
  - exact float_ltb_negtrans.
  - exact float_sub_negative.
Qed.

End Binary64Laws.

Section Binary64Reals.
Local Open Scope R_scope.

Lemma powerRZ_2_pos (e : Z) : 0 < powerRZ 2 e.
Proof. apply powerRZ_lt. lra. Qed.

Lemma IZR_pow2 (k : Z) : (0 <= k)%Z -> IZR (2 ^ k) = powerRZ 2 k.
Proof.
  intros Hk. rewrite <- (Z2Nat.id k) by exact Hk.
  rewrite <- pow_powerRZ, <- pow_IZR. reflexivity.
Qed.

(** To evaluate the value of a literal. *)
Lemma powerRZ_2_neg (p : positive) : powerRZ 2 (Zneg p) = / IZR (2 ^ Zpos p).
Proof.
  rewrite IZR_pow2 by lia.
  change (Zneg p) with (- Zpos p)%Z. rewrite powerRZ_neg'. reflexivity.
Qed.

Lemma aligned_real (s : bool) (m : positive) (e ez : Z) :
  (ez <= e)%Z ->
  IZR (aligned s m e ez) * powerRZ 2 ez = SF2R (S754_finite s m e).
Proof.
  intros He. unfold aligned, SF2R.
  assert (E : IZR (cond_Zopp s (Zpos m * 2 ^ (e - ez)))
              = IZR (cond_Zopp s (Zpos m)) * powerRZ 2 (e - ez)).
  { rewrite <- IZR_pow2 by lia. rewrite <- mult_IZR. f_equal.
    destruct s; cbn [cond_Zopp]; lia. }
  rewrite E, Rmult_assoc, <- powerRZ_add by lra. f_equal. f_equal. lia.
Qed.

(** Below a positive number in binary64 is below it among the reals. *)
Lemma SFltb_real (x : spec_float) (my : positive) (ey : Z) :
  valid_binary x = true ->
  valid_binary (S754_finite false my ey) = true ->
  SFltb x (S754_finite false my ey) = true ->
  SF2R x < SF2R (S754_finite false my ey).
Proof.
  intros Vx Vy H.
  assert (Py : 0 < SF2R (S754_finite false my ey)).
  { cbn [SF2R cond_Zopp]. apply Rmult_lt_0_compat;
      [apply IZR_lt; lia | apply powerRZ_2_pos]. }
  destruct x as [sx | sx | | sx mx ex]; try exact Py.
  unfold SFltb in H. rewrite (@compare_finite _ _ _ _ _ _ Vx Vy) in H.
  destruct (Z.compare_spec (aligned sx mx ex (Z.min ex ey))
                           (aligned false my ey (Z.min ex ey)))
    as [E | L | G]; try discriminate H.
  rewrite <- (@aligned_real sx mx ex (Z.min ex ey)) by lia.
  rewrite <- (@aligned_real false my ey (Z.min ex ey)) by lia.
  apply Rmult_lt_compat_r; [apply powerRZ_2_pos | apply IZR_lt; exact L].
Qed.

Lemma float_ltb_real (x y : float) (my : positive) (ey : Z) :
  Prim2SF y = S754_finite false my ey ->
  (x <? y)%float = true -> F2R x < F2R y.
Proof.
  intros Ey H. rewrite ltb_spec, Ey in H. unfold F2R. rewrite Ey.
  apply SFltb_real; [apply Prim2SF_valid | | exact H].
  rewrite <- Ey. apply Prim2SF_valid.
Qed.

End Binary64Reals.

(** The value of the binary64 literals of a goal, as a fraction. *)
Ltac float_values :=
  repeat match goal with
  | |- context [F2R ?f] =>
      let v := eval vm_compute in (Prim2SF f) in
      change (F2R f) with (SF2R v)
  | H : context [F2R ?f] |- _ =>
      let v := eval vm_compute in (Prim2SF f) in
      change (F2R f) with (SF2R v) in H
  end;
  cbn [SF2R cond_Zopp Z.opp] in *;
  rewrite ?powerRZ_2_neg in *;
  repeat match goal with
  | |- context [IZR (2 ^ ?k)] =>
      let c := eval vm_compute in (2 ^ k)%Z in change (2 ^ k)%Z with c
  | H : context [IZR (2 ^ ?k)] |- _ =>
      let c := eval vm_compute in (2 ^ k)%Z in change (2 ^ k)%Z with c in H
  end.

(* ================================================================== *)
(** * 23. The properties on concrete inputs *)
(* ================================================================== *)

(** ** A spectrum, in binary64 and in exact arithmetic *)

Lemma two_free_disks_hessian :
  computeHessian Scenario.diagonal_solver Scenario.two_free_disks
    Scenario.two_axes
  = Ok {| hessian := [[0x1.5555555555555p-1; 0]; [0; 0]];
          eigenvalues := [0; 0x1.5555555555555p-1];
          eigenvectors := [[0; 1]; [1; 0]];
          isLocalMinimum := true;
          indexMorseCritical := 0 |}%float.
Proof. vm_compute. reflexivity. Qed.

(** For two free disks 3 apart, the first moving along y and the
    second along x, the projected Hessian is diagonal, 2/3 and 0: the
    engine returns 0 before 2/3, and the second unit vector before the
    first.  In exact arithmetic, a solver that answers 3 and -1 gives
    -1 before 3. *)
Lemma computeHessian_spectrum_witness :
  (rollDim Scenario.two_axes <> O /\
   exists res,
     computeHessian Scenario.diagonal_solver Scenario.two_free_disks
       Scenario.two_axes = Ok res /\
     res.(eigenvalues) = [0; 0x1.5555555555555p-1]%float /\
     res.(eigenvectors) = [[0; 1]; [1; 0]]%float /\
     ascending res.(eigenvalues) /\
     (res.(isLocalMinimum) = true <-> res.(indexMorseCritical) = O)) /\
  (rollDim ExactScenario.identity2 <> O /\
   exists res,
     computeHessian ExactScenario.sample_library ExactScenario.one_disk
       ExactScenario.identity2 = Ok res /\
     ascending res.(eigenvalues) /\
     (res.(isLocalMinimum) = true <-> res.(indexMorseCritical) = O)).
Proof.
  split.
  - assert (Hd : rollDim Scenario.two_axes <> O) by discriminate.
    split; [exact Hd |].
    eexists. split; [exact two_free_disks_hessian |].
    split; [reflexivity |]. split; [reflexivity |].
    assert (Hord : Forall (fun x : float => PrimFloat.is_nan x = false)
              [0x1.5555555555555p-1; 0]%float)
      by (repeat constructor).
    destruct (@computeHessian_spectrum float _ _ float_order_laws
                Scenario.diagonal_solver Scenario.two_free_disks
                Scenario.two_axes _ Hd two_free_disks_hessian Hord)
      as (_ & Hasc & _ & Hmin).
    split; assumption.
  - assert (Hd : rollDim ExactScenario.identity2 <> O) by discriminate.
    split; [exact Hd |].
    destruct one_disk_hessian as [res Hres]. exists res.
    split; [exact Hres |].
    assert (Hord : Forall (fun _ : R => True)
              (ExactScenario.sample_library.(EigenvalueDecomposition)
                 (symmetrize res.(hessian))).(realEigenvalues))
      by (apply Forall_forall; intros; exact I).
    destruct (@computeHessian_spectrum R _ (fun _ => True) order_laws
                ExactScenario.sample_library ExactScenario.one_disk
                ExactScenario.identity2 res Hd Hres Hord)
      as (_ & Hasc & _ & Hmin).
    split; assumption.
Defined.

(** ** Three centres on a line *)




(** ** Three centres on a line, far from the origin *)

Section FarLine.
Local Open Scope R_scope.

Lemma far_line_on_a_line :
  on_a_line (exact_points Scenario.far_line.(positions)).
Proof.
  exists 3, (-1), 0. split; [left; lra |].
  intros p [<- | [<- | [<- | []]]]; cbn [fst snd]; float_values; lra.
Qed.

(** The centred data: the ordinates are exact, the abscissas are off
    by 4e-8, the rounding error of the mean. *)
Lemma far_line_centered :
  centered Scenario.far_line.(positions)
  = [[-0x1.555556p+0; -4]; [-0x1.555558p-2; -1]; [0x1.aaaaaap+0; 5]]%float.
Proof. vm_compute. reflexivity. Qed.

(** The Gram matrix of the centred data has a determinant that is not
    small beside its trace: the data has rank 2. *)
Lemma far_line_gram :
  let '(g11, g12, g22) :=
    gram (exact_matrix (centered Scenario.far_line.(positions))) in
  let f := F2R 6.5e-8%float in
  (2.1e-8 * 2.1e-8) * (g11 + g22) < g11 * g22 - g12 * g12 /\
  0 < g11 + g22 /\
  2 * (g11 * g22 - g12 * g12) <= 4 * (f * f) * (g11 + g22) /\
  f * f * (g11 + g22) <= 4 * (g11 * g22 - g12 * g12) /\
  0 < f.
Proof.
  rewrite far_line_centered.
  cbv [gram exact_matrix map fold_left array_get nth zero add mul Exact.number].
  cbv zeta. float_values. repeat split; lra.
Qed.

(** Two numbers that satisfy [singular_values] exist for every matrix
    of two columns that is not 0; the square of the second lies
    between det / trace and twice that, for the trace and the
    determinant of the Gram matrix. *)
Lemma singular_values_exist (M : Matrix R) :
  let '(g11, g12, g22) := gram M in
  0 < g11 + g22 ->
  0 <= g11 * g22 - g12 * g12 ->
  exists s0 s1,
    singular_values M [s0; s1] /\
    g11 * g22 - g12 * g12 <= s1 * s1 * (g11 + g22) /\
    s1 * s1 * (g11 + g22) <= 2 * (g11 * g22 - g12 * g12).
Proof.
  unfold singular_values.
  destruct (gram M) as [[g11 g12] g22]. intros HT HD.
  set (T := g11 + g22) in *. set (D := g11 * g22 - g12 * g12) in *.
  assert (HDelta : 0 <= T * T - 4 * D).
  { unfold T, D.
    replace ((g11 + g22) * (g11 + g22) - 4 * (g11 * g22 - g12 * g12))
      with ((g11 - g22) * (g11 - g22) + 4 * (g12 * g12)) by ring.
    pose proof (Rle_0_sqr (g11 - g22)). pose proof (Rle_0_sqr g12).
    unfold Rsqr in *. lra. }
  set (r := R_sqrt.sqrt (T * T - 4 * D)).
  assert (Hr : r * r = T * T - 4 * D) by (apply sqrt_sqrt; exact HDelta).
  assert (Hr0 : 0 <= r) by apply sqrt_pos.
  assert (HrT : r <= T) by nra.
  assert (Ha : 0 <= (T + r) / 2) by lra.
  assert (Hb : 0 <= (T - r) / 2) by lra.
  exists (R_sqrt.sqrt ((T + r) / 2)), (R_sqrt.sqrt ((T - r) / 2)).
  rewrite !sqrt_sqrt by assumption.
  split; [split; [split; [apply sqrt_pos | apply sqrt_le_1_alt; lra] |
                  split; [lra | nra]] |].
  split; nra.
Qed.

Lemma far_line_svd_reliable :
  second_singular_value_within_factor_two Scenario.far_line_svd
    (centered Scenario.far_line.(positions)).
Proof.
  unfold second_singular_value_within_factor_two.
  pose proof far_line_gram as G.
  pose proof (singular_values_exist
                (exact_matrix (centered Scenario.far_line.(positions)))) as E.
  assert (H1 : forall s0 s1,
            singular_values
              (exact_matrix (centered Scenario.far_line.(positions))) [s0; s1] ->
            0 <= s1).
  { intros s0 s1 Hs. unfold singular_values in Hs.
    destruct (gram (exact_matrix (centered Scenario.far_line.(positions))))
      as [[h11 h12] h22]. lra. }
  destruct (gram (exact_matrix (centered Scenario.far_line.(positions))))
    as [[g11 g12] g22].
  cbv zeta in G. destruct G as (G1 & G2 & B1 & B2 & B3).
  destruct E as (s0 & s1 & Hs & L & U); [exact G2 | nra |].
  exists s0, s1. split; [exact Hs |].
  change (array_get
            (diagonal (SVD Scenario.far_line_svd
                         (centered (positions Scenario.far_line)))) 1)
    with 6.5e-8%float.
  specialize (H1 s0 s1 Hs).
  set (f := F2R 6.5e-8%float) in *.
  assert (Q1 : s1 * s1 <= 4 * (f * f)).
  { apply (Rmult_le_reg_r (g11 + g22)); [exact G2 | lra]. }
  assert (Q2 : f * f <= 4 * (s1 * s1)).
  { apply (Rmult_le_reg_r (g11 + g22)); [exact G2 | lra]. }
  split.
  - destruct (Rle_dec s1 (2 * f)) as [Hle | Hgt]; [lra | nra].
  - destruct (Rle_dec f (2 * s1)) as [Hle | Hgt]; [lra | nra].
Qed.

Lemma isCollinear_far_line (la : LinAlg float) :
  second_singular_value_within_factor_two la
    (centered Scenario.far_line.(positions)) ->
  isCollinear la Scenario.far_line.(positions) = false.
Proof.
  intros (s0 & s1 & Hs & Hlo & Hhi).
  unfold isCollinear.
  change (List.length Scenario.far_line.(positions) <? 3)%nat with false.
  cbv iota. apply not_true_is_false. intros Hlt.
  set (s := array_get _ 1) in *.
  apply (@float_ltb_real s 1e-8%float 6044629098073146 (-79)) in Hlt;
    [| vm_compute; reflexivity].
  pose proof far_line_gram as G. unfold singular_values in Hs.
  destruct (gram (exact_matrix (centered Scenario.far_line.(positions))))
    as [[g11 g12] g22].
  destruct Hs as ((H0 & H1) & Hsum & Hprod).
  cbv zeta in G. destruct G as (G1 & G2 & _).
  set (v := F2R s) in *. clearbody v. clear s.
  float_values.
  assert (Hs1 : s1 < 2.1e-8) by lra.
  assert (Hq : s1 * s1 < 2.1e-8 * 2.1e-8) by nra.
  assert (Hp : s0 * s0 <= g11 + g22) by nra.
  assert (Hm : (s0 * s0) * (s1 * s1) <= (g11 + g22) * (s1 * s1))
    by (apply Rmult_le_compat_r; nra).
  nra.
Qed.

(** C7 as stated fails in binary64: three centres that lie exactly on
    the line y = 3 x, a thousand million away from the origin, are
    centred with a rounding error that leaves a second singular value
    of about 6.5e-8, and [isCollinear] answers [false] with every SVD
    that returns it within a factor of 2. *)
Lemma isCollinear_rejects_a_line :
  on_a_line (exact_points Scenario.far_line.(positions)) /\
  (2 <= List.length (convexHullIndices Scenario.far_line.(positions)))%nat /\
  (forall la : LinAlg float,
     second_singular_value_within_factor_two la
       (centered Scenario.far_line.(positions)) ->
     isCollinear la Scenario.far_line.(positions) = false) /\
  second_singular_value_within_factor_two Scenario.far_line_svd
    (centered Scenario.far_line.(positions)) /\
  isCollinear Scenario.far_line_svd Scenario.far_line.(positions) = false.
Proof.
  split; [exact far_line_on_a_line |].
  split; [vm_compute; lia |].
  split; [exact isCollinear_far_line |].
  split; [exact far_line_svd_reliable | reflexivity].
Qed.

End FarLine.

(** ** The gradient of collinear centres *)

(** C8 (as the code has it).  For collinear centres, those for which
    [isCollinear] answers [true], as it does in exact arithmetic for
    all centres on one line: when the two hull points [a] and [b] that
    are farthest apart are not closer than 1e-15, [perimeterGradient]
    is 0 except at these two points, which receive -2u and +2u, [u]
    being their difference divided by their distance; in exact
    arithmetic [u] has length 1, so that the two contributions have
    magnitude 2 and opposite signs, and no two hull points are farther
    apart than [a] and [b].  When [a] and [b] are closer than 1e-15
    the gradient is left at 0.  For the two unit disks centred at
    (-1, 0) and (1, 0) the hull is both points, the centres count as
    collinear, the disk perimeter is 4 + 2 pi and the gradient is
    (-2, 0, 2, 0). *)
Theorem perimeterGradient_collinear :
  (forall (num : Type) (N : Number num) (la : LinAlg num)
          (config : Configuration num) (m : num) (a b : nat),
     List.length config.(positions) = config.(n) ->
     isCollinear la config.(positions) = true ->
     (sqrt zero <? lit_1e15)%num = true ->
     farthest_pair_sq config.(positions)
       (convexHullIndices config.(positions)) = (m, a, b) ->
     let hull := convexHullIndices config.(positions) in
     let pa := hull_point config.(positions) a in
     let pb := hull_point config.(positions) b in
     let ux := ((fst pb - fst pa) / sqrt m)%num in
     let uy := ((snd pb - snd pa) / sqrt m)%num in
     let g := perimeterGradient la config in
     ((sqrt m <? lit_1e15)%num = false ->
      In (a, b) (pairs hull) /\ a <> b /\
      m = dist2 config.(positions) a b /\
      List.length g = (2 * config.(n))%nat /\
      array_get g (2 * a) = (zero - two * ux)%num /\
      array_get g (2 * a + 1) = (zero - two * uy)%num /\
      array_get g (2 * b) = (zero + two * ux)%num /\
      array_get g (2 * b + 1) = (zero + two * uy)%num /\
      forall k, (k < 2 * config.(n))%nat ->
        k <> (2 * a)%nat -> k <> (2 * a + 1)%nat ->
        k <> (2 * b)%nat -> k <> (2 * b + 1)%nat ->
        array_get g k = zero) /\
     ((sqrt m <? lit_1e15)%num = true ->
      g = repeat zero (2 * config.(n)))) /\
  (forall (la : LinAlg R) (config : Configuration R) (m : R) (a b : nat),
     List.length config.(positions) = config.(n) ->
     on_a_line config.(positions) ->
     ((3 <= List.length config.(positions))%nat ->
      singular_values (centered config.(positions))
        (la.(SVD) (centered config.(positions))).(diagonal)) ->
     farthest_pair_sq config.(positions)
       (convexHullIndices config.(positions)) = (m, a, b) ->
     let hull := convexHullIndices config.(positions) in
     let pa := hull_point config.(positions) a in
     let pb := hull_point config.(positions) b in
     let d := distance pa pb in
     let ux := ((fst pb - fst pa) / d)%R in
     let uy := ((snd pb - snd pa) / d)%R in
     let g := perimeterGradient la config in
     isCollinear la config.(positions) = true /\
     (forall hi hj, In hi hull -> In hj hull ->
        (distance (hull_point config.(positions) hi)
                  (hull_point config.(positions) hj) <= d)%R) /\
     ((1e-15 <= d)%R ->
      (ux * ux + uy * uy = 1)%R /\
      R_sqrt.sqrt ((2 * ux) * (2 * ux) + (2 * uy) * (2 * uy)) = 2%R /\
      a <> b /\ In a hull /\ In b hull /\
      array_get g (2 * a) = (- (2 * ux))%R /\
      array_get g (2 * a + 1) = (- (2 * uy))%R /\
      array_get g (2 * b) = (2 * ux)%R /\
      array_get g (2 * b + 1) = (2 * uy)%R /\
      forall k, (k < 2 * config.(n))%nat ->
        k <> (2 * a)%nat -> k <> (2 * a + 1)%nat ->
        k <> (2 * b)%nat -> k <> (2 * b + 1)%nat ->
        array_get g k = 0%R) /\
     ((d < 1e-15)%R -> g = repeat 0%R (2 * config.(n)))) /\
  (forall la : LinAlg float,
     convexHullIndices Scenario.two_disks.(positions) = [0; 1]%nat /\
     isCollinear la Scenario.two_disks.(positions) = true /\
     perimeterOfDisks la Scenario.two_disks = (4 + 2 * PI)%float /\
     perimeterGradient la Scenario.two_disks = [-2; 0; 2; 0]%float).
Proof.
  split; [| split].
  - intros num N la config m a b Hlen Hcol Hzero Hfar hull pa pb ux uy g.
    split.
    + intros Hdist.
      exact (@perimeterGradient_collinear_generic num N la config m a b
               Hlen Hcol Hzero Hfar Hdist).
    + intros Hdist. unfold g, perimeterGradient, hull.
      destruct (List.length _ <=? 1)%nat; [reflexivity |].
      rewrite Hcol. unfold collinear_gradient.
      rewrite Hfar, Hdist. reflexivity.
  - intros la config m a b Hlen Hline Hsvd Hfar hull pa pb d ux uy g.
    pose proof (isCollinear_on_a_line la Hline Hsvd) as Hcol.
    assert (Hzero : (sqrt (zero : R) <? lit_1e15)%num = true).
    { apply Rltb_true. cbv [sqrt zero lit_1e15 Exact.number].
      rewrite sqrt_0. lra. }
    pose proof (farthest_pair_sq_max _ _ Hfar) as [Hm0 Hmax].
    pose proof (farthest_pair_sq_from_pairs config.(positions) hull) as Hfrom.
    fold hull in Hfar. rewrite Hfar in Hfrom.
    assert (Hd : d = R_sqrt.sqrt m).
    { unfold d, pa, pb. rewrite <- sqrt_dist2_distance.
      destruct Hfrom as [E | [_ H]]; [| rewrite H; reflexivity].
      injection E as -> -> ->. f_equal.
      unfold dist2, pow2. cbv [zero add sub mul Exact.number]. ring. }
    split; [exact Hcol |]. split.
    { intros hi hj Hi Hj. rewrite Hd.
      rewrite <- sqrt_dist2_distance.
      destruct (pairs_complete hull hi hj Hi Hj) as [<- | [H | H]].
      - rewrite sqrt_dist2_distance. unfold distance, dist_euc.
        replace (Rsqr _ + Rsqr _)%R with 0%R by (unfold Rsqr; ring).
        rewrite sqrt_0. apply sqrt_pos.
      - apply sqrt_le_1_alt. apply Hmax. exact H.
      - replace (dist2 config.(positions) hi hj)
          with (dist2 config.(positions) hj hi)
          by (unfold dist2, pow2; cbv [add sub mul Exact.number]; ring).
        apply sqrt_le_1_alt. apply Hmax. exact H. }
    split.
    { intros Hfar_enough.
      assert (Hdist : (sqrt m <? lit_1e15)%num = false).
      { apply Rltb_false. cbv [sqrt lit_1e15 Exact.number].
        rewrite <- Hd. lra. }
      destruct (@perimeterGradient_collinear_exact la config m a b Hfar Hdist)
        as (_ & Hu & Hmag & _).
      destruct (@perimeterGradient_collinear_generic R _ la config m a b
                  Hlen Hcol Hzero Hfar Hdist)
        as (Hin & Hab & _ & _ & Ga & Ga' & Gb & Gb' & Grest).
      destruct (pairs_In _ _ _ Hin) as [Ha Hb].
      unfold ux, uy. rewrite Hd. unfold pa, pb.
      split; [exact Hu |]. split; [exact Hmag |].
      split; [exact Hab |]. split; [exact Ha |]. split; [exact Hb |].
      fold g in Ga, Ga', Gb, Gb', Grest.
      split; [rewrite Ga; cbv [zero two sub mul div sqrt Exact.number]; ring |].
      split; [rewrite Ga'; cbv [zero two sub mul div sqrt Exact.number]; ring |].
      split; [rewrite Gb; cbv [zero two add sub mul div sqrt Exact.number]; ring |].
      split; [rewrite Gb'; cbv [zero two add sub mul div sqrt Exact.number]; ring |].
      exact Grest. }
    intros Hclose.
    assert (Hdist : (sqrt m <? lit_1e15)%num = true).
    { apply Rltb_true. cbv [sqrt lit_1e15 Exact.number]. rewrite <- Hd. lra. }
    unfold g, perimeterGradient. fold hull.
    destruct (List.length hull <=? 1)%nat; [reflexivity |].
    rewrite Hcol. unfold collinear_gradient. fold hull.
    rewrite Hfar, Hdist. reflexivity.
  - intros la.
    assert (Hc : isCollinear la Scenario.two_disks.(positions) = true)
      by (apply isCollinear_small; simpl; lia).
    split; [reflexivity |]. split; [exact Hc |].
    unfold perimeterOfDisks, perimeterOfCenters, perimeterGradient.
    rewrite Hc. split; reflexivity.
Qed.

Lemma perimeterGradient_collinear_witness :
  List.length Scenario.two_disks.(positions) = Scenario.two_disks.(n) /\
  isCollinear Scenario.no_library Scenario.two_disks.(positions) = true /\
  farthest_pair_sq Scenario.two_disks.(positions)
    (convexHullIndices Scenario.two_disks.(positions)) = (4%float, 0, 1)%nat /\
  array_get (perimeterGradient Scenario.no_library Scenario.two_disks) 0
    = (0 - 2 * ((1 - -1) / PrimFloat.sqrt 4))%float /\
  array_get (perimeterGradient Scenario.no_library Scenario.two_disks) 2
    = (0 + 2 * ((1 - -1) / PrimFloat.sqrt 4))%float.
Proof.
  assert (H1 : List.length Scenario.two_disks.(positions)
                = Scenario.two_disks.(n)) by reflexivity.
  assert (H2 : isCollinear Scenario.no_library Scenario.two_disks.(positions)
                = true) by reflexivity.
  assert (H3 : (sqrt (zero : float) <? lit_1e15)%num = true)
    by (vm_compute; reflexivity).
  assert (H4 : farthest_pair_sq Scenario.two_disks.(positions)
                 (convexHullIndices Scenario.two_disks.(positions))
               = (4%float, 0, 1)%nat) by (vm_compute; reflexivity).
  assert (H5 : (sqrt 4%float <? lit_1e15)%num = false)
    by (vm_compute; reflexivity).
  split; [exact H1 |]. split; [exact H2 |]. split; [exact H4 |].
  destruct (proj1 (proj1 perimeterGradient_collinear float _ Scenario.no_library
                     Scenario.two_disks 4%float 0%nat 1%nat H1 H2 H3 H4) H5)
    as (_ & _ & _ & _ & Ha & _ & Hb & _).
  split; [exact Ha | exact Hb].
Defined.

(** C8 as stated fails when the two centres are distinct but closer
    than 1e-15: the gradient is 0 at both of them. *)
Lemma perimeterGradient_close_centres :
  (fst (hull_point Scenario.two_close_disks.(positions) 0)
     =? fst (hull_point Scenario.two_close_disks.(positions) 1))%float = false /\
  isCollinear Scenario.no_library Scenario.two_close_disks.(positions) = true /\
  convexHullIndices Scenario.two_close_disks.(positions) = [0; 1]%nat /\
  perimeterGradient Scenario.no_library Scenario.two_close_disks
    = [0; 0; 0; 0]%float.
Proof. repeat split. Qed.

(** ** Three disks in mutual contact *)



Section RollingDimension.
Context {num : Type} {N : Number num}.


End RollingDimension.





(* ================================================================== *)
(** * 24. Further properties of the graph validator *)
(* ================================================================== *)

Section GraphReports.
Import Graph.
Local Open Scope Z_scope.
Local Notation "a +++ b" := (String.append a%string b%string)
  (right associativity, at level 60).

(** The first element [find] accepts splits the list. *)
Lemma find_first {A} (f : A -> bool) (l : list A) (x : A) :
  find f l = Some x ->
  exists before after, l = before ++ x :: after /\ f x = true /\
                       find f before = None.
Proof.
  induction l as [| a l IH]; simpl; [discriminate |].
  destruct (f a) eqn:E.
  - intros H. inversion H; subst. exists [], l. auto.
  - intros H. destruct (IH H) as (b & c & -> & Hx & Hb).
    exists (a :: b), c. simpl. rewrite E. auto.
Qed.

Lemma find_duplicate_first (edgeSet : list string) (cs : list Contact) (c : Contact) :
  find_duplicate edgeSet cs = Some c ->
  exists before after, cs = before ++ c :: after /\
    find_duplicate edgeSet before = None /\
    In (edge_key c) (edgeSet ++ map edge_key before).
Proof.
  revert edgeSet. induction cs as [| d cs IH]; intros edgeSet; simpl; [discriminate |].
  destruct (existsb (String.eqb (edge_key d)) edgeSet) eqn:E.
  - intros H. inversion H; subst. exists [], cs. simpl. rewrite app_nil_r.
    apply GraphFacts.existsb_string_In in E. auto.
  - intros H. destruct (IH _ H) as (b & a & -> & Hb & Hin).
    exists (d :: b), a. simpl. rewrite E. split; [reflexivity |]. split; [exact Hb |].
    rewrite <- app_assoc in Hin. exact Hin.
Qed.

Lemma in_range_app (n : nat) (a b : list Contact) :
  in_range n (a ++ b) <-> in_range n a /\ in_range n b.
Proof. unfold in_range. apply Forall_app. Qed.

Lemma reachable_sym (cs : list Contact) (u v : Z) :
  reachable cs u v -> reachable cs v u.
Proof.
  induction 1 as [x y H | x | x y z _ IH1 _ IH2].
  - apply rt_step. destruct H; [right | left]; assumption.
  - apply rt_refl.
  - eapply rt_trans; eauto.
Qed.

(** What comes before [i] in [0, ..., n - 1]. *)
Lemma range_split (n i : nat) (before after : list nat) :
  range n = before ++ i :: after ->
  (i < n)%nat /\ forall j, (j < i)%nat -> In j before.
Proof.
  intros H.
  assert (Hi : In i (range n)) by (rewrite H; apply in_elt).
  apply in_seq in Hi. split; [lia |].
  assert (Hlen : List.length before = i).
  { assert (E : nth (List.length before) (range n) O = i)
      by (rewrite H, nth_middle; reflexivity).
    unfold range in E. rewrite seq_nth in E; [lia |].
    apply (f_equal (@List.length nat)) in H.
    unfold range in H. rewrite length_seq, length_app in H. simpl in H. lia. }
  intros j Hj.
  assert (E : nth j (range n) O = j) by (unfold range; rewrite seq_nth; lia).
  rewrite H, app_nth1 in E by lia. rewrite <- E. apply nth_In. lia.
Qed.

(** X1.  For contacts whose indices are in [0, n), [isConnected] answers
    [true] exactly when any two disks are joined by a chain of
    contacts. *)
Theorem isConnected_any_two_disks (n : nat) (cs : list Contact) :
  in_range n cs ->
  (Graph.isConnected n cs = true <->
   forall u v, 0 <= u < Z.of_nat n -> 0 <= v < Z.of_nat n -> reachable cs u v).
Proof.
  intros Hr. rewrite (GraphFacts.isConnected_spec Hr). split.
  - intros Hc u v Hu Hv. apply rt_trans with 0.
    + apply reachable_sym. apply Hc. exact Hu.
    + apply Hc. exact Hv.
  - intros H v Hv. apply H; lia.
Qed.

(** The two edge counts of a report. *)
Lemma checkGraphValidity_edge_counts {num} (config : Configuration num) :
  let r := Graph.checkGraphValidity config in
  r.(actualEdges) =
    Z.of_nat (List.length config.(contacts) + List.length config.(latticeContacts)) /\
  r.(expectedEdges) = (if r.(isValid) then 2 * Z.of_nat config.(n) + 1 else 0).
Proof.
  intros r. unfold r, Graph.checkGraphValidity. rewrite length_app.
  destruct (find _ _) as [[u v] |]; [split; reflexivity |].
  destruct (find _ _) as [[u v] |]; [split; reflexivity |].
  destruct (Graph.find_duplicate _ _) as [[u v] |]; [split; reflexivity |].
  destruct (Graph.isConnected _ _); simpl negb; cbv iota; [| split; reflexivity].
  destruct (find _ _) as [i |]; split; reflexivity.
Qed.

(** X2.  The validator answers [isValid = true] only for a contact graph
    that passes its five checks, and for every such graph; every
    report carries the number of contacts read, lattice contacts
    included, and [expectedEdges] is 2n + 1 in a report that is valid
    and 0 in every other. *)
Theorem checkGraphValidity_valid_iff {num} (config : Configuration num) :
  let cs := all_contacts config in
  let n := config.(n) in
  let r := Graph.checkGraphValidity config in
  (r.(isValid) = true <->
   (in_range n cs /\ no_self_loops cs /\ no_duplicate_edges cs /\
    connected n cs /\
    forall v, 0 <= v < Z.of_nat n -> (degree cs v <= 6)%nat)) /\
  r.(actualEdges) =
    Z.of_nat (List.length config.(contacts) + List.length config.(latticeContacts)) /\
  r.(expectedEdges) = (if r.(isValid) then 2 * Z.of_nat n + 1 else 0).
Proof.
  intros cs n r. split; [| exact (checkGraphValidity_edge_counts config)].
  unfold r, Graph.checkGraphValidity. fold n.
  unfold all_contacts in cs. fold cs.
  destruct (find (Graph.out_of_range (Z.of_nat n)) cs) as [[u v] |] eqn:E1.
  { split; [discriminate |]. intros (Hr & _).
    apply GraphFacts.find_out_of_range_none in Hr. congruence. }
  apply GraphFacts.find_out_of_range_none in E1.
  destruct (find Graph.is_self_loop cs) as [[u v] |] eqn:E2.
  { split; [discriminate |]. intros (_ & Hs & _).
    apply GraphFacts.find_self_loop_none in Hs. congruence. }
  apply GraphFacts.find_self_loop_none in E2.
  destruct (Graph.find_duplicate [] cs) as [[u v] |] eqn:E3.
  { split; [discriminate |]. intros (_ & _ & Hd & _).
    apply (GraphFacts.find_duplicate_spec E1) in Hd. congruence. }
  apply (GraphFacts.find_duplicate_spec E1) in E3.
  destruct (Graph.isConnected n cs) eqn:E4; simpl negb; cbv iota.
  2:{ split; [discriminate |]. intros (_ & _ & _ & Hc & _).
      apply (GraphFacts.isConnected_spec E1) in Hc. congruence. }
  apply (GraphFacts.isConnected_spec E1) in E4.
  destruct (find _ (range n)) as [i |] eqn:E5.
  { split; [discriminate |]. intros (_ & _ & _ & _ & Hg).
    pose proof (proj2 (GraphFacts.degree_check_none n cs) Hg). congruence. }
  pose proof (proj1 (GraphFacts.degree_check_none n cs) E5) as Hg.
  split; [intros _ | reflexivity]. tauto.
Qed.


(** X4.  When the indices are in range and there is no self-loop, a
    contact that joins the same two disks as an earlier one, in either
    order, makes the report invalid, with a message that shows the
    first such contact. *)
Theorem checkGraphValidity_duplicate_edge {num} (config : Configuration num) :
  let cs := all_contacts config in
  let n := config.(n) in
  let r := Graph.checkGraphValidity config in
  in_range n cs -> no_self_loops cs -> ~ no_duplicate_edges cs ->
  exists before u v after,
    cs = before ++ (u, v) :: after /\
    no_duplicate_edges before /\
    (In (u, v) before \/ In (v, u) before) /\
    r.(isValid) = false /\
    r.(message) =
      "Duplicate edge (" +++ js_string_of_Z u +++ ", "
        +++ js_string_of_Z v +++ ")".
Proof.
  intros cs n r Hr Hs Hd. unfold r, Graph.checkGraphValidity. fold n.
  unfold all_contacts in cs. fold cs.
  rewrite (proj2 (GraphFacts.find_out_of_range_none n cs) Hr).
  rewrite (proj2 (GraphFacts.find_self_loop_none cs) Hs).
  destruct (Graph.find_duplicate [] cs) as [[u v] |] eqn:E.
  2:{ apply (GraphFacts.find_duplicate_spec Hr) in E. contradiction. }
  destruct (@find_duplicate_first _ _ _ E) as (b & a & Hcs & Hb & Hin).
  simpl app in Hin.
  assert (Hrb : in_range n b /\ in_range n ((u, v) :: a)).
  { apply in_range_app. rewrite <- Hcs. exact Hr. }
  destruct Hrb as [Hrb Hra].
  exists b, u, v, a. split; [exact Hcs |].
  split; [apply (GraphFacts.find_duplicate_spec Hrb); exact Hb |].
  split; [| split; reflexivity].
  apply in_map_iff in Hin. destruct Hin as ([u' v'] & Hk & Hin').
  rewrite !GraphFacts.edge_key_undirected in Hk.
  assert (Huv : 0 <= u /\ 0 <= v).
  { inversion Hra as [| ? ? H0 _]; subst. simpl in H0. lia. }
  assert (Huv' : 0 <= u' /\ 0 <= v').
  { unfold in_range in Hrb. rewrite Forall_forall in Hrb.
    specialize (Hrb _ Hin'). simpl in Hrb. lia. }
  apply GraphFacts.pair_key_inj in Hk; [| unfold undirected; simpl; lia ..].
  unfold undirected in Hk. simpl in Hk. inversion Hk as [[Hmin Hmax]].
  destruct (Z.eq_dec u' u) as [-> | Hne].
  - left. replace v with v' by lia. exact Hin'.
  - right. replace v with u' by lia. replace u with v' by lia. exact Hin'.
Qed.

(** X5.  When the four earlier checks pass, a disk with more than six
    contacts makes the report invalid; the message names the first
    such disk and its degree. *)
Theorem checkGraphValidity_kissing_number {num} (config : Configuration num) :
  let cs := all_contacts config in
  let n := config.(n) in
  let r := Graph.checkGraphValidity config in
  in_range n cs -> no_self_loops cs -> no_duplicate_edges cs ->
  connected n cs ->
  (exists v, 0 <= v < Z.of_nat n /\ (6 < degree cs v)%nat) ->
  exists i,
    (i < n)%nat /\
    (6 < degree cs (Z.of_nat i))%nat /\
    (forall j, (j < i)%nat -> (degree cs (Z.of_nat j) <= 6)%nat) /\
    r.(isValid) = false /\
    r.(message) =
      "Vertex " +++ js_string_of_Z (Z.of_nat i) +++ " has degree "
        +++ js_string_of_Z (Z.of_nat (degree cs (Z.of_nat i)))
        +++ " > 6 (kissing number violation)".
Proof.
  intros cs n r Hr Hs Hd Hc (v & Hv & Hdeg). unfold r, Graph.checkGraphValidity.
  fold n. unfold all_contacts in cs. fold cs.
  rewrite (proj2 (GraphFacts.find_out_of_range_none n cs) Hr).
  rewrite (proj2 (GraphFacts.find_self_loop_none cs) Hs).
  rewrite (proj2 (GraphFacts.find_duplicate_spec Hr) Hd).
  rewrite (proj2 (GraphFacts.isConnected_spec Hr) Hc). simpl negb. cbv iota.
  destruct (find _ (range n)) as [i |] eqn:E.
  2:{ pose proof (proj1 (GraphFacts.degree_check_none n cs) E v Hv). lia. }
  destruct (@find_first _ _ _ _ E) as (b & a & Hsplit & Hi & Hb).
  destruct (@range_split _ _ _ _ Hsplit) as [Hin Hbefore].
  rewrite GraphFacts.computeVertexDegrees_nth in * by exact Hin.
  exists i. split; [exact Hin |]. split; [lia |].
  split; [| split; reflexivity].
  intros j Hj. pose proof (find_none _ _ Hb _ (Hbefore j Hj)) as Ej.
  simpl in Ej. rewrite GraphFacts.computeVertexDegrees_nth in Ej by lia. lia.
Qed.

(** *** Degrees *)

Lemma incr_at_total (k : nat) (l : list Z) :
  (k < List.length l)%nat -> total (Graph.incr_at k l) = total l + 1.
Proof.
  revert k. induction l as [| d l IH]; intros [| k] H; simpl in *; try lia.
  rewrite IH by lia. lia.
Qed.

Lemma incr_degree_total (l : list Z) (u : Z) :
  0 <= u < Z.of_nat (List.length l) ->
  total (Graph.incr_degree l u) = total l + 1.
Proof.
  intros Hu. unfold Graph.incr_degree. destruct (Z.ltb_spec u 0); [lia |].
  apply incr_at_total. lia.
Qed.

Lemma total_repeat_zero (n : nat) : total (repeat 0 n) = 0.
Proof. induction n; simpl; auto. Qed.

Lemma computeVertexDegrees_length (n : nat) (cs : list Contact) :
  List.length (Graph.computeVertexDegrees n cs) = n.
Proof.
  unfold Graph.computeVertexDegrees.
  assert (H : forall l, List.length l = n ->
            List.length (fold_left (fun degrees '(u, v) =>
               Graph.incr_degree (Graph.incr_degree degrees u) v) cs l) = n).
  { induction cs as [| [u v] cs IH]; intros l Hl; cbn [fold_left]; [exact Hl |].
    apply IH. rewrite !GraphFacts.incr_degree_length. exact Hl. }
  apply H. apply repeat_length.
Qed.

(** X6.  For contacts whose indices are in [0, n) the degree array has
    one entry per disk, entry [i] counts the contact ends at disk [i],
    and the entries add up to twice the number of contacts. *)
Theorem computeVertexDegrees_handshake (n : nat) (cs : list Contact) :
  in_range n cs ->
  let degrees := Graph.computeVertexDegrees n cs in
  List.length degrees = n /\
  (forall i, (i < n)%nat -> nth i degrees 0 = Z.of_nat (degree cs (Z.of_nat i))) /\
  total degrees = 2 * Z.of_nat (List.length cs).
Proof.
  intros Hr degrees.
  assert (H : forall l, List.length l = n ->
            let l' := fold_left (fun degrees '(u, v) =>
                        Graph.incr_degree (Graph.incr_degree degrees u) v) cs l in
            List.length l' = n /\
            total l' = total l + 2 * Z.of_nat (List.length cs)).
  { induction Hr as [| [u v] cs Huv Hr IH]; intros l Hl; simpl fold_left.
    - cbv zeta. simpl. split; [exact Hl | lia].
    - simpl in Huv.
      destruct (IH (Graph.incr_degree (Graph.incr_degree l u) v)) as [IH1 IH2].
      { rewrite !GraphFacts.incr_degree_length. exact Hl. }
      cbv zeta. split; [exact IH1 |]. rewrite IH2.
      rewrite !incr_degree_total
        by (rewrite ?GraphFacts.incr_degree_length, Hl; lia).
      cbn [List.length]. lia. }
  destruct (H (repeat 0 n) (repeat_length 0 n)) as [H1 H2].
  split; [exact H1 |]. split.
  - intros i Hi. apply GraphFacts.computeVertexDegrees_nth. exact Hi.
  - unfold degrees, Graph.computeVertexDegrees. rewrite H2, total_repeat_zero. lia.
Qed.

(** *** The adjacency list *)

Lemma zadd_NoDup (x : Z) (s : list Z) : NoDup s -> NoDup (Graph.zadd x s).
Proof.
  intros H. unfold Graph.zadd. destruct (Graph.zmem x s) eqn:E; [exact H |].
  apply NoDup_app; [exact H | repeat constructor; intros [] |].
  intros y Hy [<- | []].
  apply GraphFacts.zmem_In in Hy. congruence.
Qed.

Lemma adj_add_NoDup (adj : Graph.AdjMap) (u v : Z) :
  Forall (fun e => NoDup (snd e)) adj ->
  Forall (fun e => NoDup (snd e)) (Graph.adj_add adj u v).
Proof.
  induction 1 as [| [k s] adj Hs H IH]; simpl; [constructor |].
  destruct (u =? k).
  - constructor; [apply zadd_NoDup; exact Hs | exact H].
  - constructor; [exact Hs | exact IH].
Qed.

Lemma adj_get_In (adj : Graph.AdjMap) (k : Z) (s : list Z) :
  Graph.adj_get adj k = Some s -> In (k, s) adj.
Proof.
  induction adj as [| [k' s'] adj IH]; simpl; [discriminate |].
  destruct (Z.eqb_spec k k') as [-> | _].
  - intros H. inversion H; subst. left. reflexivity.
  - intros H. right. auto.
Qed.

(** X7.  The adjacency list has a set for each of the disks 0, ...,
    n - 1 and for no other key; the set of a disk holds, once each,
    the disks a contact joins it to, whichever end it is of the
    contact. *)
Theorem buildAdjacencyList_neighbours (n : nat) (cs : list Contact) (u : Z) :
  let adj := Graph.buildAdjacencyList n cs in
  (0 <= u < Z.of_nat n ->
   exists s, Graph.adj_get adj u = Some s /\ NoDup s /\
             forall v, In v s <-> (In (u, v) cs \/ In (v, u) cs)) /\
  (~ (0 <= u < Z.of_nat n) -> Graph.adj_get adj u = None).
Proof.
  intros adj. destruct (GraphFacts.buildAdjacencyList_spec n cs u) as [H1 H2].
  split; [| exact H2].
  intros Hu. destruct (H1 Hu) as (s & Hs & Hin). exists s.
  split; [exact Hs |]. split; [| exact Hin].
  assert (Hall : Forall (fun e => NoDup (snd e)) adj).
  { unfold adj, Graph.buildAdjacencyList.
    set (adj0 := map _ (range n)).
    assert (H0 : Forall (fun e => NoDup (snd e)) adj0).
    { unfold adj0. apply Forall_forall. intros e He. apply in_map_iff in He.
      destruct He as (i & <- & _). constructor. }
    clearbody adj0. clear -H0. revert adj0 H0.
    induction cs as [| [a b] cs IH]; intros adj0 H0; simpl; [exact H0 |].
    apply IH. apply adj_add_NoDup. apply adj_add_NoDup. exact H0. }
  rewrite Forall_forall in Hall.
  exact (Hall _ (adj_get_In _ _ Hs)).
Qed.

End GraphReports.

Section GraphWitnesses.
Local Open Scope Z_scope.
Local Notation "a +++ b" := (String.append a%string b%string)
  (right associativity, at level 60).

Lemma isConnected_any_two_disks_witness :
  in_range 3 (all_contacts Scenario.triangle) /\
  forall u v, 0 <= u < 3 -> 0 <= v < 3 ->
    reachable (all_contacts Scenario.triangle) u v.
Proof.
  split; [exact triangle_in_range |].
  apply (proj1 (isConnected_any_two_disks triangle_in_range)).
  reflexivity.
Defined.


Lemma checkGraphValidity_duplicate_edge_witness :
  in_range 3 (all_contacts Cases.duplicate_sample) /\
  no_self_loops (all_contacts Cases.duplicate_sample) /\
  ~ no_duplicate_edges (all_contacts Cases.duplicate_sample) /\
  (Graph.checkGraphValidity Cases.duplicate_sample).(isValid) = false.
Proof.
  assert (Hr : in_range 3 (all_contacts Cases.duplicate_sample))
    by (repeat constructor; simpl; lia).
  assert (Hs : no_self_loops (all_contacts Cases.duplicate_sample))
    by (repeat constructor; discriminate).
  assert (Hd : ~ no_duplicate_edges (all_contacts Cases.duplicate_sample)).
  { intros Hd. apply (GraphFacts.find_duplicate_spec Hr) in Hd. discriminate Hd. }
  split; [exact Hr |]. split; [exact Hs |]. split; [exact Hd |].
  destruct (checkGraphValidity_duplicate_edge Cases.duplicate_sample Hr Hs Hd)
    as (b & u & v & a & _ & _ & _ & H & _).
  exact H.
Defined.

Lemma checkGraphValidity_kissing_number_witness :
  in_range 8 (all_contacts Cases.seven_neighbours) /\
  no_self_loops (all_contacts Cases.seven_neighbours) /\
  no_duplicate_edges (all_contacts Cases.seven_neighbours) /\
  connected 8 (all_contacts Cases.seven_neighbours) /\
  (exists v, 0 <= v < 8 /\ (6 < degree (all_contacts Cases.seven_neighbours) v)%nat) /\
  exists i,
    (Graph.checkGraphValidity Cases.seven_neighbours).(isValid) = false /\
    (Graph.checkGraphValidity Cases.seven_neighbours).(message) =
      "Vertex " +++ js_string_of_Z (Z.of_nat i) +++ " has degree "
        +++ js_string_of_Z (Z.of_nat (degree (all_contacts Cases.seven_neighbours) (Z.of_nat i)))
        +++ " > 6 (kissing number violation)".
Proof.
  assert (Hr : in_range 8 (all_contacts Cases.seven_neighbours))
    by (repeat constructor; simpl; lia).
  assert (Hs : no_self_loops (all_contacts Cases.seven_neighbours))
    by (repeat constructor; discriminate).
  assert (Hd : no_duplicate_edges (all_contacts Cases.seven_neighbours))
    by (apply (GraphFacts.find_duplicate_spec Hr); reflexivity).
  assert (Hc : connected 8 (all_contacts Cases.seven_neighbours))
    by (apply (GraphFacts.isConnected_spec Hr); reflexivity).
  assert (Hv : exists v, 0 <= v < 8 /\
                 (6 < degree (all_contacts Cases.seven_neighbours) v)%nat)
    by (exists 0; split; [lia | vm_compute; lia]).
  split; [exact Hr |]. split; [exact Hs |]. split; [exact Hd |].
  split; [exact Hc |]. split; [exact Hv |].
  destruct (checkGraphValidity_kissing_number Cases.seven_neighbours Hr Hs Hd Hc Hv)
    as (i & _ & _ & _ & H1 & H2).
  exists i. split; assumption.
Defined.

Lemma computeVertexDegrees_handshake_witness :
  in_range 3 (all_contacts Scenario.triangle) /\
  total (Graph.computeVertexDegrees 3 (all_contacts Scenario.triangle)) = 6.
Proof.
  split; [exact triangle_in_range |].
  exact (proj2 (proj2 (computeVertexDegrees_handshake triangle_in_range))).
Defined.

End GraphWitnesses.

(* ================================================================== *)
(** * 25. Further properties of the constraint builder and the pipeline *)
(* ================================================================== *)

Section ConstraintReports.
Context {num : Type} {N : Number num}.
Local Open Scope num_scope.
Local Notation "a +++ b" := (String.append a%string b%string)
  (right associativity, at level 60).

Lemma point_at_some (positions : list (num * num)) (i : Z) (p : num * num) :
  point_at positions i = Some p ->
  (0 <= i < Z.of_nat (List.length positions))%Z.
Proof.
  unfold point_at. destruct (Z.ltb_spec i 0); [discriminate |].
  intros Hp. assert (Hn : nth_error positions (Z.to_nat i) <> None) by congruence.
  apply nth_error_Some in Hn. lia.
Qed.

Lemma point_at_none (positions : list (num * num)) (i : Z) :
  ~ (0 <= i < Z.of_nat (List.length positions))%Z ->
  point_at positions i = None.
Proof.
  intros H. destruct (point_at positions i) as [p |] eqn:E; [| reflexivity].
  apply point_at_some in E. contradiction.
Qed.

Lemma contact_row_ok (cols : nat) (positions : list (num * num)) (c : Contact)
  (row : list num) :
  contact_row cols positions c = Ok row ->
  (0 <= fst c < Z.of_nat (List.length positions))%Z /\
  (0 <= snd c < Z.of_nat (List.length positions))%Z.
Proof.
  destruct c as [i j]. unfold contact_row. cbn [fst snd].
  destruct (point_at positions j) as [pj |] eqn:Ej; [| discriminate].
  destruct (point_at positions i) as [pi |] eqn:Ei; [| discriminate].
  intros _. split; eapply point_at_some; eauto.
Qed.

Lemma contact_rows_ok (cols : nat) (positions : list (num * num))
  (cs : list Contact) (A : Matrix num) :
  contact_rows cols positions cs = Ok A ->
  in_range (List.length positions) cs.
Proof.
  revert A. induction cs as [| c cs IH]; intros A; simpl; [constructor |].
  destruct (contact_row cols positions c) as [row | e] eqn:E; [| discriminate].
  simpl. destruct (contact_rows cols positions cs) as [rows | e]; [| discriminate].
  intros _. constructor; [eapply contact_row_ok; eauto | eapply IH; eauto].
Qed.

Lemma contact_rows_app (cols : nat) (positions : list (num * num))
  (before after : list Contact) (rows : Matrix num) :
  contact_rows cols positions before = Ok rows ->
  contact_rows cols positions (before ++ after) =
    let* rest := contact_rows cols positions after in Ok (rows ++ rest).
Proof.
  revert rows. induction before as [| c before IH]; intros rows; simpl.
  - intros H. inversion H; subst. destruct (contact_rows _ _ after); reflexivity.
  - destruct (contact_row cols positions c) as [row | e]; [| discriminate]. simpl.
    destruct (contact_rows cols positions before) as [rows' | e]; [| discriminate].
    simpl. intros H. inversion H; subst. rewrite (IH rows' eq_refl).
    destruct (contact_rows _ _ after); reflexivity.
Qed.

(** X8.  [buildContactMatrix] returns a matrix exactly when every
    contact names two entries of [positions] whose distance is not
    below 1e-15; the matrix then has the row of each contact, in
    order. *)
Theorem buildContactMatrix_ok_iff (config : Configuration num) (A : Matrix num) :
  let positions := config.(positions) in
  let contacts := config.(contacts) in
  buildContactMatrix config = Ok A <->
  (in_range (List.length positions) contacts /\
   Forall (fun c => ~ coincident positions c) contacts /\
   A = map (fun c => contact_row_of (2 * config.(n)) (fst c) (snd c)
                       (direction positions c)) contacts).
Proof.
  intros positions contacts. unfold buildContactMatrix. fold positions contacts.
  split.
  - intros HA. assert (Hr := @contact_rows_ok _ _ _ _ HA).
    destruct (contact_rows_in_range (2 * config.(n)) positions Hr)
      as [(_ & msg & E) | (Hall & E)]; rewrite E in HA; [discriminate |].
    split; [exact Hr |]. split; [exact Hall |].
    inversion HA. reflexivity.
  - intros (Hr & Hall & ->).
    destruct (contact_rows_in_range (2 * config.(n)) positions Hr)
      as [(Hex & _) | (_ & E)]; [| exact E].
    exfalso. rewrite Exists_exists in Hex. destruct Hex as (c & Hin & Hc).
    rewrite Forall_forall in Hall. exact (Hall c Hin Hc).
Qed.

(** X9.  The first contact that cannot be turned into a row decides
    how [buildContactMatrix] fails: a [TypeError] when one of its
    indices is not an index of [positions], the error that names its
    two disks when its centres are closer than 1e-15. *)
Theorem buildContactMatrix_first_failure (config : Configuration num)
  (before after : list Contact) (i j : Z) :
  let positions := config.(positions) in
  config.(contacts) = before ++ (i, j) :: after ->
  in_range (List.length positions) before ->
  Forall (fun c => ~ coincident positions c) before ->
  (~ ((0 <= i < Z.of_nat (List.length positions))%Z /\
      (0 <= j < Z.of_nat (List.length positions))%Z) ->
   buildContactMatrix config = Throw TypeError) /\
  ((0 <= i < Z.of_nat (List.length positions))%Z ->
   (0 <= j < Z.of_nat (List.length positions))%Z ->
   coincident positions (i, j) ->
   buildContactMatrix config =
     Throw (Error ("Disks " +++ js_string_of_Z i +++ " and "
                     +++ js_string_of_Z j +++ " have coincident centers"))).
Proof.
  intros positions Hcs Hr Hall. unfold buildContactMatrix. fold positions.
  rewrite Hcs.
  destruct (contact_rows_in_range (2 * config.(n)) positions Hr)
    as [(Hex & _) | (_ & E)].
  { exfalso. rewrite Exists_exists in Hex. destruct Hex as (c & Hin & Hc).
    rewrite Forall_forall in Hall. exact (Hall c Hin Hc). }
  rewrite (@contact_rows_app _ _ _ ((i, j) :: after) _ E). cbn [contact_rows].
  split.
  - intros Hout. unfold contact_row.
    destruct (point_at positions j) as [pj |] eqn:Ej;
      [destruct (point_at positions i) as [pi |] eqn:Ei |]; try reflexivity.
    exfalso. apply Hout. split; eapply point_at_some; eauto.
  - intros Hi Hj Hc. unfold contact_row.
    rewrite (point_at_in_range _ Hi), (point_at_in_range _ Hj).
    unfold coincident, centre_distance in Hc. cbn [fst snd] in Hc.
    rewrite Hc. reflexivity.
Qed.

(** X11.  With at least one contact, the rolling dimension that
    [computeConstraints] reports is the number of eigenvalues of
    [At A] that the eigen-solver returns with magnitude below 1e-10
    (0 when it returns no eigenvector at all), and every row of the
    rolling matrix has that many entries; when no eigenvalue is below
    the tolerance the rolling matrix is one empty row per column of
    [A]. *)
Theorem computeConstraints_dimension (la : LinAlg num)
  (config : Configuration num) (cd : ConstraintData num) :
  config.(contacts) <> [] ->
  computeConstraints la config = Ok cd ->
  let A := cd.(contactMatrix) in
  let eig := la.(EigenvalueDecomposition) (mmul (transpose A) A) in
  let small :=
    filter (fun i => absn (array_get eig.(realEigenvalues) i) <? lit_1e10)
           (range (List.length eig.(realEigenvalues))) in
  buildContactMatrix config = Ok A /\
  Forall (fun row => List.length row = List.length small) cd.(rollingMatrix) /\
  cd.(dimension) = match cd.(rollingMatrix) with
                   | [] => O
                   | _ :: _ => List.length small
                   end /\
  (small = [] ->
   cd.(rollingMatrix) = repeat [] (List.length (nth 0 A [])) /\
   cd.(dimension) = O) /\
  (small <> [] ->
   cd.(rollingMatrix) =
     map (fun row => map (array_get row) small) eig.(eigenvectorMatrix)).
Proof.
  intros Hne Hcd A eig small. unfold computeConstraints in Hcd.
  destruct (buildContactMatrix config) as [A0 | e] eqn:HA; [| discriminate].
  cbn [bind] in Hcd.
  assert (Hcd' := f_equal (fun r => match r with Ok a => a | Throw _ => cd end) Hcd).
  cbv beta iota in Hcd'. clear Hcd. subst cd.
  cbn [contactMatrix rollingMatrix dimension] in *. subst A.
  split; [reflexivity |].
  destruct A0 as [| row0 rest].
  { exfalso. unfold buildContactMatrix in HA.
    destruct config.(contacts) as [| c cs]; [congruence |].
    simpl in HA. destruct (contact_row _ _ c); [| discriminate]. simpl in HA.
    destruct (contact_rows _ _ cs); discriminate. }
  unfold rollingSpaceBasis. fold eig. fold small. cbn [nth].
  destruct small as [| k small'] eqn:Es.
  - split; [apply Forall_forall; intros row Hrow; apply repeat_spec in Hrow; subst; reflexivity |].
    split; [destruct (List.length row0); reflexivity |].
    split; [intros _ | congruence].
    split; [reflexivity |]. destruct (List.length row0); reflexivity.
  - split; [apply Forall_forall; intros row Hrow; apply in_map_iff in Hrow;
            destruct Hrow as (r & <- & _); apply length_map |].
    split.
    + destruct (eigenvectorMatrix eig) as [| v0 V]; [reflexivity |].
      cbn [map List.length]. f_equal. apply length_map.
    + split; [discriminate | reflexivity].
Qed.

End ConstraintReports.

Section Pipeline.
Context {num : Type} {N : Number num}.
Local Open Scope num_scope.


End Pipeline.

Section Kernel.
Local Open Scope R_scope.

Lemma self_contact_coincident (positions : list (R * R)) (i : Z) :
  coincident positions (i, i).
Proof.
  unfold coincident, centre_distance. cbn [fst snd].
  cbv [sub add mul sqrt ltb lit_1e15 Exact.number].
  replace ((fst (centre positions i) - fst (centre positions i)) *
           (fst (centre positions i) - fst (centre positions i)) +
           (snd (centre positions i) - snd (centre positions i)) *
           (snd (centre positions i) - snd (centre positions i))) with 0 by ring.
  rewrite sqrt_0. unfold Rltb. destruct (Rlt_dec 0 1e-15) as [| Hn]; [reflexivity |].
  exfalso. apply Hn. lra.
Qed.

(** X10.  In exact arithmetic every row of the contact matrix of a
    well-formed configuration vanishes on the two translations and on
    the rotation about the origin: the rigid motions of the plane are
    always in the kernel whose basis [rollingSpaceBasis] is meant to
    return. *)
Theorem buildContactMatrix_rigid_motions (config : Configuration R)
  (A : Matrix R) :
  well_formed config ->
  buildContactMatrix config = Ok A ->
  forall row, In row A ->
    dot row (flatten (map (fun _ => (1, 0)) config.(positions))) = 0 /\
    dot row (flatten (map (fun _ => (0, 1)) config.(positions))) = 0 /\
    dot row (flatten (map (fun p => (- snd p, fst p)) config.(positions))) = 0.
Proof.
  intros Hwf HA. apply rigid_motions_in_kernel; [exact Hwf | | exact HA].
  destruct Hwf as [Hlen Hrange].
  assert (Hr : in_range (List.length config.(positions)) config.(contacts))
    by (rewrite Hlen; exact Hrange).
  unfold buildContactMatrix in HA.
  destruct (contact_rows_in_range (2 * config.(n)) config.(positions) Hr)
    as [(_ & msg & E) | (Hall & _)]; [rewrite E in HA; discriminate |].
  unfold no_self_loops. rewrite Forall_forall in *.
  intros [i j] Hin Hij. cbn [fst snd] in Hij. subst j.
  apply (Hall _ Hin). apply self_contact_coincident.
Qed.

End Kernel.

Lemma two_exact_disks_well_formed : well_formed ExactCases.two_exact_disks.
Proof. split; [reflexivity |]. repeat constructor; simpl; lia. Qed.

Lemma two_exact_disks_apart :
  Forall (fun c => ~ coincident ExactCases.two_exact_disks.(positions) c)
         ExactCases.two_exact_disks.(contacts).
Proof.
  repeat constructor. unfold coincident, centre_distance, centre, hull_point.
  cbn [ExactCases.two_exact_disks positions fst snd].
  change (Z.to_nat 1) with 1%nat. change (Z.to_nat 0) with O.
  cbn [nth fst snd].
  cbv [sub add mul sqrt ltb lit_1e15 Exact.number].
  replace ((1 - -1) * (1 - -1) + (0 - 0) * (0 - 0))%R with (2 * 2)%R by ring.
  rewrite sqrt_square by lra. unfold Rltb.
  destruct (Rlt_dec 2 1e-15) as [H |]; [| discriminate]. exfalso. lra.
Qed.

Lemma two_exact_disks_matrix :
  exists A, buildContactMatrix ExactCases.two_exact_disks = Ok A /\ A <> [].
Proof.
  assert (Hr : in_range (List.length ExactCases.two_exact_disks.(positions))
                 ExactCases.two_exact_disks.(contacts))
    by (repeat constructor; simpl; lia).
  destruct (contact_rows_in_range (2 * 2) ExactCases.two_exact_disks.(positions) Hr)
    as [(Hex & _) | (_ & E)].
  - exfalso. rewrite Exists_exists in Hex. destruct Hex as (c & Hin & Hc).
    pose proof two_exact_disks_apart as Hall. rewrite Forall_forall in Hall.
    exact (Hall c Hin Hc).
  - eexists. split; [exact E |]. discriminate.
Qed.

Lemma buildContactMatrix_rigid_motions_witness :
  well_formed ExactCases.two_exact_disks /\
  exists A, buildContactMatrix ExactCases.two_exact_disks = Ok A /\ A <> [] /\
    forall row, In row A ->
      dot row (flatten (map (fun _ => (1, 0)%R) ExactCases.two_exact_disks.(positions))) = 0%R.
Proof.
  split; [exact two_exact_disks_well_formed |].
  destruct two_exact_disks_matrix as (A & HA & Hne).
  exists A. split; [exact HA |]. split; [exact Hne |].
  intros row Hrow.
  exact (proj1 (buildContactMatrix_rigid_motions two_exact_disks_well_formed
                  HA row Hrow)).
Defined.


Lemma buildContactMatrix_first_failure_witness :
  Cases.missing_disk.(contacts) = [(0, 1)%Z] ++ (0, 7)%Z :: [] /\
  in_range (List.length Cases.missing_disk.(positions)) [(0, 1)%Z] /\
  Forall (fun c => ~ coincident Cases.missing_disk.(positions) c) [(0, 1)%Z] /\
  ~ ((0 <= 0 < Z.of_nat (List.length Cases.missing_disk.(positions)))%Z /\
     (0 <= 7 < Z.of_nat (List.length Cases.missing_disk.(positions)))%Z) /\
  buildContactMatrix Cases.missing_disk = Throw TypeError.
Proof.
  assert (H1 : Cases.missing_disk.(contacts) = [(0, 1)%Z] ++ (0, 7)%Z :: [])
    by reflexivity.
  assert (H2 : in_range (List.length Cases.missing_disk.(positions)) [(0, 1)%Z])
    by (repeat constructor; simpl; lia).
  assert (H3 : Forall (fun c => ~ coincident Cases.missing_disk.(positions) c)
                 [(0, 1)%Z]).
  { repeat constructor. unfold coincident. vm_compute. discriminate. }
  assert (H4 : ~ ((0 <= 0 < Z.of_nat (List.length Cases.missing_disk.(positions)))%Z /\
                  (0 <= 7 < Z.of_nat (List.length Cases.missing_disk.(positions)))%Z))
    by (simpl; lia).
  split; [exact H1 |]. split; [exact H2 |]. split; [exact H3 |].
  split; [exact H4 |].
  exact (proj1 (@buildContactMatrix_first_failure _ _ Cases.missing_disk
                  [(0, 1)%Z] [] 0%Z 7%Z H1 H2 H3) H4).
Defined.

Lemma computeConstraints_dimension_witness :
  Scenario.two_disks.(contacts) <> [] /\
  exists cd,
    computeConstraints Cases.two_disks_library Scenario.two_disks = Ok cd /\
    cd.(dimension) = 3%nat.
Proof.
  assert (Hne : Scenario.two_disks.(contacts) <> []) by discriminate.
  split; [exact Hne |].
  eexists. split; [reflexivity |].
  exact (proj1 (proj2 (proj2 (@computeConstraints_dimension _ _
                                Cases.two_disks_library Scenario.two_disks _
                                Hne eq_refl)))).
Defined.

(* ================================================================== *)
(** * 26. Further properties of the hull and the perimeter *)
(* ================================================================== *)

Section HullReports.
Context {num : Type} {N : Number num}.
Local Open Scope num_scope.

(** X13.  The hull is a list of distinct indices of [points]; it is
    all the indices when there is at most one point, and has at least
    two entries when there are two points or more. *)
Theorem convexHullIndices_indices (points : list (num * num)) :
  let hull := convexHullIndices points in
  NoDup hull /\
  (forall i, In i hull -> (i < List.length points)%nat) /\
  (List.length hull <= List.length points)%nat /\
  ((List.length points <= 1)%nat -> hull = range (List.length points)) /\
  ((2 <= List.length points)%nat -> (2 <= List.length hull)%nat).
Proof.
  intros hull. destruct (convexHullIndices_spec points) as [Hnd Hidx].
  fold hull in Hnd, Hidx.
  split; [exact Hnd |]. split; [exact Hidx |]. split; [| split].
  - assert (Hincl : incl hull (seq 0 (List.length points))).
    { intros i Hi. apply in_seq. specialize (Hidx i Hi). lia. }
    pose proof (NoDup_incl_length Hnd Hincl) as H. rewrite length_seq in H. exact H.
  - intros Hle. unfold hull, convexHullIndices.
    destruct (Nat.leb_spec (List.length points) 1); [reflexivity | lia].
  - apply convexHullIndices_at_least_two.
Qed.

Lemma push_apart_other (g : list num) (a b : nat) (wx wy : num) :
  (2 * a + 1 < List.length g)%nat -> (2 * b + 1 < List.length g)%nat ->
  List.length (push_apart g a b wx wy) = List.length g /\
  forall k, k <> (2 * a)%nat -> k <> (2 * a + 1)%nat ->
            k <> (2 * b)%nat -> k <> (2 * b + 1)%nat ->
    array_get (push_apart g a b wx wy) k = array_get g k.
Proof.
  intros Ha Hb. unfold push_apart, array_sub_at, array_add_at. split.
  - assert (L : forall l k v, List.length l = List.length g ->
                  (k < List.length g)%nat ->
                  List.length (array_set l k v) = List.length g).
    { intros l k v Hl Hk. rewrite array_set_length; lia. }
    repeat (apply L; [| lia]). reflexivity.
  - intros k H1 H2 H3 H4. rewrite !array_get_set_other by lia. reflexivity.
Qed.

(** X14.  With one centre per disk, and in an arithmetic where the
    square root of 0 is below 1e-15, the gradient has 2n entries and
    the two entries of a disk that is not on the hull are 0. *)
Theorem perimeterGradient_off_hull (la : LinAlg num) (config : Configuration num) :
  List.length config.(positions) = config.(n) ->
  (sqrt zero <? lit_1e15) = true ->
  let g := perimeterGradient la config in
  List.length g = (2 * config.(n))%nat /\
  forall i, (i < config.(n))%nat ->
    ~ In i (convexHullIndices config.(positions)) ->
    array_get g (2 * i) = zero /\ array_get g (2 * i + 1) = zero.
Proof.
  intros Hlen Hzero g.
  set (hull := convexHullIndices config.(positions)).
  set (good := fun l : list num =>
     List.length l = (2 * config.(n))%nat /\
     forall i, (i < config.(n))%nat -> ~ In i hull ->
       array_get l (2 * i) = zero /\ array_get l (2 * i + 1) = zero).
  change (good g).
  assert (H0 : good (repeat zero (2 * config.(n)))).
  { split; [apply repeat_length |]. intros i Hi _.
    split; apply array_get_repeat; lia. }
  assert (Hpush : forall l a b wx wy, good l -> In a hull -> In b hull ->
            good (push_apart l a b wx wy)).
  { intros l a b wx wy [Hl Hz] Ha Hb.
    destruct (convexHullIndices_spec config.(positions)) as [_ Hidx].
    pose proof (Hidx a Ha) as Ha'. pose proof (Hidx b Hb) as Hb'.
    rewrite Hlen in Ha', Hb'.
    destruct (@push_apart_other l a b wx wy) as [HL Hother]; [lia | lia |].
    split; [lia |]. intros i Hi Hni.
    assert (i <> a) by (intros ->; contradiction).
    assert (i <> b) by (intros ->; contradiction).
    rewrite !Hother by lia. apply Hz; assumption. }
  unfold g, perimeterGradient. fold hull.
  destruct (List.length hull <=? 1)%nat; [exact H0 |].
  destruct (isCollinear la config.(positions)).
  - unfold collinear_gradient.
    pose proof (farthest_pair_sq_from_pairs config.(positions) hull) as Hfrom.
    destruct (farthest_pair_sq config.(positions) hull) as [[m a] b].
    destruct Hfrom as [E | [Hin _]].
    + injection E as -> -> ->. rewrite Hzero. exact H0.
    + destruct (sqrt m <? lit_1e15); [exact H0 |].
      destruct (pairs_In _ _ _ Hin). apply Hpush; assumption.
  - unfold polygon_gradient.
    assert (Hfold : forall edges l, good l ->
              (forall a b, In (a, b) edges -> In a hull /\ In b hull) ->
              good (fold_left (fun grad '(i, j) =>
                 let pi := hull_point config.(positions) i in
                 let pj := hull_point config.(positions) j in
                 let dx := fst pj - fst pi in
                 let dy := snd pj - snd pi in
                 let dist := sqrt (dx * dx + dy * dy) in
                 if dist <? lit_1e15 then grad
                 else push_apart grad i j (dx / dist) (dy / dist)) edges l)).
    { induction edges as [| [a b] edges IH]; intros l Hl He; cbn [fold_left];
        [exact Hl |].
      apply IH; [| intros x y Hxy; apply He; right; exact Hxy].
      destruct (He a b (or_introl eq_refl)) as [Ha Hb].
      cbv zeta.
      match goal with |- good (if ?c then _ else _) => destruct c end;
        [exact Hl | apply Hpush; assumption]. }
    apply Hfold; [exact H0 |]. intros a b Hab. apply cyclic_edges_In. exact Hab.
Qed.

(** X16.  With at most one centre there is no hull edge: the perimeter
    of the centres is 0, the perimeter of the disks is the circle of
    the first radius alone, and the gradient is 2n zeros. *)
Theorem perimeter_at_most_one_centre (la : LinAlg num) (config : Configuration num) :
  (List.length config.(positions) <= 1)%nat ->
  isCollinear la config.(positions) = true /\
  perimeterOfCenters la config = zero /\
  perimeterOfDisks la config = zero + two * PI * array_get config.(radii) 0 /\
  perimeterGradient la config = repeat zero (2 * config.(n)).
Proof.
  intros Hle.
  assert (Hhull : (List.length (convexHullIndices config.(positions)) <=? 1)%nat = true).
  { apply Nat.leb_le. unfold convexHullIndices.
    destruct (Nat.leb_spec (List.length config.(positions)) 1); [| lia].
    unfold range. rewrite length_seq. exact Hle. }
  assert (Hc : perimeterOfCenters la config = zero)
    by (unfold perimeterOfCenters; rewrite Hhull; reflexivity).
  split; [| split; [exact Hc | split]].
  - unfold isCollinear. destruct (Nat.ltb_spec (List.length config.(positions)) 3);
      [reflexivity | lia].
  - unfold perimeterOfDisks. rewrite Hc. reflexivity.
  - unfold perimeterGradient. rewrite Hhull. reflexivity.
Qed.

End HullReports.

Lemma perimeterGradient_off_hull_witness :
  List.length Scenario.two_disks.(positions) = Scenario.two_disks.(n) /\
  List.length (perimeterGradient Scenario.no_library Scenario.two_disks) = 4%nat.
Proof.
  split; [reflexivity |].
  assert (H : (sqrt (zero : float) <? lit_1e15)%num = true)
    by (vm_compute; reflexivity).
  exact (proj1 (@perimeterGradient_off_hull _ _ Scenario.no_library
                  Scenario.two_disks eq_refl H)).
Defined.

Lemma perimeter_at_most_one_centre_witness :
  (List.length Cases.lone_disk.(positions) <= 1)%nat /\
  perimeterOfCenters Scenario.no_library Cases.lone_disk = 0%float /\
  perimeterGradient Scenario.no_library Cases.lone_disk = [0; 0]%float.
Proof.
  assert (H : (List.length Cases.lone_disk.(positions) <= 1)%nat)
    by (simpl; lia).
  split; [exact H |].
  destruct (perimeter_at_most_one_centre Scenario.no_library Cases.lone_disk H)
    as (_ & H1 & _ & H2).
  split; [exact H1 | exact H2].
Defined.

(** *** Not a number *)

Section NotANumber.
Local Open Scope float_scope.

Lemma add_nan_r (x : float) : x + nan = nan.
Proof.
  apply Prim2SF_inj. rewrite add_spec.
  change (Prim2SF nan) with S754_nan.
  destruct (Prim2SF x) as [s | s | | s m e]; reflexivity.
Qed.

(** X17.  A configuration without radii has no perimeter of disks:
    [radii[0]] is [undefined] and the sum is NaN, whatever the centres
    are. *)
Theorem perimeterOfDisks_without_radii (la : LinAlg float)
  (config : Configuration float) :
  config.(radii) = [] ->
  perimeterOfDisks la config = nan.
Proof.
  intros Hr. unfold perimeterOfDisks. rewrite Hr.
  change (array_get (@nil float) 0) with nan.
  change (two * PI * nan)%num with nan.
  apply add_nan_r.
Qed.

End NotANumber.

Lemma perimeterOfDisks_without_radii_witness :
  Scenario.two_components.(radii) = [] /\
  perimeterOfDisks Scenario.no_library Scenario.two_components = nan.
Proof.
  split; [reflexivity |].
  exact (perimeterOfDisks_without_radii Scenario.no_library
           Scenario.two_components eq_refl).
Defined.

(** *** Rigid motions *)

Section GradientInvariance.
Local Open Scope R_scope.

Lemma array_set_same_length (a : list R) (k : nat) (v : R) :
  (k < List.length a)%nat -> List.length (array_set a k v) = List.length a.
Proof. apply array_set_length. Qed.

(** The four updates of an edge change the product with velocities by
    the rate at which the two ends move apart along the weight. *)
Lemma push_apart_dot (g : list R) (vs : list (R * R)) (a b : nat) (wx wy : R) :
  List.length g = (2 * List.length vs)%nat ->
  (a < List.length vs)%nat -> (b < List.length vs)%nat ->
  let va := nth a vs (0, 0) in
  let vb := nth b vs (0, 0) in
  List.length (push_apart g a b wx wy) = List.length g /\
  dot (push_apart g a b wx wy) (flatten vs)
  = dot g (flatten vs) + wx * (fst vb - fst va) + wy * (snd vb - snd va).
Proof.
  intros Hg Ha Hb va vb. unfold push_apart, array_sub_at, array_add_at.
  assert (Hz : List.length (flatten vs) = List.length g)
    by (rewrite flatten_length; lia).
  destruct (flatten_get vs a) as [Ea0 Ea1]. destruct (flatten_get vs b) as [Eb0 Eb1].
  fold va in Ea0, Ea1. fold vb in Eb0, Eb1.
  set (r1 := array_set g (2 * a) _).
  set (r2 := array_set r1 (2 * a + 1) _).
  set (r3 := array_set r2 (2 * b) _).
  assert (L1 : List.length r1 = List.length g)
    by (apply array_set_same_length; lia).
  assert (L2 : List.length r2 = List.length g)
    by (unfold r2; rewrite array_set_same_length; lia).
  assert (L3 : List.length r3 = List.length g)
    by (unfold r3; rewrite array_set_same_length; lia).
  split; [rewrite array_set_same_length; lia |].
  rewrite (@dot_array_set r3) by lia. unfold r3 at 1.
  rewrite (@dot_array_set r2) by lia. unfold r2 at 1.
  rewrite (@dot_array_set r1) by lia. unfold r1 at 1.
  rewrite (@dot_array_set g) by lia.
  rewrite Ea0, Ea1, Eb0, Eb1.
  cbv [add sub Exact.number]. ring.
Qed.

Lemma gradient_orthogonal (la : LinAlg R) (config : Configuration R)
  (vs : list (R * R)) :
  List.length config.(positions) = config.(n) ->
  rigid config.(positions) vs ->
  dot (perimeterGradient la config) (flatten vs) = 0.
Proof.
  intros Hlen [Hvs Hrigid].
  set (hull := convexHullIndices config.(positions)).
  set (good := fun l : list R =>
     List.length l = (2 * List.length vs)%nat /\ dot l (flatten vs) = 0).
  assert (Hgood : good (perimeterGradient la config)); [| exact (proj2 Hgood)].
  assert (H0 : good (repeat (zero : R) (2 * config.(n)))).
  { split; [rewrite repeat_length; lia | apply dot_repeat_zero]. }
  assert (Hidx : forall i, In i hull -> (i < List.length vs)%nat).
  { intros i Hi. rewrite Hvs.
    apply (proj2 (convexHullIndices_spec config.(positions))). exact Hi. }
  assert (Hpush : forall l a b s, good l -> In a hull -> In b hull ->
    let pa := hull_point config.(positions) a in
    let pb := hull_point config.(positions) b in
    good (push_apart l a b (s * (fst pb - fst pa)) (s * (snd pb - snd pa)))).
  { intros l a b s [Hl Hd] Ha Hb pa pb.
    destruct (@push_apart_dot l vs a b (s * (fst pb - fst pa)) (s * (snd pb - snd pa)))
      as [HL Hdot]; auto.
    split; [lia |]. rewrite Hdot, Hd.
    pose proof (Hrigid a b (Hidx a Ha) (Hidx b Hb)) as Hr. cbv zeta in Hr.
    fold pa pb in Hr.
    set (va := nth a vs (0, 0)) in *. set (vb := nth b vs (0, 0)) in *.
    replace (0 + s * (fst pb - fst pa) * (fst vb - fst va) +
             s * (snd pb - snd pa) * (snd vb - snd va))
      with (s * ((fst pb - fst pa) * (fst vb - fst va) +
                 (snd pb - snd pa) * (snd vb - snd va))) by ring.
    rewrite Hr. ring. }
  unfold perimeterGradient. fold hull.
  destruct (List.length hull <=? 1)%nat; [exact H0 |].
  destruct (isCollinear la config.(positions)).
  - unfold collinear_gradient.
    pose proof (farthest_pair_sq_from_pairs config.(positions) hull) as Hfrom.
    destruct (farthest_pair_sq config.(positions) hull) as [[m a] b].
    destruct Hfrom as [E | [Hin _]].
    + injection E as -> -> ->.
      match goal with
      | |- good (if ?c then _ else _) => assert (Hz : c = true)
      end.
      { cbv [sqrt zero ltb lit_1e15 Exact.number]. rewrite sqrt_0.
        unfold Rltb. destruct (Rlt_dec 0 1e-15) as [| Hn]; [reflexivity |].
        exfalso. apply Hn. lra. }
      rewrite Hz. exact H0.
    + destruct (sqrt m <? lit_1e15)%num; [exact H0 |].
      destruct (pairs_In _ _ _ Hin) as [Ha Hb].
      pose proof (@Hpush (repeat (zero : R) (2 * config.(n))) a b
                    (2 / R_sqrt.sqrt m) H0 Ha Hb) as Hp.
      cbv zeta in Hp.
      match goal with
      | |- good (push_apart _ _ _ ?x ?y) =>
          replace x with (2 / R_sqrt.sqrt m *
                          (fst (hull_point config.(positions) b) -
                           fst (hull_point config.(positions) a)));
          [replace y with (2 / R_sqrt.sqrt m *
                          (snd (hull_point config.(positions) b) -
                           snd (hull_point config.(positions) a))) |]
      end; [exact Hp | |];
        cbv [two mul div sub sqrt Exact.number]; unfold Rdiv; ring.
  - unfold polygon_gradient.
    assert (Hfold : forall edges l, good l ->
              (forall a b, In (a, b) edges -> In a hull /\ In b hull) ->
              good (fold_left (fun grad '(i, j) =>
                 let pi := hull_point config.(positions) i in
                 let pj := hull_point config.(positions) j in
                 let dx := (fst pj - fst pi)%num in
                 let dy := (snd pj - snd pi)%num in
                 let dist := sqrt (dx * dx + dy * dy)%num in
                 if (dist <? lit_1e15)%num then grad
                 else push_apart grad i j (dx / dist)%num (dy / dist)%num)
                edges l)).
    { induction edges as [| [a b] edges IH]; intros l Hl He; cbn [fold_left];
        [exact Hl |].
      apply IH; [| intros x y Hxy; apply He; right; exact Hxy].
      destruct (He a b (or_introl eq_refl)) as [Ha Hb].
      cbv zeta.
      match goal with |- good (if ?c then _ else _) => destruct c end;
        [exact Hl |].
      match goal with
      | |- good (push_apart _ _ _ (_ / ?d)%num _) =>
          pose proof (@Hpush l a b (/ d) Hl Ha Hb) as Hp
      end.
      cbv zeta in Hp.
      match goal with
      | |- good (push_apart _ _ _ ?x ?y) =>
          match type of Hp with
          | good (push_apart _ _ _ ?x' ?y') =>
              replace x with x'; [replace y with y' |]
          end
      end; [exact Hp | |];
        cbv [mul div sub add sqrt Exact.number]; unfold Rdiv; ring. }
    apply Hfold; [exact H0 |]. intros a b Hab. apply cyclic_edges_In. exact Hab.
Qed.


Lemma rigid_translation (positions : list (R * R)) (v : R * R) :
  rigid positions (map (fun _ => v) positions).
Proof.
  split; [apply length_map |]. rewrite length_map. intros a b Ha Hb. cbv zeta.
  rewrite !(@nth_map_in_range _ _ (fun _ : R * R => v) positions _ (0, 0) (0, 0))
    by assumption.
  ring.
Qed.

Lemma rigid_rotation (positions : list (R * R)) :
  rigid positions (map (fun p => (- snd p, fst p)) positions).
Proof.
  split; [apply length_map |]. rewrite length_map. intros a b Ha Hb. cbv zeta.
  rewrite !(@nth_map_in_range _ _ (fun p : R * R => (- snd p, fst p)) positions
              _ (0, 0) (0, 0)) by assumption.
  unfold hull_point. cbn [fst snd undef Exact.number]. ring.
Qed.

(** X15.  In exact arithmetic, with one centre per disk, the gradient
    of the perimeter vanishes on every velocity field that keeps the
    distances between the centres to first order: on the two
    translations and on the rotation about the origin in
    particular. *)
Theorem perimeterGradient_rigid_motions (la : LinAlg R) (config : Configuration R) :
  List.length config.(positions) = config.(n) ->
  let g := perimeterGradient la config in
  (forall vs, rigid config.(positions) vs -> dot g (flatten vs) = 0) /\
  dot g (flatten (map (fun _ => (1, 0)) config.(positions))) = 0 /\
  dot g (flatten (map (fun _ => (0, 1)) config.(positions))) = 0 /\
  dot g (flatten (map (fun p => (- snd p, fst p)) config.(positions))) = 0.
Proof.
  intros Hlen g.
  assert (H : forall vs, rigid config.(positions) vs -> dot g (flatten vs) = 0)
    by (intros vs Hvs; apply gradient_orthogonal; assumption).
  split; [exact H |].
  split; [apply H, rigid_translation |].
  split; [apply H, rigid_translation | apply H, rigid_rotation].
Qed.

End GradientInvariance.

Lemma perimeterGradient_rigid_motions_witness :
  List.length ExactCases.two_exact_disks.(positions) = ExactCases.two_exact_disks.(n) /\
  dot (perimeterGradient ExactScenario.sample_library ExactCases.two_exact_disks)
      (flatten (map (fun p => (- snd p, fst p)%R)
                    ExactCases.two_exact_disks.(positions))) = 0%R.
Proof.
  split; [reflexivity |].
  exact (proj2 (proj2 (proj2 (@perimeterGradient_rigid_motions
                                ExactScenario.sample_library
                                ExactCases.two_exact_disks eq_refl)))).
Defined.

(* ================================================================== *)
(** * 27. Further properties of the Hessian engine *)
(* ================================================================== *)

Section HessianShapes.
Context {num : Type} {N : Number num}.
Local Open Scope num_scope.

Lemma mat_get_outside_rows (M : Matrix num) (i j : nat) :
  (List.length M <= i)%nat -> mat_get M i j = undef.
Proof.
  intros H. unfold mat_get, array_get. rewrite (nth_overflow M []) by exact H.
  destruct j; reflexivity.
Qed.

Lemma symmetrize_entry (H : Matrix num) (i j : nat) :
  (i < List.length H)%nat -> (j < List.length H)%nat ->
  mat_get (symmetrize H) i j = (mat_get H i j + mat_get H j i) / two.
Proof.
  intros Hi Hj. unfold symmetrize. set (n := List.length H) in *.
  assert (Hr : List.length (range n) = n) by apply length_seq.
  unfold mat_get at 1, array_get.
  rewrite (@nth_map_in_range _ _ _ (range n) i O []) by (rewrite Hr; exact Hi).
  rewrite (@nth_map_in_range _ _ _ (range n) j O undef) by (rewrite Hr; exact Hj).
  unfold range. rewrite !seq_nth by assumption. reflexivity.
Qed.

Lemma symmetrize_shape (H : Matrix num) :
  List.length (symmetrize H) = List.length H /\
  Forall (fun row => List.length row = List.length H) (symmetrize H).
Proof.
  unfold symmetrize, range. split; [rewrite length_map, length_seq; reflexivity |].
  apply Forall_forall. intros row Hrow. apply in_map_iff in Hrow.
  destruct Hrow as (i & <- & _). rewrite length_map, length_seq. reflexivity.
Qed.

Lemma mat_get_outside_columns (M : Matrix num) (w i j : nat) :
  Forall (fun row => List.length row = w) M -> (w <= j)%nat ->
  mat_get M i j = undef.
Proof.
  intros Hall Hj. unfold mat_get, array_get.
  destruct (Nat.lt_ge_cases i (List.length M)) as [Hi | Hi].
  - rewrite Forall_forall in Hall.
    rewrite nth_overflow; [reflexivity |].
    rewrite (Hall (nth i M [])) by (apply nth_In; exact Hi). exact Hj.
  - rewrite (nth_overflow M []) by exact Hi. destruct j; reflexivity.
Qed.

(** X18.  In an arithmetic whose addition is commutative (the reals,
    binary64) [symmetrize] returns a square matrix of the height of
    its argument that reads the same at (i, j) and at (j, i). *)
Theorem symmetrize_symmetric (H : Matrix num) :
  (forall a b : num, a + b = b + a) ->
  List.length (symmetrize H) = List.length H /\
  Forall (fun row => List.length row = List.length H) (symmetrize H) /\
  forall i j, mat_get (symmetrize H) i j = mat_get (symmetrize H) j i.
Proof.
  intros Hcomm. destruct (symmetrize_shape H) as [HL Hrows].
  split; [exact HL |]. split; [exact Hrows |].
  intros i j.
  destruct (Nat.lt_ge_cases i (List.length H)) as [Hi | Hi],
           (Nat.lt_ge_cases j (List.length H)) as [Hj | Hj].
  - rewrite !symmetrize_entry by assumption. rewrite Hcomm. reflexivity.
  - rewrite (@mat_get_outside_columns _ _ i j Hrows Hj).
    rewrite mat_get_outside_rows by (rewrite HL; exact Hj). reflexivity.
  - rewrite (@mat_get_outside_columns _ _ j i Hrows Hi).
    rewrite mat_get_outside_rows by (rewrite HL; exact Hi). reflexivity.
  - rewrite !mat_get_outside_rows by (rewrite HL; assumption). reflexivity.
Qed.

Lemma add_scaled_column_length (result : list num) (V : Matrix num) (i : nat)
  (coeff : num) :
  List.length (add_scaled_column result V i coeff) = List.length result.
Proof.
  unfold add_scaled_column, range.
  rewrite length_map, length_combine, length_seq. lia.
Qed.

(** X19.  [solveLagrangeMultipliers] returns one multiplier per row of
    [A], whatever the SVD answers; they are all 0 when no singular
    value exceeds the threshold. *)
Theorem solveLagrangeMultipliers_length (la : LinAlg num) (A : Matrix num)
  (gradient : list num) :
  let S := (la.(SVD) (transpose A)).(diagonal) in
  List.length (solveLagrangeMultipliers la A gradient) = List.length A /\
  (Forall (fun s => (s >? lit_1e10 * max_list S) = false) S ->
   solveLagrangeMultipliers la A gradient = repeat zero (List.length A)).
Proof.
  intros S. unfold solveLagrangeMultipliers.
  destruct A as [| row0 rest]; [split; reflexivity |].
  fold S. set (m := List.length (row0 :: rest)).
  set (step := fun (result : list num) (i : nat) => _).
  split.
  - assert (H : forall l init, List.length init = m ->
              List.length (fold_left step l init) = m).
    { induction l as [| i l IH]; intros init Hi; cbn [fold_left]; [exact Hi |].
      apply IH. unfold step. destruct (_ <? _); [| exact Hi].
      rewrite add_scaled_column_length. exact Hi. }
    apply H. apply repeat_length.
  - intros Hall.
    assert (H : forall l init, (forall i, In i l -> (i < List.length S)%nat) ->
              fold_left step l init = init).
    { induction l as [| i l IH]; intros init Hl; cbn [fold_left]; [reflexivity |].
      rewrite IH by (intros k Hk; apply Hl; right; exact Hk).
      unfold step. rewrite Forall_forall in Hall.
      unfold array_get at 1.
      rewrite (Hall (nth i S undef)); [reflexivity |].
      apply nth_In. apply Hl. left. reflexivity. }
    apply H. intros i Hi. unfold range in Hi. apply in_seq in Hi. lia.
Qed.

Lemma transpose_length (M : Matrix num) : List.length (transpose M) = rollDim M.
Proof.
  unfold transpose, rollDim, range. destruct M as [| row0 rest]; [reflexivity |].
  rewrite length_map, length_seq. reflexivity.
Qed.

Lemma mmul_shape (A B : Matrix num) :
  List.length (mmul A B) = List.length A /\
  Forall (fun row => List.length row = rollDim B) (mmul A B).
Proof.
  unfold mmul. split; [apply length_map |].
  apply Forall_forall. intros row Hrow. apply in_map_iff in Hrow.
  destruct Hrow as (r & <- & _). rewrite length_map. apply transpose_length.
Qed.

(** X20.  When the rolling matrix has d > 0 columns and the engine
    returns, the intrinsic Hessian it returns is d by d and, in an
    arithmetic where 0 is finite, has only finite entries; there are
    as many eigenvectors as eigenvalues, one for each eigenvalue of
    the solver, and the Morse index is at most their number. *)
Theorem computeHessian_shape (la : LinAlg num) (config : Configuration num)
  (R : Matrix num) (res : HessianResult num) :
  isFinite zero = true ->
  rollDim R <> O ->
  computeHessian la config R = Ok res ->
  List.length res.(hessian) = rollDim R /\
  Forall (fun row => List.length row = rollDim R /\
                     Forall (fun v => isFinite v = true) row) res.(hessian) /\
  List.length res.(eigenvalues) =
    List.length (la.(EigenvalueDecomposition) (symmetrize res.(hessian))).(realEigenvalues) /\
  List.length res.(eigenvectors) = List.length res.(eigenvalues) /\
  (res.(indexMorseCritical) <= List.length res.(eigenvalues))%nat.
Proof.
  intros Hfin Hd Hres. unfold computeHessian in Hres.
  destruct (Nat.eqb_spec (rollDim R) 0) as [| _]; [contradiction |].
  destruct (buildEuclideanHessian la config) as [HE | e]; [| discriminate].
  cbn [bind] in Hres.
  destruct (buildContactMatrix config) as [A | e]; [| discriminate].
  cbn [bind] in Hres.
  destruct (buildGeometricHessian config _) as [HG | e]; [| discriminate].
  cbn [bind] in Hres.
  assert (Hres' := f_equal (fun r => match r with Ok a => a | Throw _ => res end) Hres).
  cbv beta iota in Hres'. clear Hres. subst res.
  cbn [hessian eigenvalues eigenvectors indexMorseCritical].
  set (HTotal := map _ (range (2 * config.(n)))).
  set (HRoll := map _ (projectToRoll HTotal R)).
  destruct (mmul_shape (mmul (transpose R) HTotal) R) as [L1 L2].
  destruct (mmul_shape (transpose R) HTotal) as [L3 _].
  rewrite transpose_length in L3.
  split; [| split; [| split; [| split]]].
  - unfold HRoll, projectToRoll. rewrite length_map. lia.
  - unfold HRoll, projectToRoll. apply Forall_forall. intros row Hrow.
    apply in_map_iff in Hrow. destruct Hrow as (r & <- & Hr).
    rewrite Forall_forall in L2. split.
    + rewrite length_map. apply L2. exact Hr.
    + apply Forall_forall. intros v Hv. apply in_map_iff in Hv.
      destruct Hv as (x & <- & _). destruct (isFinite x) eqn:E; [exact E | exact Hfin].
  - unfold intrinsicSpectrum. cbn [spec_eigenvalues].
    rewrite length_map.
    rewrite (Permutation_length (js_sort_perm _ _)).
    unfold range. rewrite length_seq. unfold cleaned. apply length_map.
  - unfold intrinsicSpectrum. cbn [spec_eigenvalues spec_eigenvectors].
    rewrite !length_map. reflexivity.
  - apply filter_length_le.
Qed.

End HessianShapes.

Section FloatAddition.
Local Open Scope float_scope.

Lemma SFadd_comm (prec emax : Z) (x y : spec_float) :
  SFadd prec emax x y = SFadd prec emax y x.
Proof.
  destruct x as [sx | sx | | sx mx ex], y as [sy | sy | | sy my ey];
    try reflexivity.
  - destruct sx, sy; reflexivity.
  - destruct sx, sy; reflexivity.
  - cbn [SFadd]. rewrite (Z.min_comm ey ex).
    rewrite (Z.add_comm (cond_Zopp sy _)). reflexivity.
Qed.

Lemma float_add_comm (a b : float) : a + b = b + a.
Proof.
  apply Prim2SF_inj. rewrite !add_spec. apply SFadd_comm.
Qed.

End FloatAddition.

Lemma symmetrize_symmetric_witness :
  (forall a b : float, (a + b)%num = (b + a)%num) /\
  forall i j, mat_get (symmetrize Cases.lopsided) i j
              = mat_get (symmetrize Cases.lopsided) j i.
Proof.
  split; [exact float_add_comm |].
  exact (proj2 (proj2 (symmetrize_symmetric Cases.lopsided float_add_comm))).
Defined.

(** *** Translations *)

Section HessianTranslations.
Local Open Scope R_scope.

Lemma nth_replace {A} (l : list A) (r k : nat) (x d : A) :
  (r < List.length l)%nat ->
  nth k (firstn r l ++ x :: skipn (S r) l) d = if (k =? r)%nat then x else nth k l d.
Proof.
  intros Hr.
  assert (Hf : List.length (firstn r l) = r) by (rewrite length_firstn; lia).
  destruct (Nat.eqb_spec k r) as [-> | Hne].
  - rewrite app_nth2 by lia. rewrite Hf, Nat.sub_diag. reflexivity.
  - destruct (Nat.lt_ge_cases k r) as [Hlt | Hge].
    + rewrite app_nth1 by lia. rewrite nth_firstn.
      destruct (Nat.ltb_spec k r); [reflexivity | lia].
    + rewrite app_nth2 by lia. rewrite Hf.
      destruct (k - r)%nat as [| m] eqn:E; [lia |]. cbn [nth].
      rewrite nth_skipn. f_equal. lia.
Qed.

Lemma mat_add_at_dot (w : nat) (H H' : Matrix R) (t : list R) (r c : nat) (v : R) :
  rows_of_width w H -> List.length t = w -> (c < w)%nat ->
  mat_add_at H r c v = Ok H' ->
  rows_of_width w H' /\ List.length H' = List.length H /\
  forall k, row_dot H' t k =
            row_dot H t k + (if (k =? r)%nat then v * array_get t c else 0).
Proof.
  intros Hw Ht Hc. unfold mat_add_at.
  destruct (nth_error H r) as [row |] eqn:E; [| discriminate].
  intros HOk. assert (HH : H' = firstn r H ++ array_add_at row c v :: skipn (S r) H)
    by (inversion HOk; reflexivity).
  clear HOk. subst H'.
  assert (Hr : (r < List.length H)%nat)
    by (apply nth_error_Some; congruence).
  assert (Hrow : nth r H [] = row) by (apply nth_error_nth; exact E).
  unfold rows_of_width in *. rewrite Forall_forall in Hw.
  assert (Hlen : List.length row = w)
    by (apply Hw; eapply nth_error_In; eauto).
  split; [| split].
  - apply Forall_forall. intros x Hx. apply in_app_or in Hx.
    destruct Hx as [Hx | [<- | Hx]].
    + apply Hw. rewrite <- (firstn_skipn r H). apply in_or_app. left. exact Hx.
    + unfold array_add_at. rewrite array_set_length; lia.
    + apply Hw. rewrite <- (firstn_skipn (S r) H). apply in_or_app. right. exact Hx.
  - rewrite length_app. cbn [List.length]. rewrite length_firstn, length_skipn. lia.
  - intros k. unfold row_dot. rewrite nth_replace by exact Hr.
    destruct (Nat.eqb_spec k r) as [-> | Hne]; [| lra].
    rewrite Hrow. unfold array_add_at.
    rewrite (@dot_array_set row t c) by lia.
    cbv [add Exact.number]. ring.
Qed.

Lemma addBlock_dot (w : nat) (H H' block : Matrix R) (t : list R)
  (row col : nat) (sign : R) :
  rows_of_width w H -> List.length t = w -> (2 * col + 1 < w)%nat ->
  addBlock H block row col sign = Ok H' ->
  rows_of_width w H' /\ List.length H' = List.length H /\
  forall k, row_dot H' t k =
    row_dot H t k
    + (if (k =? 2 * row)%nat
       then sign * (mat_get block 0 0 * array_get t (2 * col)
                    + mat_get block 0 1 * array_get t (2 * col + 1))
       else 0)
    + (if (k =? 2 * row + 1)%nat
       then sign * (mat_get block 1 0 * array_get t (2 * col)
                    + mat_get block 1 1 * array_get t (2 * col + 1))
       else 0).
Proof.
  intros Hw Ht Hc. unfold addBlock.
  destruct (mat_add_at H (2 * row) (2 * col) _) as [H1 | e] eqn:E1; [| discriminate].
  cbn [bind].
  destruct (mat_add_at H1 (2 * row) (2 * col + 1) _) as [H2 | e] eqn:E2; [| discriminate].
  cbn [bind].
  destruct (mat_add_at H2 (2 * row + 1) (2 * col) _) as [H3 | e] eqn:E3; [| discriminate].
  cbn [bind]. intros E4.
  destruct (@mat_add_at_dot w H H1 t (2 * row) (2 * col) _ Hw Ht ltac:(lia) E1) as (W1 & L1 & D1).
  destruct (@mat_add_at_dot w H1 H2 t (2 * row) (2 * col + 1) _ W1 Ht ltac:(lia) E2) as (W2 & L2 & D2).
  destruct (@mat_add_at_dot w H2 H3 t (2 * row + 1) (2 * col) _ W2 Ht ltac:(lia) E3) as (W3 & L3 & D3).
  destruct (@mat_add_at_dot w H3 H' t (2 * row + 1) (2 * col + 1) _ W3 Ht ltac:(lia) E4) as (W4 & L4 & D4).
  split; [exact W4 |]. split; [lia |].
  intros k. rewrite D4, D3, D2, D1.
  cbv [mul Exact.number].
  destruct (Nat.eqb_spec k (2 * row)), (Nat.eqb_spec k (2 * row + 1)); try lia; ring.
Qed.

Lemma add_edge_blocks_dot (n : nat) (H H' block : Matrix R) (t : list R)
  (u v : nat) :
  uniform n t -> rows_of_width (2 * n) H -> (u < n)%nat -> (v < n)%nat ->
  add_edge_blocks H block u v = Ok H' ->
  rows_of_width (2 * n) H' /\ List.length H' = List.length H /\
  forall k, row_dot H' t k = row_dot H t k.
Proof.
  intros [Ht Hu] Hw Hun Hvn. unfold add_edge_blocks.
  destruct (addBlock H block u u one) as [H1 | e] eqn:E1; [| discriminate].
  cbn [bind].
  destruct (addBlock H1 block v v one) as [H2 | e] eqn:E2; [| discriminate].
  cbn [bind].
  destruct (addBlock H2 block u v (- one)%num) as [H3 | e] eqn:E3; [| discriminate].
  cbn [bind]. intros E4.
  destruct (@addBlock_dot (2 * n) H H1 block t u u _ Hw Ht ltac:(lia) E1) as (W1 & L1 & D1).
  destruct (@addBlock_dot (2 * n) H1 H2 block t v v _ W1 Ht ltac:(lia) E2) as (W2 & L2 & D2).
  destruct (@addBlock_dot (2 * n) H2 H3 block t u v _ W2 Ht ltac:(lia) E3) as (W3 & L3 & D3).
  destruct (@addBlock_dot (2 * n) H3 H' block t v u _ W3 Ht ltac:(lia) E4) as (W4 & L4 & D4).
  split; [exact W4 |]. split; [lia |].
  intros k. rewrite D4, D3, D2, D1.
  destruct (Hu u v Hun Hvn) as [Ex Ey]. rewrite Ex, Ey.
  cbv [one neg Exact.number].
  destruct (Nat.eqb_spec k (2 * u)), (Nat.eqb_spec k (2 * u + 1)),
           (Nat.eqb_spec k (2 * v)), (Nat.eqb_spec k (2 * v + 1)); try lia; ring.
Qed.

Lemma balanced_zeros (n : nat) (t : list R) : balanced n t (zeros (2 * n)).
Proof.
  unfold balanced, zeros, rows_of_width, row_dot. split.
  - apply Forall_forall. intros row Hrow. apply repeat_spec in Hrow. subst.
    apply repeat_length.
  - intros k. destruct (nth_in_or_default k (repeat (repeat (zero : R) (2 * n)) (2 * n)) [])
      as [Hin | ->].
    + apply repeat_spec in Hin. rewrite Hin. apply dot_repeat_zero.
    + reflexivity.
Qed.

Lemma balanced_edge (n : nat) (t : list R) (H H' block : Matrix R) (u v : nat) :
  uniform n t -> balanced n t H -> (u < n)%nat -> (v < n)%nat ->
  add_edge_blocks H block u v = Ok H' -> balanced n t H'.
Proof.
  intros Ht [Hw Hz] Hu Hv E.
  destruct (add_edge_blocks_dot block Ht Hw Hu Hv E) as (W & _ & D).
  split; [exact W |]. intros k. rewrite D. apply Hz.
Qed.

Lemma balanced_rows (n : nat) (t : list R) (H : Matrix R) :
  balanced n t H -> forall row, In row H -> dot row t = 0.
Proof.
  intros [_ Hz] row Hrow. destruct (In_nth _ _ [] Hrow) as (k & _ & <-).
  apply Hz.
Qed.

Lemma uniform_translation (n : nat) (v : R * R) (ps : list (R * R)) :
  List.length ps = n -> uniform n (flatten (map (fun _ => v) ps)).
Proof.
  intros Hn. split; [rewrite flatten_length, length_map; lia |].
  intros a b Ha Hb.
  destruct (flatten_get (map (fun _ => v) ps) a) as [A0 A1].
  destruct (flatten_get (map (fun _ => v) ps) b) as [B0 B1].
  rewrite A0, A1, B0, B1.
  rewrite !(@nth_map_in_range _ _ (fun _ : R * R => v) ps _ (0, 0) (0, 0)) by lia.
  split; reflexivity.
Qed.

(** X21.  In exact arithmetic both ambient Hessians, the Euclidean one
    and the geometric one, vanish on the translations: each of their
    rows has 2n entries that add up to 0 over the x columns and over
    the y columns. *)
Theorem ambient_hessians_translations (la : LinAlg R) (config : Configuration R)
  (lambdas : list R) (v : R * R) :
  well_formed config ->
  let t := flatten (map (fun _ => v) config.(positions)) in
  (forall H, buildEuclideanHessian la config = Ok H ->
     forall row, In row H ->
       List.length row = (2 * config.(n))%nat /\ dot row t = 0) /\
  (forall H, buildGeometricHessian config lambdas = Ok H ->
     forall row, In row H ->
       List.length row = (2 * config.(n))%nat /\ dot row t = 0).
Proof.
  intros [Hlen Hrange] t.
  assert (Ht : uniform config.(n) t) by (apply uniform_translation; exact Hlen).
  assert (Hrows : forall H, balanced config.(n) t H ->
            forall row, In row H ->
              List.length row = (2 * config.(n))%nat /\ dot row t = 0).
  { intros H Hb row Hrow. split; [| eapply balanced_rows; eauto].
    destruct Hb as [Hw _]. unfold rows_of_width in Hw. rewrite Forall_forall in Hw.
    apply Hw. exact Hrow. }
  pose proof (balanced_zeros config.(n) t) as H0.
  destruct (convexHullIndices_spec config.(positions)) as [_ Hidx].
  rewrite Hlen in Hidx.
  split.
  - intros H HE. apply Hrows. clear Hrows.
    unfold buildEuclideanHessian in HE.
    destruct (isCollinear la config.(positions)).
    + unfold collinear_hessian in HE.
      set (hull := convexHullIndices config.(positions)) in *.
      destruct (Nat.eq_dec config.(n) 0) as [Hn0 | Hn0].
      { (* no disk: no hull point, nothing is added *)
        assert (Hh : hull = []).
        { destruct hull as [| h r]; [reflexivity |].
          specialize (Hidx h (or_introl eq_refl)). lia. }
        rewrite Hh in HE. unfold farthest_pair in HE. cbn [pairs fold_left] in HE.
        assert (Hc : (zero >? lit_1e15)%num = false).
        { cbv [ltb zero lit_1e15 Exact.number]. unfold Rltb.
          destruct (Rlt_dec 1e-15 0) as [Hlt |]; [lra | reflexivity]. }
        rewrite Hc in HE. injection HE as <-. exact H0. }
      pose proof (@farthest_pair_ends _ _ config.(positions) hull config.(n)
                    ltac:(lia) Hidx) as Hends.
      destruct (farthest_pair config.(positions) hull) as [[m a] b].
      destruct Hends as [Ha Hb].
      destruct (_ <? _)%num; [| injection HE as <-; exact H0].
      exact (@balanced_edge config.(n) t _ H _ a b Ht H0 Ha Hb HE).
    + set (edges := cyclic_edges (convexHullIndices config.(positions))) in *.
      assert (He : forall a b, In (a, b) edges -> (a < config.(n))%nat /\ (b < config.(n))%nat).
      { intros a b Hab. apply cyclic_edges_In in Hab. destruct Hab. split; auto. }
      clearbody edges. revert H HE.
      generalize (zeros (2 * config.(n))) H0. 
      induction edges as [| [a b] edges IH]; intros M HM H HE; cbn [polygon_hessian] in HE.
      * injection HE as <-. exact HM.
      * destruct (He a b (or_introl eq_refl)) as [Ha Hb].
        assert (He' : forall x y, In (x, y) edges ->
                        (x < config.(n))%nat /\ (y < config.(n))%nat)
          by (intros x y Hxy; apply He; right; exact Hxy).
        destruct (_ <? _)%num; [eapply IH; eauto |].
        destruct (add_edge_blocks M _ a b) as [M' | e] eqn:EM; [| discriminate].
        cbn [bind] in HE. eapply (IH He' M'); [| exact HE].
        exact (@balanced_edge config.(n) t M M' _ a b Ht HM Ha Hb EM).
  - intros H HG. apply Hrows. clear Hrows.
    unfold buildGeometricHessian in HG.
    revert H HG. generalize (zeros (2 * config.(n))) H0. generalize 0%nat.
    induction Hrange as [| [i j] cs [Hi Hj] Hcs IH]; intros idx M HM H HG;
      cbn [geometric_blocks] in HG.
    + injection HG as <-. exact HM.
    + cbn [fst snd] in Hi, Hj.
      rewrite (@point_at_in_range _ _ config.(positions) j) in HG by lia.
      rewrite (@point_at_in_range _ _ config.(positions) i) in HG by lia.
      destruct (_ <? _)%num; [eapply IH; eauto |].
      destruct (add_edge_blocks M _ (Z.to_nat i) (Z.to_nat j)) as [M' | e] eqn:EM;
        [| discriminate].
      cbn [bind] in HG. eapply (IH _ M'); [| exact HG].
      refine (@balanced_edge config.(n) t M M' _ (Z.to_nat i) (Z.to_nat j)
                Ht HM _ _ EM); lia.
Qed.

End HessianTranslations.

Lemma computeHessian_shape_witness :
  isFinite (zero : float) = true /\
  rollDim Cases.one_column <> O /\
  exists res,
    computeHessian Scenario.no_library Scenario.two_disks Cases.one_column = Ok res /\
    List.length res.(hessian) = 1%nat.
Proof.
  assert (Hf : isFinite (zero : float) = true) by reflexivity.
  assert (Hd : rollDim Cases.one_column <> O) by discriminate.
  split; [exact Hf |]. split; [exact Hd |].
  destruct (@computeHessian_total _ _ Scenario.no_library Scenario.two_disks
              Cases.one_column two_disks_well_formed)
    as [res Hres]; [simpl; lia | eexists; reflexivity |].
  exists res. split; [exact Hres |].
  exact (proj1 (@computeHessian_shape _ _ Scenario.no_library Scenario.two_disks
                  Cases.one_column res Hf Hd Hres)).
Defined.

Lemma ambient_hessians_translations_witness :
  well_formed ExactCases.two_exact_disks /\
  exists H,
    buildEuclideanHessian ExactScenario.sample_library ExactCases.two_exact_disks
      = Ok H /\
    List.length H = 4%nat /\
    forall row, In row H ->
      dot row (flatten (map (fun _ => (1, 0)%R)
                            ExactCases.two_exact_disks.(positions))) = 0%R.
Proof.
  split; [exact two_exact_disks_well_formed |].
  destruct (@buildEuclideanHessian_ok _ _ ExactScenario.sample_library
              ExactCases.two_exact_disks eq_refl) as (H & HE & HL);
    [simpl; lia |].
  exists H. split; [exact HE |]. split; [exact HL |].
  intros row Hrow.
  exact (proj2 (proj1 (@ambient_hessians_translations
                         ExactScenario.sample_library ExactCases.two_exact_disks
                         [] (1, 0)%R two_exact_disks_well_formed)
                  H HE row Hrow)).
Defined.

(* ================================================================== *)
(** * 28. Properties of the configurations *)
(* ================================================================== *)

(** The fields of a configuration that is given by its record. *)
Ltac fields :=
  cbn [createConfiguration n positions radii contacts latticeContacts
       latticeShifts fst snd].
Ltac fields_in H :=
  cbn [createConfiguration n positions radii contacts latticeContacts
       latticeShifts fst snd] in H.

Section ConfigurationFacts.
Context {num : Type} {N : Number num} {Rd : Rounding num}.
Local Open Scope num_scope.

(** X22.  [createConfiguration] counts the disks from the centres and
    gives every disk the same radius; the configuration is well formed
    exactly when the contacts name centres, and one that the graph
    validator accepts is, so that [buildContactMatrix] never fails on
    it with a [TypeError]. *)
Theorem createConfiguration_validated (positions : list (num * num))
  (contacts : list Contact) (radius : num)
  (latticeContacts : list Contact) (latticeShifts : list (num * num)) :
  let config :=
    createConfiguration positions contacts radius latticeContacts latticeShifts in
  config.(n) = List.length positions /\
  config.(radii) = repeat radius (List.length positions) /\
  (well_formed config <-> in_range (List.length positions) contacts) /\
  ((Graph.checkGraphValidity config).(isValid) = true ->
   well_formed config /\ buildContactMatrix config <> Throw TypeError).
Proof.
  intros config. split; [reflexivity |]. split; [reflexivity |].
  assert (Hwf : well_formed config <-> in_range (List.length positions) contacts).
  { unfold well_formed, config. fields. tauto. }
  split; [exact Hwf |].
  intros Hvalid.
  assert (Hr : in_range (List.length positions) (contacts ++ latticeContacts)).
  { unfold Graph.checkGraphValidity in Hvalid.
    unfold config in Hvalid. fields_in Hvalid.
    destruct (find _ (contacts ++ latticeContacts)) as [[u v] |] eqn:E;
      [discriminate |].
    apply GraphFacts.find_out_of_range_none. exact E. }
  apply Forall_app in Hr. destruct Hr as [Hr _].
  split; [apply Hwf; exact Hr |].
  unfold buildContactMatrix.
  unfold config. fields.
  destruct (contact_rows_in_range (2 * List.length positions) positions Hr)
    as [(_ & msg & ->) | (_ & ->)]; discriminate.
Qed.

(** *** Validation of the contact distances *)

Lemma contact_error_created (toFixed : Printer num)
  (positions : list (num * num)) (contacts : list Contact) (radius : num)
  (latticeContacts : list Contact) (latticeShifts : list (num * num))
  (tolerance : num) (useTorus : bool) (c : Contact) :
  let config :=
    createConfiguration positions contacts radius latticeContacts latticeShifts in
  exists e, contact_error toFixed config tolerance useTorus c = Ok e /\
    (e = None <-> touching positions radius tolerance useTorus c = true).
Proof.
  intros config. destruct c as [i j]. unfold contact_error, touching.
  unfold config. fields.
  set (len := Z.of_nat (List.length positions)).
  destruct (Z.ltb_spec i 0) as [Hi0 | Hi0]; cbn [orb].
  { eexists. split; [reflexivity |].
    destruct (Z.leb_spec 0 i); [lia |]. cbn [andb]. split; discriminate. }
  destruct (Z.leb_spec 0 i) as [_ |]; [| lia]. cbn [andb].
  destruct (Z.geb_spec i len) as [Hi | Hi]; cbn [orb].
  { eexists. split; [reflexivity |].
    destruct (Z.ltb_spec i len); [lia |]. cbn [andb]. split; discriminate. }
  destruct (Z.ltb_spec i len) as [_ |]; [| lia]. cbn [andb].
  destruct (Z.ltb_spec j 0) as [Hj0 | Hj0]; cbn [orb].
  { eexists. split; [reflexivity |].
    destruct (Z.leb_spec 0 j); [lia |]. cbn [andb]. split; discriminate. }
  destruct (Z.leb_spec 0 j) as [_ |]; [| lia]. cbn [andb].
  destruct (Z.geb_spec j len) as [Hj | Hj].
  { eexists. split; [reflexivity |].
    destruct (Z.ltb_spec j len); [lia |]. cbn [andb]. split; discriminate. }
  destruct (Z.ltb_spec j len) as [_ |]; [| lia]. cbn [andb].
  rewrite (@point_at_in_range _ _ positions i) by (fold len; lia).
  rewrite (@point_at_in_range _ _ positions j) by (fold len; lia).
  rewrite !array_get_repeat by (unfold len in *; lia).
  destruct (_ <? _); eexists; (split; [reflexivity |]); cbn [negb];
    split; congruence.
Qed.

(** X23.  On a configuration made by [createConfiguration],
    [validateContacts] returns, without exception, one error for each
    contact that does not join two disks of the configuration at
    distance twice the radius up to the tolerance, and [valid] exactly
    when there is none. *)
Theorem validateContacts_created (toFixed : Printer num)
  (positions : list (num * num)) (contacts : list Contact) (radius : num)
  (latticeContacts : list Contact) (latticeShifts : list (num * num))
  (tolerance : num) (useTorus : bool) :
  let config :=
    createConfiguration positions contacts radius latticeContacts latticeShifts in
  let ok := touching positions radius tolerance useTorus in
  exists r,
    validateContacts toFixed config tolerance useTorus = Ok r /\
    r.(valid) = forallb ok contacts /\
    List.length r.(errors) = List.length (filter (fun c => negb (ok c)) contacts).
Proof.
  intros config ok. unfold validateContacts.
  assert (H : forall cs errors,
    exists errors',
      contact_errors toFixed config tolerance useTorus cs errors = Ok errors' /\
      List.length errors' =
        (List.length errors + List.length (filter (fun c => negb (ok c)) cs))%nat).
  { induction cs as [| c cs IH]; intros errors; cbn [contact_errors filter].
    - exists errors. split; [reflexivity | cbn [List.length]; lia].
    - destruct (contact_error_created toFixed positions contacts radius
                  latticeContacts latticeShifts tolerance useTorus c)
        as (e & He & Hiff).
      fold config in He. rewrite He. cbn [bind]. fold ok in Hiff.
      destruct e as [msg |].
      + destruct (ok c) eqn:Eok; [destruct Hiff as [_ Hiff]; discriminate (Hiff eq_refl) |].
        cbn [negb]. destruct (IH (errors ++ [msg])) as (errors' & -> & HL).
        exists errors'. split; [reflexivity |].
        rewrite HL, length_app. cbn [List.length]. lia.
      + rewrite (proj1 Hiff eq_refl). cbn [negb].
        destruct (IH errors) as (errors' & -> & HL).
        exists errors'. split; [reflexivity | exact HL]. }
  match goal with
  | |- context [contact_errors _ _ _ _ ?cs []] =>
      destruct (H cs []) as (errors' & -> & HL)
  end.
  cbn [bind]. eexists. split; [reflexivity |]. cbn [valid errors].
  unfold config in HL. fields_in HL.
  cbn [List.length Nat.add] in HL. split; [| exact HL].
  rewrite HL. clear.
  induction contacts as [| c cs IH]; cbn [filter forallb]; [reflexivity |].
  destruct (ok c); cbn [negb andb]; [exact IH | reflexivity].
Qed.

(** *** Degrees *)

Lemma increment_at_nth (k i : nat) (l : list DegreeSlot) :
  nth i (increment_at k l) Hole =
    if (i =? k)%nat then increment (nth i l Hole) else nth i l Hole.
Proof.
  revert k i. induction l as [| s l IH]; intros k i.
  - revert i. induction k as [| k IHk]; intros [| i]; cbn [increment_at nth Nat.eqb];
      try reflexivity.
    + destruct i; reflexivity.
    + rewrite IHk. destruct (i =? k)%nat; destruct i; reflexivity.
  - destruct k as [| k], i as [| i]; cbn [increment_at nth Nat.eqb]; try reflexivity.
    apply IH.
Qed.

Lemma increment_degree_nth (l : list DegreeSlot) (u : Z) (i : nat) :
  nth i (increment_degree l u) Hole =
    if (u =? Z.of_nat i)%Z then increment (nth i l Hole) else nth i l Hole.
Proof.
  unfold increment_degree. destruct (Z.ltb_spec u 0).
  - destruct (Z.eqb_spec u (Z.of_nat i)); [lia | reflexivity].
  - rewrite increment_at_nth.
    destruct (Nat.eqb_spec i (Z.to_nat u)), (Z.eqb_spec u (Z.of_nat i));
      try reflexivity; lia.
Qed.

Lemma increment_at_length (k : nat) (l : list DegreeSlot) :
  (k < List.length l)%nat ->
  List.length (increment_at k l) = List.length l.
Proof.
  revert k. induction l as [| s l IH]; intros [| k] H; cbn [increment_at List.length] in *;
    try lia.
  rewrite IH; lia.
Qed.

(** The entry of a disk and the entry of an index that names no disk,
    after the contacts [cs] have been counted. *)
Lemma count_contacts_nth (cs : list Contact) (l : list DegreeSlot) (i : nat) :
  let l' := fold_left (fun degrees '(u, v) =>
              increment_degree (increment_degree degrees u) v) cs l in
  (forall d, nth i l Hole = Count d ->
     nth i l' Hole = Count (d + Z.of_nat (degree cs (Z.of_nat i)))) /\
  (nth i l Hole = NotANumber -> nth i l' Hole = NotANumber) /\
  (nth i l Hole = Hole -> (0 < degree cs (Z.of_nat i))%nat ->
     nth i l' Hole = NotANumber) /\
  (nth i l Hole = Hole -> degree cs (Z.of_nat i) = O -> nth i l' Hole = Hole).
Proof.
  revert l. induction cs as [| [u v] cs IH]; intros l; cbn [fold_left].
  - cbv zeta. unfold degree. cbn [filter List.length Nat.add].
    repeat split; auto; try lia. intros d Hd. rewrite Hd. f_equal. lia.
  - cbv zeta in *.
    specialize (IH (increment_degree (increment_degree l u) v)).
    destruct IH as (IH1 & IH2 & IH3 & IH4).
    assert (Hdeg : degree ((u, v) :: cs) (Z.of_nat i) =
                   ((if (u =? Z.of_nat i)%Z then 1 else 0) +
                    (if (v =? Z.of_nat i)%Z then 1 else 0) +
                    degree cs (Z.of_nat i))%nat).
    { unfold degree. cbn [filter fst snd].
      destruct (u =? Z.of_nat i)%Z, (v =? Z.of_nat i)%Z; cbn [List.length]; lia. }
    rewrite Hdeg. clear Hdeg.
    pose proof (increment_degree_nth (increment_degree l u) v i) as E2.
    rewrite (increment_degree_nth l u i) in E2.
    destruct (nth i l Hole) as [d | |] eqn:El;
      destruct (u =? Z.of_nat i)%Z, (v =? Z.of_nat i)%Z; cbn [increment] in E2;
      repeat split; try discriminate; try (intros; lia);
      try (intros d' Hd'; inversion Hd'; subst d';
           rewrite (IH1 _ E2); f_equal; lia);
      try (intros _; exact (IH2 E2));
      try (intros _ _; exact (IH2 E2));
      try (intros _ Hpos; apply (IH3 E2); cbn [Nat.add] in Hpos; exact Hpos);
      try (intros _ Hz; apply (IH4 E2); cbn [Nat.add] in Hz; exact Hz).
Qed.

Lemma count_contacts_length (n : nat) (cs : list Contact) (l : list DegreeSlot) :
  in_range n cs -> List.length l = n ->
  List.length (fold_left (fun degrees '(u, v) =>
                 increment_degree (increment_degree degrees u) v) cs l) = n.
Proof.
  intros Hr. revert l. induction Hr as [| [u v] cs [Hu Hv] Hr IH]; intros l Hl;
    cbn [fold_left]; [exact Hl |].
  cbn [fst snd] in Hu, Hv. apply IH. unfold increment_degree.
  destruct (Z.ltb_spec u 0); [lia |]. destruct (Z.ltb_spec v 0); [lia |].
  rewrite !increment_at_length; rewrite ?increment_at_length; lia.
Qed.

(** X24.  [computeDegrees] counts at each disk the ends of the contacts
    and of the lattice contacts; an index that names no disk makes the
    array grow, with NaN at that index, and when every index names a
    disk the array is the one the graph validator computes. *)
Theorem computeDegrees_counts (config : Configuration num) :
  let cs := all_contacts config in
  let degrees := computeDegrees config in
  (forall i, (i < config.(n))%nat ->
     nth i degrees Hole = Count (Z.of_nat (degree cs (Z.of_nat i)))) /\
  (forall k, (config.(n) <= k)%nat -> (0 < degree cs (Z.of_nat k))%nat ->
     (k < List.length degrees)%nat /\ nth k degrees Hole = NotANumber) /\
  (in_range config.(n) cs ->
     degrees = map Count (Graph.computeVertexDegrees config.(n) cs)).
Proof.
  intros cs degrees.
  assert (Hd : degrees =
    fold_left (fun degrees '(u, v) =>
                 increment_degree (increment_degree degrees u) v)
              cs (repeat (Count 0) config.(n))).
  { unfold degrees, computeDegrees, cs, all_contacts. rewrite fold_left_app.
    reflexivity. }
  assert (H1 : forall i, (i < config.(n))%nat ->
     nth i degrees Hole = Count (Z.of_nat (degree cs (Z.of_nat i)))).
  { intros i Hi. rewrite Hd.
    destruct (count_contacts_nth cs (repeat (Count 0) config.(n)) i) as (H & _).
    rewrite (H 0%Z); [f_equal; lia |].
    rewrite nth_repeat_lt by exact Hi. reflexivity. }
  split; [exact H1 |]. split.
  - intros k Hk Hpos.
    assert (Hn : nth k degrees Hole = NotANumber).
    { rewrite Hd.
      destruct (count_contacts_nth cs (repeat (Count 0) config.(n)) k)
        as (_ & _ & H & _).
      apply H; [| exact Hpos].
      apply nth_overflow. rewrite repeat_length. exact Hk. }
    split; [| exact Hn].
    destruct (Nat.lt_ge_cases k (List.length degrees)) as [Hlt | Hge]; [exact Hlt |].
    rewrite nth_overflow in Hn by exact Hge. discriminate.
  - intros Hr.
    assert (HL : List.length degrees = config.(n)).
    { rewrite Hd. apply count_contacts_length; [exact Hr | apply repeat_length]. }
    apply (nth_ext _ _ Hole Hole).
    + rewrite length_map, HL.
      symmetry. apply computeVertexDegrees_length.
    + intros i Hi. rewrite HL in Hi. rewrite (H1 i Hi).
      rewrite (@nth_map_in_range _ _ Count _ i 0%Z Hole)
        by (rewrite computeVertexDegrees_length; exact Hi).
      rewrite GraphFacts.computeVertexDegrees_nth by exact Hi. reflexivity.
Qed.

End ConfigurationFacts.

(** *** Directions *)

Section DirectionFacts.
Context {num : Type} {N : Number num} {Rd : Rounding num}.
Local Open Scope num_scope.

(** X25.  Without the torus, [contactDirection] computes for two disks
    the vector that [buildContactMatrix] writes in the row of their
    contact, [-u] at the first disk and [u] at the second; where the
    builder throws because the centres coincide, it returns (0, 0);
    it throws a [TypeError] exactly when an index names no centre. *)
Theorem contactDirection_contact_row (config : Configuration num) (i j : Z) :
  let positions := config.(positions) in
  let inside := fun k => (0 <= k < Z.of_nat (List.length positions))%Z in
  (contactDirection config i j false = Throw TypeError <->
   ~ (inside i /\ inside j)) /\
  (inside i -> inside j -> coincident positions (i, j) ->
   contactDirection config i j false = Ok (zero, zero) /\
   exists msg, contact_row (2 * config.(n)) positions (i, j) = Throw (Error msg)) /\
  (inside i -> inside j -> ~ coincident positions (i, j) ->
   exists u,
     contactDirection config i j false = Ok u /\
     contact_row (2 * config.(n)) positions (i, j) =
       Ok (contact_row_of (2 * config.(n)) i j u)).
Proof.
  intros positions inside. unfold contactDirection. fold positions.
  split; [| split].
  - split.
    + intros H [Hi Hj].
      rewrite (point_at_in_range _ Hi), (point_at_in_range _ Hj) in H.
      destruct (_ <? _); discriminate.
    + intros H.
      destruct (point_at positions j) as [pj |] eqn:Ej; [| reflexivity].
      destruct (point_at positions i) as [pi |] eqn:Ei; [| reflexivity].
      exfalso. apply H. unfold inside, point_at in *.
      destruct (Z.ltb_spec i 0); [discriminate |].
      destruct (Z.ltb_spec j 0); [discriminate |].
      assert (Hi : nth_error positions (Z.to_nat i) <> None) by congruence.
      assert (Hj : nth_error positions (Z.to_nat j) <> None) by congruence.
      apply nth_error_Some in Hi, Hj. lia.
  - intros Hi Hj Hc.
    rewrite (point_at_in_range _ Hi), (point_at_in_range _ Hj).
    unfold coincident, centre_distance in Hc. cbn [fst snd] in Hc.
    rewrite Hc. split; [reflexivity |].
    destruct (contact_row_in_range (2 * config.(n)) positions (i, j) Hi Hj)
      as [(_ & msg & E) | (Hn & _)]; [exists msg; exact E |].
    exfalso. apply Hn. exact Hc.
  - intros Hi Hj Hc.
    rewrite (point_at_in_range _ Hi), (point_at_in_range _ Hj).
    unfold coincident, centre_distance in Hc. cbn [fst snd] in Hc.
    apply not_true_is_false in Hc. rewrite Hc.
    eexists. split; [reflexivity |].
    destruct (contact_row_in_range (2 * config.(n)) positions (i, j) Hi Hj)
      as [(Hco & _) | (_ & E)].
    + unfold coincident, centre_distance in Hco. cbn [fst snd] in Hco. congruence.
    + exact E.
Qed.

End DirectionFacts.

Section DirectionExact.
Local Open Scope R_scope.

(** X26.  In exact arithmetic and without the torus, the direction
    from disk [i] to disk [j] is the opposite of the direction from
    [j] to [i], and is either a unit vector or, when the centres are
    closer than 1e-15, (0, 0). *)
Theorem contactDirection_exact (config : Configuration R) (i j : Z) (u : R * R) :
  contactDirection config i j false = Ok u ->
  contactDirection config j i false = Ok (- fst u, - snd u) /\
  ((u = (0, 0) /\ coincident config.(positions) (i, j)) \/
   (fst u * fst u + snd u * snd u = 1 /\ ~ coincident config.(positions) (i, j))).
Proof.
  unfold contactDirection, coincident, centre_distance. cbn [fst snd].
  destruct (point_at config.(positions) j) as [pj |] eqn:Ej; [| discriminate].
  destruct (point_at config.(positions) i) as [pi |] eqn:Ei; [| discriminate].
  assert (Hci : centre config.(positions) i = pi).
  { assert (Hin := Ei). unfold point_at in Hin.
    destruct (i <? 0)%Z; [discriminate |].
    unfold centre, hull_point. apply nth_error_nth. exact Hin. }
  assert (Hcj : centre config.(positions) j = pj).
  { assert (Hin := Ej). unfold point_at in Hin.
    destruct (j <? 0)%Z; [discriminate |].
    unfold centre, hull_point. apply nth_error_nth. exact Hin. }
  rewrite Hci, Hcj.
  cbv [sub add mul div sqrt ltb zero lit_1e15 Exact.number].
  set (dx := fst pj - fst pi). set (dy := snd pj - snd pi).
  replace (fst pi - fst pj) with (- dx) by (unfold dx; ring).
  replace (snd pi - snd pj) with (- dy) by (unfold dy; ring).
  replace (- dx * - dx + - dy * - dy) with (dx * dx + dy * dy) by ring.
  destruct (Rltb (R_sqrt.sqrt (dx * dx + dy * dy)) 1e-15) eqn:E.
  - intros H. injection H as <-. cbn [fst snd].
    split; [do 2 f_equal; ring |]. left. split; reflexivity.
  - intros H. injection H as <-. cbn [fst snd].
    split; [do 2 f_equal; unfold Rdiv; ring |].
    right. split; [| discriminate].
    apply (@direction_unit dx dy (dx * dx + dy * dy) eq_refl E).
Qed.

End DirectionExact.

Lemma contactDirection_exact_witness :
  exists u,
    contactDirection ExactCases.two_exact_disks 0 1 false = Ok u /\
    contactDirection ExactCases.two_exact_disks 1 0 false
      = Ok (- fst u, - snd u)%R.
Proof.
  assert (H : exists u, contactDirection ExactCases.two_exact_disks 0 1 false = Ok u).
  { unfold contactDirection.
    change (point_at ExactCases.two_exact_disks.(positions) 1) with (Some (1, 0)%R).
    change (point_at ExactCases.two_exact_disks.(positions) 0) with (Some (-1, 0)%R).
    cbv beta iota zeta.
    destruct (_ <? lit_1e15)%num; eexists; reflexivity. }
  destruct H as [u Hu]. exists u. split; [exact Hu |].
  exact (proj1 (@contactDirection_exact ExactCases.two_exact_disks 0 1 u Hu)).
Defined.

(** *** The torus *)

Section TorusFacts.
Local Open Scope R_scope.

Lemma wrap_range (x : R) : - / 2 <= wrap x < / 2.
Proof.
  unfold wrap. cbn [round rounding]. unfold math_round.
  pose proof (Zfloor_bound (x + / 2)). lra.
Qed.

Lemma wrap_small (x : R) : - / 2 <= x < / 2 -> wrap x = x.
Proof.
  intros H. unfold wrap. cbn [round rounding]. unfold math_round.
  rewrite (Zfloor_eq 0); [simpl; lra |]. simpl. lra.
Qed.

Lemma wrap_shift (x : R) (k : Z) : wrap (x + IZR k) = wrap x.
Proof.
  unfold wrap. cbn [round rounding]. unfold math_round.
  replace (x + IZR k + / 2) with (x + / 2 + IZR k) by ring.
  rewrite Zfloor_addz, plus_IZR. ring.
Qed.

Lemma wrap_minus_round (x : R) : exists k : Z, wrap x = x - IZR k.
Proof. exists (Zfloor (x + / 2)). reflexivity. Qed.

Lemma wrap_abs (x : R) : Rabs (wrap x) <= Rabs x /\ Rabs (wrap x) <= / 2.
Proof.
  pose proof (wrap_range x) as Hr. split.
  - destruct (Rlt_dec (Rabs x) (/ 2)) as [Hs | Hb].
    + rewrite wrap_small; [lra |].
      apply Rabs_def2 in Hs. lra.
    + apply Rle_trans with (/ 2); [| lra].
      apply Rabs_le. lra.
  - apply Rabs_le. lra.
Qed.

Lemma wrap_opp_sq (x : R) : wrap (- x) * wrap (- x) = wrap x * wrap x.
Proof.
  destruct (wrap_minus_round x) as [k Hk].
  pose proof (wrap_range x) as Hr.
  destruct (Req_dec (wrap x) (- / 2)) as [Hhalf | Hnot].
  - assert (E : wrap (- x) = - / 2).
    { replace (- x) with (- / 2 + IZR (1 - k)) by (rewrite minus_IZR; lra).
      rewrite wrap_shift. apply wrap_small. lra. }
    rewrite E, Hhalf. reflexivity.
  - assert (E : wrap (- x) = - wrap x).
    { replace (- x) with (- wrap x + IZR (- k)) by (rewrite opp_IZR; lra).
      rewrite wrap_shift. apply wrap_small. lra. }
    rewrite E. ring.
Qed.

Lemma sq_le_abs (a b : R) : Rabs a <= Rabs b -> a * a <= b * b.
Proof. intros H. apply Rsqr_le_abs_1 in H. exact H. Qed.

(** X27.  In exact arithmetic [wrapToFundamentalDomain] lands in
    [-1/2, 1/2) on both axes, leaves alone a point that is already
    there (so that wrapping twice is wrapping once), and sends to the
    same point two points that differ by integers. *)
Theorem wrapToFundamentalDomain_range (p : R * R) :
  let q := wrapToFundamentalDomain p in
  (- / 2 <= fst q < / 2 /\ - / 2 <= snd q < / 2) /\
  wrapToFundamentalDomain q = q /\
  (- / 2 <= fst p < / 2 -> - / 2 <= snd p < / 2 -> q = p) /\
  (forall k l : Z,
     wrapToFundamentalDomain (fst p + IZR k, snd p + IZR l) = q).
Proof.
  intros q. unfold q, wrapToFundamentalDomain. cbn [fst snd].
  change (fst p - round (fst p))%num with (wrap (fst p)).
  change (snd p - round (snd p))%num with (wrap (snd p)).
  pose proof (wrap_range (fst p)) as Hx. pose proof (wrap_range (snd p)) as Hy.
  split; [split; assumption |]. split; [| split].
  - change (wrap (fst p) - round (wrap (fst p)))%num with (wrap (wrap (fst p))).
    change (wrap (snd p) - round (wrap (snd p)))%num with (wrap (wrap (snd p))).
    rewrite (@wrap_small (wrap (fst p)) Hx), (@wrap_small (wrap (snd p)) Hy).
    reflexivity.
  - intros H1 H2. rewrite !wrap_small by assumption. destruct p; reflexivity.
  - intros k l.
    change (sub (fst p + IZR k) (round (fst p + IZR k))) with (wrap (fst p + IZR k)).
    change (sub (snd p + IZR l) (round (snd p + IZR l))) with (wrap (snd p + IZR l)).
    rewrite !wrap_shift. reflexivity.
Qed.

Lemma torusDistance_wrap (a b : R * R) :
  torusDistance a b =
    R_sqrt.sqrt (wrap (fst a - fst b) * wrap (fst a - fst b) +
                 wrap (snd a - snd b) * wrap (snd a - snd b)).
Proof. reflexivity. Qed.

Lemma euclideanDistance_sqrt (a b : R * R) :
  euclideanDistance a b =
    R_sqrt.sqrt ((fst a - fst b) * (fst a - fst b) +
                 (snd a - snd b) * (snd a - snd b)).
Proof. reflexivity. Qed.

(** X28.  In exact arithmetic the distance on the torus is symmetric,
    is at most the Euclidean distance and at most half the diagonal of
    the unit square, and does not change when either point is wrapped
    into the fundamental domain. *)
Theorem torusDistance_properties (a b : R * R) :
  torusDistance a b = torusDistance b a /\
  0 <= torusDistance a b <= euclideanDistance a b /\
  torusDistance a b <= R_sqrt.sqrt (/ 2) /\
  torusDistance (wrapToFundamentalDomain a) b = torusDistance a b /\
  torusDistance a (wrapToFundamentalDomain b) = torusDistance a b.
Proof.
  rewrite !torusDistance_wrap, euclideanDistance_sqrt.
  set (dx := fst a - fst b). set (dy := snd a - snd b).
  destruct (wrap_abs dx) as [Hx1 Hx2]. destruct (wrap_abs dy) as [Hy1 Hy2].
  pose proof (sq_le_abs _ _ Hx1) as Sx. pose proof (sq_le_abs _ _ Hy1) as Sy.
  assert (Hhalf : Rabs (/ 2) = / 2) by (apply Rabs_pos_eq; lra).
  assert (Tx : wrap dx * wrap dx <= / 2 * / 2)
    by (apply sq_le_abs; rewrite Hhalf; exact Hx2).
  assert (Ty : wrap dy * wrap dy <= / 2 * / 2)
    by (apply sq_le_abs; rewrite Hhalf; exact Hy2).
  assert (Px : 0 <= wrap dx * wrap dx) by nra.
  assert (Py : 0 <= wrap dy * wrap dy) by nra.
  split; [| split; [| split; [| split]]].
  - f_equal. replace (fst b - fst a) with (- dx) by (unfold dx; ring).
    replace (snd b - snd a) with (- dy) by (unfold dy; ring).
    rewrite !wrap_opp_sq. reflexivity.
  - split; [apply sqrt_pos |]. apply sqrt_le_1_alt. lra.
  - apply sqrt_le_1_alt. lra.
  - unfold wrapToFundamentalDomain. cbn [fst snd].
    change (fst a - round (fst a))%num with (wrap (fst a)).
    change (snd a - round (snd a))%num with (wrap (snd a)).
    destruct (wrap_minus_round (fst a)) as [k Hk].
    destruct (wrap_minus_round (snd a)) as [l Hl].
    replace (wrap (fst a) - fst b) with (dx + IZR (- k))
      by (rewrite Hk, opp_IZR; unfold dx; ring).
    replace (wrap (snd a) - snd b) with (dy + IZR (- l))
      by (rewrite Hl, opp_IZR; unfold dy; ring).
    rewrite !wrap_shift. reflexivity.
  - unfold wrapToFundamentalDomain. cbn [fst snd].
    change (fst b - round (fst b))%num with (wrap (fst b)).
    change (snd b - round (snd b))%num with (wrap (snd b)).
    destruct (wrap_minus_round (fst b)) as [k Hk].
    destruct (wrap_minus_round (snd b)) as [l Hl].
    replace (fst a - wrap (fst b)) with (dx + IZR k)
      by (rewrite Hk; unfold dx; ring).
    replace (snd a - wrap (snd b)) with (dy + IZR l)
      by (rewrite Hl; unfold dy; ring).
    rewrite !wrap_shift. reflexivity.
Qed.

(** X29.  In exact arithmetic [euclideanDistance] is a distance: it is
    symmetric, never negative, 0 exactly between a point and itself,
    and obeys the triangle inequality. *)
Theorem euclideanDistance_metric (a b c : R * R) :
  euclideanDistance a b = euclideanDistance b a /\
  0 <= euclideanDistance a b /\
  (euclideanDistance a b = 0 <-> a = b) /\
  euclideanDistance a c <= euclideanDistance a b + euclideanDistance b c.
Proof.
  rewrite !euclideanDistance_sqrt.
  split; [f_equal; ring |]. split; [apply sqrt_pos |]. split.
  - split.
    + intros H.
      pose proof (Rle_0_sqr (fst a - fst b)) as Px.
      pose proof (Rle_0_sqr (snd a - snd b)) as Py. unfold Rsqr in Px, Py.
      apply sqrt_eq_0 in H; [| lra].
      assert (Hx : (fst a - fst b) * (fst a - fst b) = 0) by lra.
      assert (Hy : (snd a - snd b) * (snd a - snd b) = 0) by lra.
      apply Rsqr_0_uniq in Hx, Hy.
      destruct a, b. cbn [fst snd] in *. f_equal; lra.
    + intros ->. replace (_ + _) with 0 by ring. apply sqrt_0.
  - pose proof (triangle (fst a) (snd a) (fst c) (snd c) (fst b) (snd b)) as T.
    unfold dist_euc, Rsqr in T. exact T.
Qed.

End TorusFacts.

(** [Math.round] in binary64 on the values where it is easy to get
    wrong: the halves go up, also the negative ones; a result that is
    0 keeps the sign of the argument; the number just below 1/2 goes
    to 0; the integers from 2^52 on, the infinities and NaN are left
    as they are. *)
Example math_round_samples :
  map Float64Round.math_round
    [0.5; 1.5; 2.5; -0.5; -1.5; -2.5; 0.49999999999999994; -0.2; -0;
     2.4; -2.6; 4503599627370495.5; 4503599627370496; 1e300;
     infinity; neg_infinity; nan]%float
  = [1; 2; 3; -0; -1; -2; 0; -0; -0;
     2; -3; 4503599627370496; 4503599627370496; 1e300;
     infinity; neg_infinity; nan]%float.
Proof. vm_compute. reflexivity. Qed.

(** On the torus of binary64 two points on either side of the seam are
    near: the distance from (0.45, 0) to (-0.45, 0) is a tenth, up to
    rounding, where the Euclidean distance is 0.9. *)
Example torusDistance_across_the_seam :
  let d := torusDistance (0.45, 0)%float (-0.45, 0)%float in
  (PrimFloat.abs (d - 0.1) <? 1e-15)%float = true /\
  euclideanDistance (0.45, 0)%float (-0.45, 0)%float = 0.9%float.
Proof. vm_compute. split; reflexivity. Qed.

(* ================================================================== *)
(** * 29. Properties of the analysis hook *)
(* ================================================================== *)

Section HookFacts.
Context {num : Type} {N : Number num}.
Local Open Scope num_scope.

Lemma projected_entries_length (R : Matrix num) (grad : list num)
  (columns : list nat) (vs : list num) :
  Hook.projected_entries R grad columns = Ok vs ->
  List.length vs = List.length columns.
Proof.
  revert vs. induction columns as [| k rest IH]; intros vs; cbn [Hook.projected_entries].
  - intros H. injection H as <-. reflexivity.
  - destruct (Hook.projected_entry R grad k _ zero) as [v | e]; [| discriminate].
    cbn [bind].
    destruct (Hook.projected_entries R grad rest) as [vs' | e]; [| discriminate].
    cbn [bind]. intros H. injection H as <-. cbn [List.length]. f_equal.
    apply IH. reflexivity.
Qed.

(** X30.  What the analysis hook shows beside the result agrees with
    the result: the contact matrix is the one of the constraints, the
    perimeter of the disks is the perimeter of the centres plus the
    circle of the first radius, the projected gradient has one entry
    per rolling dimension, and a configuration of rolling dimension 0
    has an empty projected gradient and is shown as critical. *)
Theorem extendedAnalysis_consistent (la : LinAlg num) (config : Configuration num)
  (x : Hook.ExtendedAnalysis num) :
  Hook.extendedAnalysis la config = Ok x ->
  let r := x.(Hook.result) in
  analyzeConfiguration la config = Ok r /\
  x.(Hook.contactMatrix) = r.(constraints).(contactMatrix) /\
  r.(perimeterResult).(perimeter) =
    x.(Hook.perimeterCenters) + two * PI * array_get config.(radii) 0 /\
  List.length x.(Hook.projectedGradient) = r.(constraints).(dimension) /\
  (r.(constraints).(dimension) = O ->
   x.(Hook.projectedGradient) = [] /\ x.(Hook.isCritical) = true).
Proof.
  unfold Hook.extendedAnalysis. intros Hx.
  destruct (analyzeConfiguration la config) as [res | e] eqn:Eres; [| discriminate].
  cbn [bind] in Hx.
  destruct (buildContactMatrix config) as [A | e] eqn:EA; [| discriminate].
  cbn [bind] in Hx.
  destruct (Hook.projected_entries _ _ _) as [pg | e] eqn:Epg; [| discriminate].
  cbn [bind] in Hx. injection Hx as <-.
  cbn [Hook.result Hook.contactMatrix Hook.perimeterCenters
       Hook.projectedGradient Hook.isCritical].
  cbv zeta.
  unfold analyzeConfiguration, computeConstraints in Eres.
  rewrite EA in Eres. cbn [bind rollingMatrix] in Eres.
  destruct (computeHessian la config _) as [h | e]; [| discriminate].
  cbn [bind] in Eres. injection Eres as <-.
  cbn [constraints perimeterResult contactMatrix rollingMatrix dimension
       perimeter computePerimeter] in *.
  apply projected_entries_length in Epg. unfold range in Epg.
  rewrite length_seq in Epg.
  split; [reflexivity |]. split; [reflexivity |]. split; [reflexivity |].
  split; [exact Epg |].
  intros Hd. rewrite Hd in Epg. destruct pg; [| discriminate]. split; reflexivity.
Qed.

End HookFacts.

Lemma extendedAnalysis_consistent_witness :
  exists x,
    Hook.extendedAnalysis Scenario.no_library Scenario.two_free_disks = Ok x /\
    x.(Hook.projectedGradient) = [] /\ x.(Hook.isCritical) = true.
Proof.
  eexists. split; [reflexivity |].
  exact (proj2 (proj2 (proj2 (proj2
           (@extendedAnalysis_consistent _ _ Scenario.no_library
              Scenario.two_free_disks _ eq_refl)))) eq_refl).
Defined.
